(** * Longest-palindromic-substring analyzer: the server's core, verified

    A shallow embedding of the functions of the server module
    ([preprocessString], [validatePalindrome], [naiveLPS], [dpLPS],
    [manacherLPS], [measurePerformance] and the sequential comparison run
    of the two routes) together with the properties its specification
    states about them.

    Conventions of the embedding.
    - A JavaScript string is the list of its UTF-16 code units ([Z]).
    - Array and string indices are JavaScript numbers holding integers far
      below 2^53, so they are [Z] with exact arithmetic.
    - A value that may be [undefined] (an out-of-range [s[i]] or
      [indexMapping[i]]) or [NaN] ([undefined + 1]) is an [option]: [None]
      stands for both, which [substring] treats alike.
    - [console] is the only global object the algorithms write to; it is
      threaded explicitly.
    - Clock and heap readings are inputs of the measurement harness.
      Durations, kilobyte amounts and everything computed from them are
      JavaScript numbers, that is IEEE 754 binary64 values with
      round-to-nearest-even arithmetic ([spec_float] at precision 53).
    - A timer callback runs only when the call stack is empty, so inside
      the synchronous [measurePerformance] the variable the callback
      would set keeps its initial value. *)

From Stdlib Require Import ZArith List Bool Lia String Ascii.
From Stdlib Require Import QArith Qround Lqa Permutation Sorted SpecFloat.
Import ListNotations.
Open Scope Z_scope.

Set Implicit Arguments.

(** ** JavaScript strings and the primitives the module uses *)

Module JS.

Definition jsstring := list Z.

(** A string literal of the development, as code units. *)
Definition lit (s : string) : jsstring :=
  List.map (fun a => Z.of_N (N_of_ascii a)) (list_ascii_of_string s).

(** [s.length], a JavaScript number; from here on [length] is this one and
    the length in [nat] is written [List.length]. *)
Definition length {A} (s : list A) : Z := Z.of_nat (List.length s).

(** [s[i]]: [None] is [undefined]. *)
Definition get {A} (s : list A) (i : Z) : option A :=
  if i <? 0 then None else nth_error s (Z.to_nat i).

(** [x === y] on values that are a code unit or [undefined]. *)
Definition strict_eq (x y : option Z) : bool :=
  match x, y with
  | Some a, Some b => a =? b
  | None, None => true
  | _, _ => false
  end.

(** The character class [[a-zA-Z0-9]].  The test of [preprocessString]
    carries the [i] flag; without the [u] flag case folding never maps a
    code unit of 128 or more to an ASCII one, so the flag adds nothing to a
    class that already holds both cases. *)
Definition is_alnum (c : Z) : bool :=
  ((48 <=? c) && (c <=? 57)) || ((65 <=? c) && (c <=? 90))
  || ((97 <=? c) && (c <=? 122)).

(** [s.replace(/[^a-zA-Z0-9]/g, '')] *)
Definition strip_non_alnum (s : jsstring) : jsstring := filter is_alnum s.

(** [toLowerCase] of one code unit.  The module applies [toLowerCase] only
    to strings already stripped to [[a-zA-Z0-9]], where it acts code unit
    by code unit as written here. *)
Definition lower (c : Z) : Z :=
  if (65 <=? c) && (c <=? 90) then c + 32 else c.

Definition toLowerCase (s : jsstring) : jsstring := List.map lower s.

(** [ToIntegerOrInfinity] of an integer, [undefined] or [NaN]. *)
Definition toInteger (x : option Z) : Z :=
  match x with Some z => z | None => 0 end.

Definition clamp (len x : Z) : Z := Z.min (Z.max x 0) len.

(** [s.substring(start, end)] with both arguments given. *)
Definition substring {A} (s : list A) (start end_ : option Z) : list A :=
  let len := length s in
  let finalStart := clamp len (toInteger start) in
  let finalEnd := clamp len (toInteger end_) in
  let from := Z.min finalStart finalEnd in
  let to := Z.max finalStart finalEnd in
  firstn (Z.to_nat (to - from)) (skipn (Z.to_nat from) s).

(** [x + 1] where [x] may be [undefined]. *)
Definition add1 (x : option Z) : option Z := option_map (fun z => z + 1) x.

(** [for (let i = start; ...; i++) st = body(i, st)], [count] rounds. *)
Fixpoint for_range {St} (count : nat) (i : Z) (body : Z -> St -> St)
  (st : St) : St :=
  match count with
  | O => st
  | S c => for_range c (i + 1) body (body i st)
  end.

End JS.

Import JS.

(** ** JavaScript numbers *)

(** Binary64 values and their operations, each rounded to nearest, ties to
    even. *)
Module Num.

Definition t := spec_float.

Definition prec : Z := 53.
Definition emax : Z := 1024.

(** The exponent of the smallest numbers above zero. *)
Definition emin : Z := SpecFloat.emin prec emax.

Definition zero : t := S754_zero false.

(** The number an integer converts to. *)
Definition of_Z (z : Z) : t := binary_normalize prec emax z 0 false.

Definition add : t -> t -> t := SFadd prec emax.
Definition sub : t -> t -> t := SFsub prec emax.
Definition mul : t -> t -> t := SFmul prec emax.
Definition div : t -> t -> t := SFdiv prec emax.

(** [x < y] and [x <= y]; both are false when an operand is [NaN]. *)
Definition lt : t -> t -> bool := SFltb.
Definition le : t -> t -> bool := SFleb.

(** The number nearest to [n / d]: what a decimal literal or a printed
    decimal with numerator [n] and denominator [d] is read as. *)
Definition ratio (n d : positive) : t :=
  SFdiv prec emax (S754_finite false n 0) (S754_finite false d 0).

End Num.

(** ** The console *)

Inductive AlgTag := Naive | DP | Manacher.

Inductive LogLine :=
| InvalidPalindromeDetected (tag : AlgTag) (processedPalindrome : jsstring)
| WarmingUp (algorithmName : string)
| StartingMeasurements (algorithmName : string) (iterations : Z)
| InvalidResultFrom (algorithmName : string) (result processed : jsstring)
| ValidPalindromeFrom (algorithmName : string) (result : jsstring)
| IterationReport (algorithmName : string) (i iterations : Z) (ms kb : Num.t)
| Complete (algorithmName : string) (avgMs : Num.t) (runs : Z)
    (avgKb : Num.t)
| PerformanceMeasurementError (message : jsstring).

Definition Console := list LogLine.

(** ** preprocessString *)

Record Preprocessed := {
  processedStr : jsstring;
  indexMapping : list Z;
  originalStr : option jsstring   (* absent on the two early returns *)
}.

(** The common expression [str.replace(/[^a-zA-Z0-9]/g, '').toLowerCase()]. *)
Definition canonicalize (s : jsstring) : jsstring :=
  toLowerCase (strip_non_alnum s).

(** [indexMapping[processedIdx] = v].  The loop keeps
    [processedIdx = indexMapping.length] (lemma
    [mapping_loop_processedIdx]), so the store always appends. *)
Definition array_store (arr : list Z) (k v : Z) : list Z :=
  if k <? length arr
  then firstn (Z.to_nat k) arr ++ v :: skipn (Z.to_nat k + 1) arr
  else arr ++ [v].

Definition mapping_body (originalStr : jsstring) (i : Z)
  (st : list Z * Z) : list Z * Z :=
  let '(indexMapping, processedIdx) := st in
  match get originalStr i with
  | Some c =>
      if is_alnum c
      then (array_store indexMapping processedIdx i, processedIdx + 1)
      else st
  | None => st
  end.

Definition preprocessString (s : jsstring) : Preprocessed :=
  match s with
  | [] => {| processedStr := []; indexMapping := []; originalStr := None |}
  | _ =>
      let processedStr := canonicalize s in
      if length processedStr =? 0
      then {| processedStr := processedStr; indexMapping := [];
              originalStr := None |}
      else
        let '(indexMapping, _) :=
          for_range (Z.to_nat (length s)) 0 (mapping_body s) ([], 0) in
        {| processedStr := processedStr; indexMapping := indexMapping;
           originalStr := Some s |}
  end.

(** ** validatePalindrome *)

Fixpoint validate_loop (count : nat) (i : Z) (processed : jsstring) : bool :=
  match count with
  | O => true
  | S c =>
      if negb (strict_eq (get processed i)
                 (get processed (length processed - 1 - i)))
      then false
      else validate_loop c (i + 1) processed
  end.

Definition validatePalindrome (str : jsstring) : bool :=
  match str with
  | [] => false
  | _ =>
      let processed := canonicalize str in
      if length processed <=? 1 then true
      else validate_loop (Z.to_nat (length processed / 2)) 0 processed
  end.

(** ** The three algorithms *)

Record Best := { maxLength : Z; maxStart : Z }.

(** The expansion loop
    [while (left >= 0 && right < n && s[left] === s[right]) { ... }],
    written out four times in [naiveLPS] and [manacherLPS] and once as
    [expandAroundCenter] in [dpLPS]. *)
Fixpoint expand_while (fuel : nat) (s : jsstring) (n left right : Z)
  (b : Best) : Best :=
  match fuel with
  | O => b
  | S f =>
      if (left >=? 0) && (right <? n) && strict_eq (get s left) (get s right)
      then
        let currentLength := right - left + 1 in
        let b' := if currentLength >? maxLength b
                  then {| maxLength := currentLength; maxStart := left |}
                  else b in
        expand_while f s n (left - 1) (right + 1) b'
      else b
  end.

(** Each round decrements [left], so [left + 1] rounds exhaust the loop
    (lemma [expand_while_fuel]). *)
Definition expandAroundCenter (s : jsstring) (n left right : Z) (b : Best)
  : Best :=
  expand_while (Z.to_nat (left + 1)) s n left right b.

(** [originalStr.substring(origStart, origEnd + 1)], the span mapped back
    to the raw text. *)
Definition map_back (indexMapping : list Z) (originalStr : jsstring)
  (b : Best) : jsstring :=
  let origStart := get indexMapping (maxStart b) in
  let origEnd := get indexMapping (maxStart b + maxLength b - 1) in
  substring originalStr origStart (add1 origEnd).

(** [originalStr.substring(indexMapping[0], indexMapping[0] + 1)], returned
    for a canonical string of one code unit and in the branch taken when
    validation fails. *)
Definition fallback (indexMapping : list Z) (originalStr : jsstring)
  : jsstring :=
  substring originalStr (get indexMapping 0) (add1 (get indexMapping 0)).

(** [processedStr.substring(start, start + maxLength)] *)
Definition span_of (processedStr : jsstring) (b : Best) : jsstring :=
  substring processedStr (Some (maxStart b))
    (Some (maxStart b + maxLength b)).

Definition naive_scan (processedStr : jsstring) : Best :=
  let n := length processedStr in
  for_range (Z.to_nat n) 0
    (fun i b =>
       let b1 := expandAroundCenter processedStr n i i b in
       expandAroundCenter processedStr n i (i + 1) b1)
    {| maxLength := 0; maxStart := 0 |}.

Definition naiveLPS (processedStr : jsstring) (indexMapping : list Z)
  (originalStr : jsstring) (console : Console) : jsstring * Console :=
  let n := length processedStr in
  let b := naive_scan processedStr in
  let finish (b : Best) :=
    let processedPalindrome := span_of processedStr b in
    if negb (validatePalindrome processedPalindrome)
    then
      let console :=
        console ++ [InvalidPalindromeDetected Naive processedPalindrome] in
      if n >? 0 then (fallback indexMapping originalStr, console)
      else ([], console)
    else (map_back indexMapping originalStr b, console) in
  if maxLength b =? 0
  then if n >? 0 then finish {| maxLength := 1; maxStart := 0 |}
       else ([], console)
  else finish b.

Definition dp_scan (processedStr : jsstring) : Best :=
  let n := length processedStr in
  for_range (Z.to_nat n) 0
    (fun i b =>
       let b1 := expandAroundCenter processedStr n i i b in
       if i + 1 <? n then expandAroundCenter processedStr n i (i + 1) b1
       else b1)
    {| maxLength := 1; maxStart := 0 |}.

Definition dpLPS (processedStr : jsstring) (indexMapping : list Z)
  (originalStr : jsstring) (console : Console) : jsstring * Console :=
  let n := length processedStr in
  if n =? 0 then ([], console)
  else if n =? 1 then (fallback indexMapping originalStr, console)
  else
    let b := dp_scan processedStr in
    let processedPalindrome := span_of processedStr b in
    if negb (validatePalindrome processedPalindrome)
    then (fallback indexMapping originalStr,
          console ++ [InvalidPalindromeDetected DP processedPalindrome])
    else (map_back indexMapping originalStr b, console).

Definition manacher_odd (processedStr : jsstring) (b : Best) : Best :=
  let n := length processedStr in
  for_range (Z.to_nat n) 0
    (fun i b => expandAroundCenter processedStr n (i - 1) (i + 1) b) b.

Definition manacher_even (processedStr : jsstring) (b : Best) : Best :=
  let n := length processedStr in
  for_range (Z.to_nat (n - 1)) 0
    (fun i b =>
       if strict_eq (get processedStr i) (get processedStr (i + 1))
       then expandAroundCenter processedStr n i (i + 1) b
       else b) b.

Definition manacher_scan (processedStr : jsstring) : Best :=
  manacher_even processedStr
    (manacher_odd processedStr {| maxLength := 1; maxStart := 0 |}).

Definition manacherLPS (processedStr : jsstring) (indexMapping : list Z)
  (originalStr : jsstring) (console : Console) : jsstring * Console :=
  match processedStr with
  | [] => ([], console)
  | _ =>
      if length processedStr =? 1
      then (fallback indexMapping originalStr, console)
      else
        let b := manacher_scan processedStr in
        let processedPalindrome := span_of processedStr b in
        if negb (validatePalindrome processedPalindrome)
        then (fallback indexMapping originalStr,
              console ++
                [InvalidPalindromeDetected Manacher processedPalindrome])
        else (map_back indexMapping originalStr b, console)
  end.




(** The routes preprocess the raw text once and hand each algorithm the
    canonical string, the mapping and the raw text itself. *)
Definition run_on_raw
  (alg : jsstring -> list Z -> jsstring -> Console -> jsstring * Console)
  (raw : jsstring) : jsstring :=
  let p := preprocessString raw in
  fst (alg (processedStr p) (indexMapping p) raw []).

(** ** The measurement harness *)

(** How a call ends: with a value, or by throwing an [Error] whose
    [message] is the string given.  Values thrown that carry no string
    message are not represented; none of the functions the routes measure
    throws. *)
Inductive Completion (A : Type) :=
| Normal (a : A)
| Throw (message : jsstring).
Arguments Normal {A} a.
Arguments Throw {A} message.

(** The state the harness runs in: the console, and the record of the
    calls of [algorithmFn] made so far with what each returned. *)
Record World := {
  console : Console;
  invocations : list (Completion jsstring)
}.

Definition M (A : Type) := World -> Completion A * World.

Definition ret {A} (a : A) : M A := fun w => (Normal a, w).

Definition bind {A B} (m : M A) (k : A -> M B) : M B :=
  fun w =>
    match m w with
    | (Normal a, w') => k a w'
    | (Throw e, w') => (Throw e, w')
    end.

Notation "x <- m ;; k" := (bind m (fun x => k))
  (at level 61, m at next level, right associativity).

Definition log (l : LogLine) : M unit :=
  fun w => (Normal tt,
            {| console := console w ++ [l]; invocations := invocations w |}).

Definition AlgorithmFn := jsstring -> list Z -> jsstring -> M jsstring.

(** [algorithmFn(processedStr, indexMapping, originalStr)], recorded. *)
Definition call (algorithmFn : AlgorithmFn) (p : jsstring) (m : list Z)
  (o : jsstring) : M jsstring :=
  fun w =>
    let '(r, w') := algorithmFn p m o w in
    (r, {| console := console w';
           invocations := invocations w' ++ [r] |}).

(** One of the three algorithms as an [AlgorithmFn]: it only touches the
    console and never throws. *)
Definition as_fn
  (alg : jsstring -> list Z -> jsstring -> Console -> jsstring * Console)
  : AlgorithmFn :=
  fun p m o w =>
    let '(r, c) := alg p m o (console w) in
    (Normal r, {| console := c; invocations := invocations w |}).

(** [for (let i = start; i < ...; i++) { ...; if (brk) break; }] *)
Fixpoint for_break {St} (count : nat) (i : Z)
  (body : Z -> St -> M (St * bool)) (st : St) : M St :=
  match count with
  | O => ret st
  | S c =>
      r <- body i st ;;
      if snd r then ret (fst r) else for_break c (i + 1) body (fst r)
  end.

(** What the runtime tells the harness during timed iteration [i]:
    [process.memoryUsage().heapUsed] before and after the call, a count of
    bytes, and [performance.now()] before and after it, in milliseconds. *)
Record Reading := {
  baselineMemory : Z;
  startTime : Num.t;
  endTime : Num.t;
  finalMemory : Z
}.

Definition MAX_EXECUTION_TIME : Z := 120000.

Definition timed_out_message : jsstring :=
  lit "Result found but took longer than 120 seconds".

Definition error_prefix : jsstring := lit "Error: ".

Record PerfResult := {
  result : jsstring;
  executionTime : Num.t;
  memoryUsage : Num.t;
  timedOut : option bool;
  memoryMeasurementIssue : option bool;
  iterations : option Z;
  allTimes : option (list Num.t);
  error : option jsstring
}.

(** [Math.max(0, x)]: [NaN] when [x] is, and [+0] for [-0]. *)
Definition Math_max0 (x : Num.t) : Num.t :=
  match x with
  | S754_nan => S754_nan
  | _ => if Num.lt Num.zero x then x else Num.zero
  end.

(** [Math.floor(x)] of a finite [x], as the integer it is. *)
Definition Math_floor (x : Num.t) : Z :=
  match x with
  | S754_finite s m e => Z.shiftl (cond_Zopp s (Zpos m)) e
  | _ => 0
  end.

(** [arr.sort((a, b) => a - b)]: [a] goes behind [b] when [a - b > 0] and
    stays before it otherwise, so samples that compare equal keep their
    order. *)
Fixpoint sort_insert (x : Num.t) (l : list Num.t) : list Num.t :=
  match l with
  | [] => [x]
  | y :: l' =>
      if Num.lt Num.zero (Num.sub x y) then y :: sort_insert x l'
      else x :: l
  end.

Definition sort (l : list Num.t) : list Num.t := fold_right sort_insert [] l.

(** [arr.slice(a, b)] for [0 <= a] and [0 <= b]. *)
Definition slice {A} (l : list A) (a b : Z) : list A :=
  firstn (Z.to_nat (Z.min b (length l)) - Z.to_nat a) (skipn (Z.to_nat a) l).

(** [arr.reduce((sum, x) => sum + x, 0) / arr.length] *)
Definition average (l : list Num.t) : Num.t :=
  Num.div (fold_left Num.add l Num.zero) (Num.of_Z (length l)).

(** The digits [x.toFixed(2)] prints for a finite [x = m * 2^e] of either
    sign: the integer nearest to [100 * m * 2^e], the larger one on a
    tie. *)
Definition hundredths (m : positive) (e : Z) : Z :=
  if 0 <=? e then 100 * Z.shiftl (Zpos m) e
  else (200 * Zpos m + 2 ^ (- e)) / 2 ^ (1 - e).

(** [m * 2^e >= 1e21], where [toFixed] prints in exponent notation. *)
Definition at_least_1e21 (m : positive) (e : Z) : bool :=
  if 0 <=? e then 10 ^ 21 <=? Z.shiftl (Zpos m) e
  else 10 ^ 21 * 2 ^ (- e) <=? Zpos m.

(** [parseFloat(x.toFixed(2))].  [toFixed] rounds the exact value of [x] to
    two decimals and [parseFloat] reads the decimal printed as the nearest
    number; from 1e21 on, and for [NaN] and the infinities, [toFixed]
    prints [x] as [String(x)] does, which reads back as [x]. *)
Definition toFixed2 (x : Num.t) : Num.t :=
  match x with
  | S754_zero _ => Num.zero
  | S754_finite s m e =>
      if at_least_1e21 m e then x
      else match hundredths m e with
           | Zpos n => Num.div (S754_finite s n 0) (Num.of_Z 100)
           | _ => S754_zero s
           end
  | _ => x
  end.

(** The literal [0.2]. *)
Definition fifth : Num.t := Num.ratio 2 10.

Definition choose_iterations (len : Z) : Z :=
  if len <? 1000 then 7
  else if len <? 5000 then 5
  else if len <? 20000 then 3
  else 1.

Record LoopState := {
  firstResult : option jsstring;      (* [None] is [null] *)
  executionTimes : list Num.t;
  memoryUsages : list Num.t
}.

(** One round of the timed loop; [timedOut] is what the variable of that
    name reads at the closing test [if (timedOut) break]. *)
Definition timed_body (algorithmFn : AlgorithmFn) (algorithmName : string)
  (p : jsstring) (m : list Z) (o : jsstring) (env : Z -> Reading)
  (iters : Z) (timedOut : bool) (i : Z) (st : LoopState)
  : M (LoopState * bool) :=
  let rd := env i in
  res <- call algorithmFn p m o ;;
  first <-
    (if i =? 0 then
       let processedResult :=
         match res with [] => [] | _ => canonicalize res end in
       _ <- (if length processedResult >? 1 then
               if negb (validatePalindrome res)
               then log (InvalidResultFrom algorithmName res processedResult)
               else log (ValidPalindromeFrom algorithmName res)
             else ret tt) ;;
       ret (Some res)
     else ret (firstResult st)) ;;
  let ms := Num.sub (endTime rd) (startTime rd) in
  let memory :=
    Math_max0
      (Num.div
         (Num.sub (Num.of_Z (finalMemory rd)) (Num.of_Z (baselineMemory rd)))
         (Num.of_Z 1024)) in
  _ <- log (IterationReport algorithmName (i + 1) iters ms memory) ;;
  ret ({| firstResult := first;
          executionTimes := executionTimes st ++ [ms];
          memoryUsages := memoryUsages st ++ [memory] |},
       timedOut).

(** The body of the [try] block.  The calls of [global.gc] and the spin
    loops change nothing the function returns and are left out.

    The timer: [setTimeout] queues a callback that would set [timedOut],
    and [clearTimeout] removes it after the loop.  A queued callback runs
    only once the running code has returned to the event loop; from the
    arming of the timer to [clearTimeout] the body makes synchronous calls
    only, so the callback never runs and every test of [timedOut] reads
    the value the variable was declared with. *)
Definition measure_body (algorithmFn : AlgorithmFn) (algorithmName : string)
  (p : jsstring) (m : list Z) (o : jsstring) (env : Z -> Reading)
  : M PerfResult :=
  match p with
  | [] => ret {| result := []; executionTime := Num.zero;
                 memoryUsage := Num.zero;
                 timedOut := None; memoryMeasurementIssue := None;
                 iterations := None; allTimes := None; error := None |}
  | _ =>
      let iters := choose_iterations (length p) in
      let timedOut := false in
      _ <- log (WarmingUp algorithmName) ;;
      _ <- for_break 2 0
             (fun _ (u : unit) =>
                _ <- call algorithmFn p m o ;; ret (u, false)) tt ;;
      _ <- log (StartingMeasurements algorithmName iters) ;;
      st <- for_break (Z.to_nat iters) 0
              (timed_body algorithmFn algorithmName p m o env iters timedOut)
              {| firstResult := None; executionTimes := [];
                 memoryUsages := [] |} ;;
      if timedOut then
        ret {| result := timed_out_message;
               executionTime := Num.of_Z MAX_EXECUTION_TIME;
               memoryUsage := Num.zero;
               timedOut := Some true; memoryMeasurementIssue := None;
               iterations := None; allTimes := None; error := None |}
      else
        let times := sort (executionTimes st) in
        let mems := sort (memoryUsages st) in
        let cutoff :=
          Math_floor (Num.mul (Num.of_Z (length times)) fifth) in
        let trim := length times >=? 5 in
        let times :=
          if trim then slice times cutoff (length times - cutoff)
          else times in
        let mems :=
          if trim then slice mems cutoff (length mems - cutoff) else mems in
        let avgExecutionTime := average times in
        let avgMemoryUsage := average mems in
        let issue := Num.le avgMemoryUsage Num.zero in
        _ <- log (Complete algorithmName avgExecutionTime (length times)
                    avgMemoryUsage) ;;
        ret {| result := match firstResult st with
                         | Some r => r
                         | None => []
                         end;
               executionTime := toFixed2 avgExecutionTime;
               memoryUsage := toFixed2 avgMemoryUsage;
               timedOut := None;
               memoryMeasurementIssue := Some issue;
               iterations := Some (length times);
               allTimes := Some times; error := None |}
  end.

(** The [try { ... } catch (error) { ... }] around the whole body. *)
Definition measurePerformance (algorithmFn : AlgorithmFn)
  (algorithmName : string) (p : jsstring) (m : list Z) (o : jsstring)
  (env : Z -> Reading) (w : World) : PerfResult * World :=
  match measure_body algorithmFn algorithmName p m o env w with
  | (Normal r, w') => (r, w')
  | (Throw message, w') =>
      ({| result := error_prefix ++ message; executionTime := Num.zero;
          memoryUsage := Num.zero; timedOut := None;
          memoryMeasurementIssue := None; iterations := None;
          allTimes := None; error := Some message |},
       {| console := console w' ++ [PerformanceMeasurementError message];
          invocations := invocations w' |})
  end.

(** ** The comparison run of the two routes *)

Record Algorithm := { name : string; fn : AlgorithmFn }.

Definition algorithms : list Algorithm :=
  [ {| name := "naive"; fn := as_fn naiveLPS |};
    {| name := "dp"; fn := as_fn dpLPS |};
    {| name := "manacher"; fn := as_fn manacherLPS |} ].

(** [otherAlgorithms] has two elements, so the shuffle loop runs once, with
    [i = 1] and [j = Math.floor(Math.random() * 2)]; [random] is the value
    [Math.random()] returned.  Doubling a number below 1 is exact, so the
    number is taken as the rational it is. *)
Definition shuffle (random : Q) (others : list Algorithm) : list Algorithm :=
  match others with
  | [a; b] => if Qfloor (random * 2) =? 0 then [b; a] else [a; b]
  | _ => others
  end.

Definition algorithmExecutionOrder (random : Q) : list Algorithm :=
  let manacherAlgorithm :=
    find (fun a => String.eqb (name a) "manacher") algorithms in
  let otherAlgorithms :=
    filter (fun a => negb (String.eqb (name a) "manacher")) algorithms in
  match manacherAlgorithm with
  | Some a => a :: shuffle random otherAlgorithms
  | None => shuffle random otherAlgorithms   (* not reached *)
  end.

Record Entry := {
  lps : jsstring;
  entry_executionTime : Num.t;
  entry_memoryUsage : Num.t;
  entry_timedOut : bool;
  entry_memoryMeasurementIssue : bool;
  entry_iterations : option Z;
  entry_allTimes : option (list Num.t)
}.

(** [x || false] for a flag that may be absent. *)
Definition or_false (x : option bool) : bool :=
  match x with Some b => b | None => false end.

Definition entry_of (r : PerfResult) : Entry :=
  {| lps := result r;
     entry_executionTime := executionTime r;
     entry_memoryUsage := memoryUsage r;
     entry_timedOut := or_false (timedOut r);
     entry_memoryMeasurementIssue := or_false (memoryMeasurementIssue r);
     entry_iterations := iterations r;
     entry_allTimes := allTimes r |}.

(** [obj[key] = v] on an object kept in insertion order. *)
Fixpoint obj_set {V} (obj : list (string * V)) (key : string) (v : V)
  : list (string * V) :=
  match obj with
  | [] => [(key, v)]
  | (k, x) :: rest =>
      if String.eqb k key then (k, v) :: rest
      else (k, x) :: obj_set rest key v
  end.

(** [runSequentially]: the [k]-th measurement reads the runtime through
    [envs k]. *)
Fixpoint runSequentially (order : list Algorithm) (k : nat)
  (p : jsstring) (m : list Z) (o : jsstring) (envs : nat -> Z -> Reading)
  (results : list (string * Entry)) (w : World)
  : list (string * Entry) * World :=
  match order with
  | [] => (results, w)
  | a :: rest =>
      let '(r, w') := measurePerformance (fn a) (name a) p m o (envs k) w in
      runSequentially rest (S k) p m o envs
        (obj_set results (name a) (entry_of r)) w'
  end.

(** The body of both routes once the input text is known; [None] is the
    400 answer to a missing input. *)
Definition runAlgorithms (inputString : jsstring) (random : Q)
  (envs : nat -> Z -> Reading) (w : World)
  : option (list (string * Entry) * World) :=
  match inputString with
  | [] => None
  | _ =>
      let d := preprocessString inputString in
      Some (runSequentially (algorithmExecutionOrder random) 0
              (processedStr d) (indexMapping d) inputString envs [] w)
  end.

(** ** Notions the properties are stated with *)

(** The algorithm behind each tag, and its value on a triple. *)
Definition alg_of (t : AlgTag)
  : jsstring -> list Z -> jsstring -> Console -> jsstring * Console :=
  match t with
  | Naive => naiveLPS
  | DP => dpLPS
  | Manacher => manacherLPS
  end.

Definition lps_value (t : AlgTag) (p : jsstring) (m : list Z) (o : jsstring)
  : jsstring :=
  fst (alg_of t p m o []).

(** [sub] occurs in [s] at offset [at_]. *)
Definition occurs_at (s sub : jsstring) (at_ : Z) : Prop :=
  exists pre post, s = pre ++ sub ++ post /\ length pre = at_.

Definition palindrome (l : jsstring) : Prop := rev l = l.

(** [L] is the length of a longest palindromic substring of [s]. *)
Definition lps_length (s : jsstring) (L : Z) : Prop :=
  (exists sub at_, occurs_at s sub at_ /\ palindrome sub /\ length sub = L)
  /\ forall sub at_, occurs_at s sub at_ -> palindrome sub -> length sub <= L.

(** [sub] is the leftmost among the longest palindromic substrings of [s]. *)
Definition leftmost_longest (s sub : jsstring) : Prop :=
  exists at_, occurs_at s sub at_ /\ palindrome sub /\
    forall sub' at', occurs_at s sub' at' -> palindrome sub' ->
      length sub' <= length sub /\ (length sub' = length sub -> at_ <= at').

(** All code units of [l] are the same. *)
Definition all_identical (l : jsstring) : Prop :=
  exists c, forall x, In x l -> x = c.

(** The retention rule in the specification's words, "ASCII or Unicode
    alphanumeric", on the code units below 256: the letters (general
    category L) and decimal digits (Nd) of the Basic Latin and Latin-1
    Supplement blocks. *)
Definition spec_alphanumeric_latin1 (c : Z) : bool :=
  is_alnum c || (c =? 170) || (c =? 181) || (c =? 186)
  || ((192 <=? c) && (c <=? 214)) || ((216 <=? c) && (c <=? 246))
  || ((248 <=? c) && (c <=? 255)).

(** The round numbers [i, i+1, ..., i+count-1]. *)
Fixpoint range (i : Z) (count : nat) : list Z :=
  match count with
  | O => []
  | S c => i :: range (i + 1) c
  end.

(** The duration and the raw and recorded heap growth of round [i]. *)
Definition duration_of (env : Z -> Reading) (i : Z) : Num.t :=
  Num.sub (endTime (env i)) (startTime (env i)).

Definition raw_delta_kb (env : Z -> Reading) (i : Z) : Num.t :=
  Num.div
    (Num.sub (Num.of_Z (finalMemory (env i)))
       (Num.of_Z (baselineMemory (env i))))
    (Num.of_Z 1024).

Definition recorded_kb (env : Z -> Reading) (i : Z) : Num.t :=
  Math_max0 (raw_delta_kb env i).

(** [x] is not below zero. *)
Definition not_negative (x : Num.t) : Prop := Num.lt x Num.zero = false.

(** [x] is [NaN] or carries the sign bit [s]. *)
Definition signed (s : bool) (x : Num.t) : Prop :=
  match x with
  | S754_nan => True
  | S754_zero s' | S754_infinity s' | S754_finite s' _ _ => s' = s
  end.

(** The comparator [(a, b) => a - b] does not ask for [a] behind [b]. *)
Definition in_order (a b : Num.t) : Prop :=
  Num.lt Num.zero (Num.sub a b) = false.

(** [x] is a number: not [NaN], and in the canonical form every double
    has. *)
Definition is_number (x : Num.t) : Prop :=
  x <> S754_nan /\ valid_binary Num.prec Num.emax x = true.

(** [l] ascends: every sample is at most those behind it. *)
Definition ascending (l : list Num.t) : Prop :=
  StronglySorted (fun a b => Num.le a b = true) l.

(** [kept] is what remains of the samples [xs] once [sort] has put them in
    the order of its comparator and the first [k] and the last [k] are
    removed; the sorted samples ascend when all of them are numbers, so
    the samples removed are then the [k] lowest and the [k] highest. *)
Definition trimmed (xs kept : list Num.t) (k : Z) : Prop :=
  exists lo hi,
    Permutation (lo ++ kept ++ hi) xs /\
    Sorted in_order (lo ++ kept ++ hi) /\
    (Forall is_number xs -> ascending (lo ++ kept ++ hi)) /\
    length lo = k /\ length hi = k.

(** The samples dropped at each end: a fifth of them, rounded down, once
    there are at least five. *)
Definition dropped_each_end (count : Z) : Z :=
  if count >=? 5 then count / 5 else 0.

(** The samples the harness averages: sorted, and trimmed when there are
    five or more. *)
Definition kept_samples (xs : list Num.t) : list Num.t :=
  let sorted := sort xs in
  let cutoff := Math_floor (Num.mul (Num.of_Z (length sorted)) fifth) in
  if length sorted >=? 5
  then slice sorted cutoff (length sorted - cutoff) else sorted.

(** The record returned by a run of [rounds] timed rounds of an algorithm
    whose value is [v]. *)
Definition normal_result (v : jsstring) (env : Z -> Reading) (rounds : nat)
  : PerfResult :=
  let times := kept_samples (List.map (duration_of env) (range 0 rounds)) in
  let mems := kept_samples (List.map (recorded_kb env) (range 0 rounds)) in
  {| result := v;
     executionTime := toFixed2 (average times);
     memoryUsage := toFixed2 (average mems);
     timedOut := None;
     memoryMeasurementIssue := Some (Num.le (average mems) Num.zero);
     iterations := Some (length times);
     allTimes := Some times; error := None |}.

Definition empty_world : World := {| console := []; invocations := [] |}.

(** The record returned for an empty canonical string. *)
Definition empty_result : PerfResult :=
  {| result := []; executionTime := Num.zero; memoryUsage := Num.zero;
     timedOut := None; memoryMeasurementIssue := None;
     iterations := None; allTimes := None; error := None |}.

(** The entry an algorithm gets when it is measured alone, from an empty
    console, on the raw text [raw] with the readings [env]. *)
Definition isolated (t : AlgTag) (algorithmName : string) (raw : jsstring)
  (env : Z -> Reading) : Entry :=
  let d := preprocessString raw in
  entry_of (fst (measurePerformance (as_fn (alg_of t)) algorithmName
                   (processedStr d) (indexMapping d) raw env empty_world)).


(** ** Sample runs *)

(** Every round takes one millisecond and grows the heap by 2048 bytes. *)
Definition steady_env : Z -> Reading :=
  fun _ => {| baselineMemory := 4096; startTime := Num.of_Z 0;
              endTime := Num.of_Z 1; finalMemory := 6144 |}.

(** Every round ends with 1024 bytes less on the heap than it began. *)
Definition shrinking_heap_env : Z -> Reading :=
  fun _ => {| baselineMemory := 2048; startTime := Num.of_Z 0;
              endTime := Num.of_Z 1; finalMemory := 1024 |}.

(** Every round takes 130 seconds. *)
Definition slow_env : Z -> Reading :=
  fun _ => {| baselineMemory := 0; startTime := Num.of_Z 0;
              endTime := Num.of_Z 130000; finalMemory := 0 |}.

(** The seven rounds take 5, 3, 9, 1, 7, 2 and 8 milliseconds and grow the
    heap by 0, 76, 77, 77, 77, 77 and 5000 bytes. *)
Definition uneven_env : Z -> Reading :=
  fun i => {| baselineMemory := 0; startTime := Num.of_Z 0;
              endTime :=
                Num.of_Z (nth (Z.to_nat i) [5; 3; 9; 1; 7; 2; 8] 0);
              finalMemory := nth (Z.to_nat i) [0; 76; 77; 77; 77; 77; 5000] 0
           |}.

(** ** Notions used in the proofs *)

(** The code units at indices [a..c] of [s] read the same both ways. *)
Definition isPal (s : jsstring) (a c : Z) : Prop :=
  0 <= a /\ a <= c /\ c < length s /\
  forall k, a <= k <= c -> get s k = get s (a + c - k).

(** The best span, once one is recorded, is a palindrome of [s] of the
    recorded length. *)
Definition good (s : jsstring) (b : Best) : Prop :=
  0 <= maxLength b /\
  (1 <= maxLength b -> isPal s (maxStart b) (maxStart b + maxLength b - 1)).

(** The invariant of the scans.  [done σ] tells which centres, named by
    the sum [σ = a + c] of the end indices of their palindromes, have been
    expanded: [b] is a palindrome at least as long as every palindrome of
    a centre already expanded, it starts first among those of its own
    length, and the centres still to come of the parity of its own centre
    lie to its right. *)
Record scan_inv (s : jsstring) (done : Z -> Prop) (b : Best) : Prop := {
  inv_good : good s b;
  inv_max : forall a c, isPal s a c -> done (a + c) ->
      c - a + 1 <= maxLength b /\
      (c - a + 1 = maxLength b -> maxStart b <= a);
  inv_order : forall a c, isPal s a c -> ~ done (a + c) ->
      c - a + 1 = maxLength b -> maxStart b <= a
}.

(** [b] is the leftmost of the longest palindromic spans of [s]. *)
Definition best_of (s : jsstring) (b : Best) : Prop :=
  1 <= maxLength b /\
  isPal s (maxStart b) (maxStart b + maxLength b - 1) /\
  forall a c, isPal s a c ->
    c - a + 1 <= maxLength b /\ (c - a + 1 = maxLength b -> maxStart b <= a).

(** The offsets of the code units of [s] kept by [is_alnum], counted from
    [off]. *)
Fixpoint positions (s : jsstring) (off : Z) : list Z :=
  match s with
  | [] => []
  | c :: s' =>
      if is_alnum c then off :: positions s' (off + 1)
      else positions s' (off + 1)
  end.

(** The numbers of samples a measurement can collect. *)
Definition sample_count (n : Z) : Prop := n = 7 \/ n = 5 \/ n = 3 \/ n = 1.

(** [x] is a number above or below zero, of sign [s]. *)
Definition nonzero_signed (s : bool) (x : Num.t) : Prop :=
  match x with
  | S754_finite s' _ _ | S754_infinity s' => s' = s
  | _ => False
  end.

(** [x] is zero, a finite number above zero, or [+Infinity]. *)
Definition positive_or_zero (x : Num.t) : Prop :=
  match x with
  | S754_nan => False
  | S754_zero s | S754_infinity s | S754_finite s _ _ => s = false
  end.

(** [x] is neither [NaN] nor an infinity. *)
Definition finite (x : Num.t) : Prop :=
  match x with
  | S754_zero _ | S754_finite _ _ _ => True
  | _ => False
  end.

(** ** The answers of the two routes *)

Module Api.

Record FinalResult := {
  algorithm : string;
  result : jsstring;
  executionTime : Num.t;
  memoryUsed : Num.t;
  iterations : Z
}.

Record Body := {
  fullLength : Z;
  maxPalindromeLength : Z;
  results : list FinalResult;
  algorithmOrder : list string;
  input : jsstring
}.

(** [res.json(body)], or [res.status(status).json({ error })]. *)
Inductive Response :=
| Json (body : Body)
| Failure (status : Z) (error : string).

End Api.

(** [data.lps || ''] *)
Definition or_empty (x : jsstring) : jsstring :=
  match x with [] => [] | _ => x end.

(** [data.iterations || 1] *)
Definition or_one (x : option Z) : Z :=
  match x with
  | Some 0 => 1
  | Some n => n
  | None => 1
  end.

(** One element of [finalResults], from an entry [[algoName, data]] of
    [Object.entries(results)]. *)
Definition finalResult (kv : string * Entry) : Api.FinalResult :=
  let '(algoName, data) := kv in
  {| Api.algorithm := algoName;
     Api.result := or_empty (lps data);
     Api.executionTime := entry_executionTime data;
     Api.memoryUsed := Num.mul (entry_memoryUsage data) (Num.of_Z 1024);
     Api.iterations := or_one (entry_iterations data) |}.

(** [Math.max(...xs, 0)] *)
Definition Math_max_and_0 (xs : list Z) : Z := fold_right Z.max 0 xs.

(** The object handed to [res.json] once the sequential run has resolved.
    The keys of [results] are not integer-like, so [Object.entries] lists
    them in insertion order. *)
Definition response_body (text : jsstring) (order : list Algorithm)
  (results : list (string * Entry)) : Api.Body :=
  let finalResults := List.map finalResult results in
  {| Api.fullLength := length text;
     Api.maxPalindromeLength :=
       Math_max_and_0
         (List.map (fun r => length (Api.result r)) finalResults);
     Api.results := finalResults;
     Api.algorithmOrder := List.map name order;
     Api.input :=
       if length text >? 100 then substring text (Some 0) (Some 100)
       else text |}.

(** The handler of [POST /runAlgorithms] for a request whose
    [inputString] is a string, from that string on.  The console lines of
    the handlers themselves are left out. *)
Definition post_runAlgorithms (inputString : jsstring) (random : Q)
  (envs : nat -> Z -> Reading) (w : World) : Api.Response * World :=
  match runAlgorithms inputString random envs w with
  | None => (Api.Failure 400 "Input string is required", w)
  | Some (results, w') =>
      (Api.Json
         (response_body inputString (algorithmExecutionOrder random)
            results), w')
  end.

(** The handler of [POST /upload], from the point where the content of the
    uploaded file has been read into [fileContent].  Of the 413 answer the
    status and the [error] text are kept, its [suggestion] text is not. *)
Definition post_upload (fileContent : jsstring) (random : Q)
  (envs : nat -> Z -> Reading) (w : World) : Api.Response * World :=
  if length fileContent >? 500000
  then (Api.Failure 413
          "File too large to process efficiently (max 500KB)", w)
  else
    let d := preprocessString fileContent in
    let '(results, w') :=
      runSequentially (algorithmExecutionOrder random) 0
        (processedStr d) (indexMapping d) fileContent envs [] w in
    (Api.Json
       (response_body fileContent (algorithmExecutionOrder random)
          results), w').

(** The three entries of a comparison of [raw] in which each algorithm is
    measured alone with the readings of its turn. *)
Definition isolated_entries (raw : jsstring) (random : Q)
  (envs : nat -> Z -> Reading) : list (string * Entry) :=
  if Qfloor (random * 2) =? 0
  then [("manacher"%string, isolated Manacher "manacher" raw (envs 0%nat));
        ("dp"%string, isolated DP "dp" raw (envs 1%nat));
        ("naive"%string, isolated Naive "naive" raw (envs 2%nat))]
  else [("manacher"%string, isolated Manacher "manacher" raw (envs 0%nat));
        ("naive"%string, isolated Naive "naive" raw (envs 1%nat));
        ("dp"%string, isolated DP "dp" raw (envs 2%nat))].

(** What the routes report for an algorithm whose measurement returned
    the record for an empty canonical string. *)
Definition empty_final (r : Api.FinalResult) : Prop :=
  Api.result r = [] /\ Api.executionTime r = Num.zero /\
  Api.memoryUsed r = Num.zero /\ Api.iterations r = 1.

(** * Properties *)

(** ** Strings, indices and loops *)

Lemma length_nonneg {A} (s : list A) : 0 <= length s.
Proof. unfold length. lia. Qed.

Lemma length_app {A} (l l' : list A) : length (l ++ l') = length l + length l'.
Proof. unfold length. rewrite List.length_app. lia. Qed.

Lemma length_nil_inv {A} (s : list A) : length s = 0 -> s = [].
Proof. destruct s; [reflexivity | unfold length; simpl; lia]. Qed.

Lemma get_nth {A} (s : list A) i :
  0 <= i -> get s i = nth_error s (Z.to_nat i).
Proof. intros H. unfold get. destruct (Z.ltb_spec i 0); [lia | reflexivity]. Qed.

Lemma get_Some_range {A} (s : list A) i x :
  get s i = Some x -> 0 <= i < length s.
Proof.
  unfold get, length. destruct (Z.ltb_spec i 0); [discriminate |].
  intros E. assert (nth_error s (Z.to_nat i) <> None) as N by congruence.
  apply nth_error_Some in N. lia.
Qed.

Lemma get_in_range {A} (s : list A) i :
  0 <= i < length s -> exists x, get s i = Some x.
Proof.
  intros [H0 H1]. rewrite get_nth by lia.
  destruct (nth_error s (Z.to_nat i)) eqn:E; [eauto |].
  apply nth_error_None in E. unfold length in H1. lia.
Qed.

Lemma get_In {A} (s : list A) i x : get s i = Some x -> In x s.
Proof.
  unfold get. destruct (i <? 0); [discriminate | apply nth_error_In].
Qed.

Lemma strict_eq_iff x y : strict_eq x y = true <-> x = y.
Proof.
  destruct x, y; simpl; try (split; congruence).
  rewrite Z.eqb_eq. split; congruence.
Qed.

Lemma list_ext_get {A} (l l' : list A) :
  length l = length l' ->
  (forall i, 0 <= i < length l -> get l i = get l' i) -> l = l'.
Proof.
  intros HL H. apply nth_error_ext. intros n.
  destruct (Nat.lt_ge_cases n (List.length l)) as [Hn | Hn].
  - specialize (H (Z.of_nat n)). unfold length in H.
    rewrite !get_nth, Nat2Z.id in H by lia. apply H. lia.
  - transitivity (@None A); [| symmetry]; apply nth_error_None;
      unfold length in HL; lia.
Qed.

Lemma get_rev {A} (l : list A) i :
  0 <= i < length l -> get (rev l) i = get l (length l - 1 - i).
Proof.
  intros H. unfold length in *. rewrite !get_nth by lia.
  rewrite nth_error_rev.
  destruct (Nat.ltb_spec (Z.to_nat i) (List.length l)); [| lia].
  f_equal. lia.
Qed.

Lemma palindrome_iff (l : jsstring) :
  palindrome l <->
  forall i, 0 <= i < length l -> get l i = get l (length l - 1 - i).
Proof.
  unfold palindrome. split.
  - intros E i Hi. rewrite <- E at 1. apply get_rev. exact Hi.
  - intros H. apply list_ext_get.
    + unfold length. now rewrite List.length_rev.
    + intros i Hi. assert (length (rev l) = length l) as E
        by (unfold length; now rewrite List.length_rev).
      rewrite get_rev by lia. symmetry. apply H. lia.
Qed.

Lemma get_app_mid {A} (pre sub post : list A) k :
  0 <= k < length sub ->
  get (pre ++ sub ++ post) (length pre + k) = get sub k.
Proof.
  intros H. unfold length in *. rewrite !get_nth by lia.
  rewrite nth_error_app2 by lia.
  replace (Z.to_nat (Z.of_nat (List.length pre) + k) - List.length pre)%nat
    with (Z.to_nat k) by lia.
  apply nth_error_app1. lia.
Qed.

Lemma substring_in_range {A} (s : list A) a b :
  0 <= a <= b -> b <= length s ->
  substring s (Some a) (Some b)
  = firstn (Z.to_nat (b - a)) (skipn (Z.to_nat a) s).
Proof.
  intros H1 H2. unfold substring, clamp, toInteger.
  replace (Z.min (Z.max a 0) (length s)) with a by lia.
  replace (Z.min (Z.max b 0) (length s)) with b by lia.
  replace (Z.min a b) with a by lia. replace (Z.max a b) with b by lia.
  reflexivity.
Qed.

Lemma substring_split {A} (s : list A) a b :
  0 <= a <= b -> b <= length s ->
  s = firstn (Z.to_nat a) s ++ substring s (Some a) (Some b)
      ++ skipn (Z.to_nat (b - a)) (skipn (Z.to_nat a) s).
Proof.
  intros H1 H2. rewrite substring_in_range by assumption.
  now rewrite !firstn_skipn.
Qed.

Lemma length_firstn_le {A} (s : list A) a :
  0 <= a <= length s -> length (firstn (Z.to_nat a) s) = a.
Proof.
  intros H. unfold length in *. rewrite List.length_firstn. lia.
Qed.

Lemma length_substring {A} (s : list A) a b :
  0 <= a <= b -> b <= length s ->
  length (substring s (Some a) (Some b)) = b - a.
Proof.
  intros H1 H2. rewrite substring_in_range by assumption.
  unfold length in *. rewrite List.length_firstn, List.length_skipn. lia.
Qed.

Lemma get_substring {A} (s : list A) a b k :
  0 <= a <= b -> b <= length s -> 0 <= k < b - a ->
  get (substring s (Some a) (Some b)) k = get s (a + k).
Proof.
  intros H1 H2 H3. rewrite substring_in_range by assumption.
  rewrite !get_nth by lia. rewrite nth_error_firstn, nth_error_skipn.
  destruct (Nat.ltb_spec (Z.to_nat k) (Z.to_nat (b - a))); [| lia].
  f_equal. lia.
Qed.

Lemma occurs_at_substring (s : jsstring) a b :
  0 <= a <= b -> b <= length s ->
  occurs_at s (substring s (Some a) (Some b)) a.
Proof.
  intros H1 H2. eexists _, _. split.
  - apply (substring_split s H1 H2).
  - apply length_firstn_le. lia.
Qed.

Lemma for_range_ind {St} (P : Z -> St -> Prop) (body : Z -> St -> St) :
  forall count i st,
    P i st ->
    (forall j x, i <= j < i + Z.of_nat count -> P j x -> P (j + 1) (body j x)) ->
    P (i + Z.of_nat count) (for_range count i body st).
Proof.
  induction count as [| c IH]; intros i st H0 Hstep.
  - simpl. now rewrite Z.add_0_r.
  - cbn [for_range].
    replace (i + Z.of_nat (S c)) with ((i + 1) + Z.of_nat c) by lia.
    apply IH.
    + apply Hstep; [lia | exact H0].
    + intros j x Hj. apply Hstep. lia.
Qed.

(** ** The expansion loop *)

Lemma isPal_single s i : 0 <= i < length s -> isPal s i i.
Proof.
  intros H. repeat split; try lia. intros k Hk. f_equal. lia.
Qed.

Lemma isPal_mirror s a c k :
  isPal s a c -> a <= k <= c -> get s k = get s (a + c - k).
Proof. intros (_ & _ & _ & H). apply H. Qed.

(** More fuel than [left + 1] changes nothing: the loop has exited. *)
Lemma expand_while_fuel s n : forall fuel extra left right b,
  left + 1 <= Z.of_nat fuel ->
  expand_while (fuel + extra) s n left right b
  = expand_while fuel s n left right b.
Proof.
  induction fuel as [| f IH]; intros extra left right b H.
  - simpl. destruct extra; [reflexivity |]. simpl.
    destruct (Z.geb_spec left 0); [lia | reflexivity].
  - simpl.
    destruct ((left >=? 0) && (right <? n)
              && strict_eq (get s left) (get s right)); [| reflexivity].
    apply IH. lia.
Qed.

Lemma expand_while_spec s : forall fuel left right b,
  left + 1 <= Z.of_nat fuel -> -1 <= left -> left <= right ->
  right <= length s ->
  (forall k, left < k < right -> get s k = get s (left + right - k)) ->
  good s b ->
  let b' := expand_while fuel s (length s) left right b in
  good s b' /\
  (forall a c, isPal s a c -> a + c = left + right -> a <= left ->
     c - a + 1 <= maxLength b') /\
  (b' = b \/
   (maxLength b < maxLength b' /\
    2 * maxStart b' + maxLength b' - 1 = left + right)).
Proof.
  induction fuel as [| f IH]; intros left right b Hf Hl Hlr Hr Hin Hg.
  - simpl. split; [exact Hg |]. split; [| now left].
    intros a c (Ha & _) _ Hal. lia.
  - cbn [expand_while].
    destruct ((left >=? 0) && (right <? length s)
              && strict_eq (get s left) (get s right)) eqn:Hc.
    + apply andb_prop in Hc. destruct Hc as [Hc Heq].
      apply andb_prop in Hc. destruct Hc as [Hc1 Hc2].
      apply Z.geb_le in Hc1. apply Z.ltb_lt in Hc2.
      apply strict_eq_iff in Heq.
      assert (isPal s left right) as Hp.
      { repeat split; try lia. intros k Hk.
        destruct (Z.eq_dec k left) as [-> | ?].
        - rewrite Heq. f_equal. lia.
        - destruct (Z.eq_dec k right) as [-> | ?].
          + rewrite <- Heq. f_equal. lia.
          + apply Hin. lia. }
      set (b1 := if right - left + 1 >? maxLength b
                 then {| maxLength := right - left + 1; maxStart := left |}
                 else b).
      assert (good s b1) as Hg1.
      { unfold b1. destruct (Z.gtb_spec (right - left + 1) (maxLength b)).
        - split; cbn [maxLength maxStart]; [lia |]. intros _.
          replace (left + (right - left + 1) - 1) with right by lia.
          exact Hp.
        - exact Hg. }
      assert (right - left + 1 <= maxLength b1) as Hlen1.
      { unfold b1. destruct (Z.gtb_spec (right - left + 1) (maxLength b));
          cbn [maxLength maxStart]; lia. }
      assert (b1 = b \/
              (maxLength b < maxLength b1 /\
               2 * maxStart b1 + maxLength b1 - 1 = left + right)) as Hch1.
      { unfold b1. destruct (Z.gtb_spec (right - left + 1) (maxLength b));
          [right; cbn [maxLength maxStart]; lia | now left]. }
      destruct (IH (left - 1) (right + 1) b1) as (G & Hmax & Hch);
        try lia; try assumption.
      { intros k Hk. replace (left - 1 + (right + 1)) with (left + right)
          by lia. apply (isPal_mirror Hp). lia. }
      split; [exact G |]. split.
      * intros a c Hpal Hsum Hal.
        destruct (Z.eq_dec a left) as [-> | Hne].
        -- assert (c = right) as -> by lia.
           destruct Hch as [-> | [? _]]; lia.
        -- apply Hmax; [exact Hpal | lia | lia].
      * destruct Hch as [-> | [Hlt Hc]]; [exact Hch1 |].
        right. destruct Hch1 as [-> | [? _]]; lia.
    + split; [exact Hg |]. split; [| now left].
      intros a c Hpal Hsum Hal. exfalso.
      assert (left >= 0) by (destruct Hpal; lia).
      assert (right < length s) by (destruct Hpal as (?&?&?&?); lia).
      assert (get s left = get s right) as E.
      { replace right with (a + c - left) by lia.
        apply (isPal_mirror Hpal). lia. }
      apply strict_eq_iff in E.
      destruct (Z.geb_spec left 0); [| lia].
      destruct (Z.ltb_spec right (length s)); [| lia].
      simpl in Hc. congruence.
Qed.

Lemma expandAroundCenter_spec s left right b :
  -1 <= left -> left <= right -> right <= length s ->
  (forall k, left < k < right -> get s k = get s (left + right - k)) ->
  good s b ->
  let b' := expandAroundCenter s (length s) left right b in
  good s b' /\
  (forall a c, isPal s a c -> a + c = left + right -> a <= left ->
     c - a + 1 <= maxLength b') /\
  (b' = b \/
   (maxLength b < maxLength b' /\
    2 * maxStart b' + maxLength b' - 1 = left + right)).
Proof.
  intros. apply expand_while_spec; try assumption. lia.
Qed.

(** ** The invariant of the scans *)

Lemma scan_inv_ext s (done done' : Z -> Prop) b :
  (forall a c, isPal s a c -> (done (a + c) <-> done' (a + c))) ->
  scan_inv s done b -> scan_inv s done' b.
Proof.
  intros E [G Hm Ho]. split; [exact G | |].
  - intros a c Hp Hd. apply Hm; [exact Hp | now apply E].
  - intros a c Hp Hd. apply Ho; [exact Hp |].
    intros D. apply Hd. now apply E.
Qed.

(** One centre more: [b'] is the best after the centre [sigma] has been
    expanded from the best [b] before. *)
Lemma scan_step s (done : Z -> Prop) b sigma b' :
  scan_inv s done b ->
  ~ done sigma ->
  good s b' ->
  (forall a c, isPal s a c -> a + c = sigma -> c - a + 1 <= maxLength b') ->
  (b' = b \/
   (maxLength b < maxLength b' /\
    2 * maxStart b' + maxLength b' - 1 = sigma)) ->
  (forall a c d, isPal s a c -> ~ done (a + c) ->
     a + c = sigma + 2 * d -> 0 <= d) ->
  scan_inv s (fun x => done x \/ x = sigma) b'.
Proof.
  intros [G Hm Ho] Hnd G' Hmax Hch Hord.
  destruct Hch as [-> | [Hlt Hc]].
  - split; [exact G | |].
    + intros a c Hp [Hd | He].
      * now apply Hm.
      * split; [now apply Hmax |]. apply Ho; [exact Hp | congruence].
    + intros a c Hp Hd. apply Ho; [exact Hp | tauto].
  - split; [exact G' | |].
    + intros a c Hp [Hd | He].
      * destruct (Hm a c Hp Hd). lia.
      * specialize (Hmax a c Hp He). lia.
    + intros a c Hp Hd Hlen.
      assert (0 <= a - maxStart b'); [| lia].
      apply (Hord a c); [exact Hp | tauto | lia].
Qed.

(** What the invariant gives once every centre has been expanded. *)
Lemma scan_final s (done : Z -> Prop) b :
  scan_inv s done b ->
  (forall a c, isPal s a c -> done (a + c)) ->
  1 <= length s ->
  1 <= maxLength b /\
  isPal s (maxStart b) (maxStart b + maxLength b - 1) /\
  forall a c, isPal s a c ->
    c - a + 1 <= maxLength b /\ (c - a + 1 = maxLength b -> maxStart b <= a).
Proof.
  intros [G Hm Ho] Hall Hn.
  assert (isPal s 0 0) as H0 by (apply isPal_single; lia).
  assert (1 <= maxLength b) as H1.
  { destruct (Hm 0 0 H0 (Hall _ _ H0)). lia. }
  split; [exact H1 |]. split; [now apply G |].
  intros a c Hp. apply Hm; [exact Hp | now apply Hall].
Qed.

Lemma isPal_bounds s a c : isPal s a c -> 0 <= a /\ a <= c /\ c < length s.
Proof. intros (? & ? & ? & _). lia. Qed.

(** Linear arithmetic with the parity tests [x mod 2] of the two passes
    of [manacherLPS]. *)
Ltac parity :=
  intros; try tauto;
  repeat match goal with
         | H : isPal _ _ _ |- _ => apply isPal_bounds in H
         end;
  Z.to_euclidean_division_equations; lia.

Lemma scan_step_to s (done done' : Z -> Prop) b sigma b' :
  scan_inv s done b ->
  ~ done sigma ->
  (forall x, done' x <-> done x \/ x = sigma) ->
  good s b' ->
  (forall a c, isPal s a c -> a + c = sigma -> c - a + 1 <= maxLength b') ->
  (b' = b \/
   (maxLength b < maxLength b' /\
    2 * maxStart b' + maxLength b' - 1 = sigma)) ->
  (forall a c d, isPal s a c -> ~ done (a + c) ->
     a + c = sigma + 2 * d -> 0 <= d) ->
  scan_inv s done' b'.
Proof.
  intros Hi Hnd E G Hmax Hch Hord.
  apply scan_inv_ext with (done := fun x => done x \/ x = sigma).
  - intros a c _. symmetry. apply E.
  - now apply scan_step with (b := b).
Qed.

(** Expanding the odd centre [j] and then the even centre between [j] and
    [j + 1], as every round of [naiveLPS] and [dpLPS] does. *)
Lemma odd_then_even_step s j b :
  0 <= j < length s ->
  scan_inv s (fun x => x < 2 * j) b ->
  scan_inv s (fun x => x < 2 * (j + 1))
    (expandAroundCenter s (length s) j (j + 1)
       (expandAroundCenter s (length s) j j b)).
Proof.
  intros Hj Hi.
  destruct (@expandAroundCenter_spec s j j b ltac:(lia) ltac:(lia)
              ltac:(lia) ltac:(intros; lia) (inv_good Hi)) as (G1 & M1 & C1).
  set (b1 := expandAroundCenter s (length s) j j b) in *.
  assert (scan_inv s (fun x => x < 2 * j + 1) b1) as Hi1.
  { apply scan_step_to with (done := fun x => x < 2 * j) (b := b)
      (sigma := 2 * j); try assumption; try lia.
    - intros a c Hp Hs. apply M1; [exact Hp | lia |].
      apply isPal_bounds in Hp. lia.
    - replace (j + j) with (2 * j) in C1 by lia. exact C1. }
  destruct (@expandAroundCenter_spec s j (j + 1) b1 ltac:(lia) ltac:(lia)
              ltac:(lia) ltac:(intros; lia) G1) as (G2 & M2 & C2).
  apply scan_step_to with (done := fun x => x < 2 * j + 1) (b := b1)
    (sigma := 2 * j + 1); try assumption; try lia.
  - intros a c Hp Hs. apply M2; [exact Hp | lia |].
    apply isPal_bounds in Hp. lia.
  - replace (j + (j + 1)) with (2 * j + 1) in C2 by lia. exact C2.
Qed.

Lemma scan_inv_start s b :
  good s b ->
  (forall a c, isPal s a c -> c - a + 1 = maxLength b -> maxStart b <= a) ->
  scan_inv s (fun x => x < 0) b.
Proof.
  intros G H. split; [exact G | |].
  - intros a c Hp Hd. apply isPal_bounds in Hp. lia.
  - intros a c Hp _. now apply H.
Qed.

Lemma good_initial s :
  1 <= length s -> good s {| maxLength := 1; maxStart := 0 |}.
Proof.
  intros H. split; simpl; [lia |]. intros _. apply isPal_single; lia.
Qed.

Lemma scan_inv_initial s :
  1 <= length s ->
  scan_inv s (fun x => x < 0) {| maxLength := 1; maxStart := 0 |}.
Proof.
  intros H. apply scan_inv_start; [now apply good_initial |].
  intros a c Hp _. apply isPal_bounds in Hp. simpl. lia.
Qed.

Lemma naive_scan_inv s :
  scan_inv s (fun x => x < 2 * length s) (naive_scan s).
Proof.
  unfold naive_scan.
  pose proof (length_nonneg s) as Hn.
  pose proof (@for_range_ind Best
    (fun i b => scan_inv s (fun x => x < 2 * i) b)
    (fun i b => expandAroundCenter s (length s) i (i + 1)
                  (expandAroundCenter s (length s) i i b))
    (Z.to_nat (length s)) 0 {| maxLength := 0; maxStart := 0 |}) as H.
  rewrite Z2Nat.id, Z.add_0_l in H by lia.
  apply H.
  - apply scan_inv_start.
    + split; simpl; lia.
    + intros a c Hp E. apply isPal_bounds in Hp. simpl in E. lia.
  - intros j b Hj Hi. apply odd_then_even_step; [lia | exact Hi].
Qed.

Lemma dp_scan_inv s :
  1 <= length s ->
  scan_inv s (fun x => x < 2 * length s) (dp_scan s).
Proof.
  intros Hn. unfold dp_scan.
  pose proof (@for_range_ind Best
    (fun i b => scan_inv s (fun x => x < 2 * i) b)
    (fun i b =>
       let b1 := expandAroundCenter s (length s) i i b in
       if i + 1 <? length s
       then expandAroundCenter s (length s) i (i + 1) b1 else b1)
    (Z.to_nat (length s)) 0 {| maxLength := 1; maxStart := 0 |}) as H.
  rewrite Z2Nat.id, Z.add_0_l in H by lia.
  apply H.
  - now apply scan_inv_initial.
  - intros j b Hj Hi. cbv zeta.
    pose proof (@odd_then_even_step s j b ltac:(lia) Hi) as Hstep.
    destruct (Z.ltb_spec (j + 1) (length s)); [exact Hstep |].
    (* the last round: [right = n] ends the loop at once *)
    unfold expandAroundCenter in Hstep at 1.
    replace (Z.to_nat (j + 1)) with (S (Z.to_nat j)) in Hstep by lia.
    cbn [expand_while] in Hstep.
    destruct (Z.ltb_spec (j + 1) (length s)); [lia |].
    rewrite andb_false_r in Hstep. exact Hstep.
Qed.

Lemma manacher_odd_inv s b :
  1 <= maxLength b ->
  scan_inv s (fun x => x < 0) b ->
  1 <= maxLength (manacher_odd s b) /\
  scan_inv s (fun x => x mod 2 = 0) (manacher_odd s b).
Proof.
  intros H1 Hi. unfold manacher_odd.
  pose proof (length_nonneg s) as Hn.
  pose proof (@for_range_ind Best
    (fun i b => 1 <= maxLength b /\
                scan_inv s (fun x => x < 2 * i /\ x mod 2 = 0) b)
    (fun i b => expandAroundCenter s (length s) (i - 1) (i + 1) b)
    (Z.to_nat (length s)) 0 b) as H.
  rewrite Z2Nat.id, Z.add_0_l in H by lia.
  destruct H as [HL HI].
  - split; [exact H1 |]. revert Hi. apply scan_inv_ext.
    intros a c Hp. apply isPal_bounds in Hp. lia.
  - intros j x Hj [Hx Hix].
    destruct (@expandAroundCenter_spec s (j - 1) (j + 1) x ltac:(lia)
                ltac:(lia) ltac:(lia) ltac:(intros; f_equal; lia)
                (inv_good Hix)) as (G & M & C).
    split; [destruct C as [-> | [? _]]; lia |].
    apply scan_step_to with (done := fun y => y < 2 * j /\ y mod 2 = 0)
      (b := x) (sigma := 2 * j).
    + exact Hix.
    + lia.
    + intros y. split; parity.
    + exact G.
    + intros a c Hp Hs. destruct (Z.eq_dec a j) as [-> | Hne].
      * destruct C as [-> | [? _]]; lia.
      * apply M; [exact Hp | lia |]. apply isPal_bounds in Hp. lia.
    + replace (j - 1 + (j + 1)) with (2 * j) in C by lia. exact C.
    + parity.
  - split; [exact HL |]. revert HI. apply scan_inv_ext.
    intros a c Hp. split; parity.
Qed.

Lemma manacher_even_inv s b :
  scan_inv s (fun x => x mod 2 = 0) b ->
  scan_inv s (fun x => x < 2 * length s) (manacher_even s b).
Proof.
  intros Hi. unfold manacher_even.
  pose proof (length_nonneg s) as Hn.
  destruct (Z.eq_dec (length s) 0) as [E0 | Hne].
  { rewrite E0. simpl. revert Hi. apply scan_inv_ext.
    intros a c Hp. apply isPal_bounds in Hp. lia. }
  pose proof (@for_range_ind Best
    (fun i b => scan_inv s (fun x => x mod 2 = 0 \/ x < 2 * i) b)
    (fun i b =>
       if strict_eq (get s i) (get s (i + 1))
       then expandAroundCenter s (length s) i (i + 1) b else b)
    (Z.to_nat (length s - 1)) 0 b) as H.
  rewrite Z2Nat.id, Z.add_0_l in H by lia.
  apply scan_inv_ext
    with (done := fun x => x mod 2 = 0 \/ x < 2 * (length s - 1)).
  { intros a c Hp. split; parity. }
  apply H.
  - revert Hi. apply scan_inv_ext. intros a c Hp. split; parity.
  - intros j x Hj Hix.
    apply scan_step_to with (done := fun y => y mod 2 = 0 \/ y < 2 * j)
      (b := x) (sigma := 2 * j + 1).
    + exact Hix.
    + parity.
    + intros y. split; parity.
    + destruct (strict_eq (get s j) (get s (j + 1))); [| apply Hix].
      apply (@expandAroundCenter_spec s j (j + 1) x ltac:(lia)
               ltac:(lia) ltac:(lia) ltac:(intros; lia) (inv_good Hix)).
    + intros a c Hp Hs.
      destruct (strict_eq (get s j) (get s (j + 1))) eqn:Heq.
      * destruct (@expandAroundCenter_spec s j (j + 1) x ltac:(lia)
                    ltac:(lia) ltac:(lia) ltac:(intros; lia) (inv_good Hix))
          as (_ & M & _).
        apply M; [exact Hp | lia |]. apply isPal_bounds in Hp. lia.
      * exfalso.
        assert (get s j = get s (j + 1)) as E.
        { replace (j + 1) with (a + c - j) by lia.
          apply (isPal_mirror Hp). apply isPal_bounds in Hp. lia. }
        apply strict_eq_iff in E. congruence.
    + destruct (strict_eq (get s j) (get s (j + 1))); [| now left].
      destruct (@expandAroundCenter_spec s j (j + 1) x ltac:(lia)
                  ltac:(lia) ltac:(lia) ltac:(intros; lia) (inv_good Hix))
        as (_ & _ & C).
      replace (j + (j + 1)) with (2 * j + 1) in C by lia. exact C.
    + parity.
Qed.

Lemma manacher_scan_inv s :
  1 <= length s ->
  scan_inv s (fun x => x < 2 * length s) (manacher_scan s).
Proof.
  intros Hn. unfold manacher_scan. apply manacher_even_inv.
  apply manacher_odd_inv; [simpl; lia | now apply scan_inv_initial].
Qed.

(** ** The validator *)

Lemma canonicalize_rev s : canonicalize (rev s) = rev (canonicalize s).
Proof.
  unfold canonicalize, toLowerCase, strip_non_alnum.
  now rewrite filter_rev, map_rev.
Qed.

Lemma canonicalize_palindrome s :
  palindrome s -> palindrome (canonicalize s).
Proof.
  unfold palindrome. intros E. rewrite <- canonicalize_rev. now rewrite E.
Qed.

Lemma validate_loop_true processed : forall count i,
  (forall k, i <= k < i + Z.of_nat count ->
     get processed k = get processed (length processed - 1 - k)) ->
  validate_loop count i processed = true.
Proof.
  induction count as [| c IH]; intros i H; [reflexivity |].
  cbn [validate_loop].
  assert (strict_eq (get processed i)
            (get processed (length processed - 1 - i)) = true) as ->
    by (apply strict_eq_iff, H; lia).
  simpl. apply IH. intros k Hk. apply H. lia.
Qed.

Lemma validate_loop_complete p k : forall count j,
  j <= k < j + Z.of_nat count ->
  strict_eq (get p k) (get p (length p - 1 - k)) = false ->
  validate_loop count j p = false.
Proof.
  induction count as [| c IH]; intros j Hj Ek; [lia |].
  cbn [validate_loop].
  destruct (Z.eq_dec j k) as [-> | Hne]; [now rewrite Ek |].
  destruct (negb _); [reflexivity | apply IH; [lia | exact Ek]].
Qed.

Lemma half_bounds n : 0 <= n -> 2 * (n / 2) <= n <= 2 * (n / 2) + 1.
Proof. intros. Z.to_euclidean_division_equations. lia. Qed.

(** [validatePalindrome] accepts exactly the non-empty strings whose
    canonical form reads the same both ways. *)
Lemma validatePalindrome_iff str :
  validatePalindrome str = true <-> str <> [] /\ palindrome (canonicalize str).
Proof.
  destruct str as [| c0 str0]; [simpl; split; [discriminate | tauto] |].
  set (p := canonicalize (c0 :: str0)).
  change (validatePalindrome (c0 :: str0))
    with (if length p <=? 1 then true
          else validate_loop (Z.to_nat (length p / 2)) 0 p).
  pose proof (length_nonneg p) as Hn.
  pose proof (half_bounds Hn) as Hh.
  split.
  - intros H. split; [discriminate |]. apply palindrome_iff.
    destruct (Z.leb_spec (length p) 1) as [H1 | H1].
    + intros i Hi. f_equal. lia.
    + assert (forall k, 0 <= k < length p / 2 ->
                get p k = get p (length p - 1 - k)) as Hhalf.
      { intros k Hk.
        destruct (strict_eq (get p k) (get p (length p - 1 - k))) eqn:Ek;
          [now apply strict_eq_iff |].
        rewrite (@validate_loop_complete p k) in H;
          [discriminate | lia | exact Ek]. }
      intros i Hi.
      destruct (Z.lt_ge_cases i (length p / 2)) as [Hlt | Hge].
      * apply Hhalf. lia.
      * destruct (Z.eq_dec (2 * i) (length p - 1)) as [Hmid | Hmid].
        -- f_equal. lia.
        -- symmetry.
           replace i with (length p - 1 - (length p - 1 - i)) at 2 by lia.
           apply Hhalf. lia.
  - intros [_ Hp].
    destruct (Z.leb_spec (length p) 1); [reflexivity |].
    apply validate_loop_true. intros k Hk.
    apply (proj1 (palindrome_iff p) Hp). lia.
Qed.

(** ** What each algorithm returns *)

Lemma best_of_unique s b b' : best_of s b -> best_of s b' -> b = b'.
Proof.
  intros (H1 & Hp & Hm) (H1' & Hp' & Hm').
  destruct (Hm _ _ Hp') as [L1 T1]. destruct (Hm' _ _ Hp) as [L2 T2].
  destruct b as [L ms], b' as [L' ms']. simpl in *.
  assert (L = L') as -> by lia. f_equal.
  specialize (T1 ltac:(lia)). specialize (T2 ltac:(lia)). lia.
Qed.

Lemma best_of_single s :
  length s = 1 -> best_of s {| maxLength := 1; maxStart := 0 |}.
Proof.
  intros H. split; [simpl; lia |]. split.
  - simpl. apply isPal_single. lia.
  - intros a c Hp. apply isPal_bounds in Hp. simpl. lia.
Qed.

Lemma isPal_palindrome s a c :
  isPal s a c -> palindrome (substring s (Some a) (Some (c + 1))).
Proof.
  intros Hp. pose proof (isPal_bounds Hp) as Hb.
  apply palindrome_iff. rewrite length_substring by lia.
  intros i Hi. rewrite !get_substring by lia.
  rewrite (isPal_mirror Hp) by lia. f_equal. lia.
Qed.

Lemma occurs_palindrome_isPal s sub at_ :
  occurs_at s sub at_ -> palindrome sub -> sub <> [] ->
  isPal s at_ (at_ + length sub - 1).
Proof.
  intros (pre & post & -> & <-) Hp Hne.
  pose proof (length_nonneg pre). pose proof (length_nonneg post).
  assert (1 <= length sub) as Hl.
  { destruct sub; [congruence | unfold length; simpl; lia]. }
  repeat split; try lia.
  - rewrite !length_app. lia.
  - intros k Hk.
    replace k with (length pre + (k - length pre)) at 1 by lia.
    replace (length pre + (length pre + length sub - 1) - k)
      with (length pre + (length sub - 1 - (k - length pre))) by lia.
    rewrite !get_app_mid by lia.
    apply (proj1 (palindrome_iff sub) Hp). lia.
Qed.

Lemma span_of_best s b :
  best_of s b ->
  span_of s b <> [] /\ palindrome (span_of s b) /\
  length (span_of s b) = maxLength b /\
  occurs_at s (span_of s b) (maxStart b).
Proof.
  intros (H1 & Hp & _). pose proof (isPal_bounds Hp) as Hb.
  unfold span_of.
  assert (length (substring s (Some (maxStart b))
                    (Some (maxStart b + maxLength b))) = maxLength b) as HL
    by (rewrite length_substring; lia).
  split; [| split; [| split]].
  - intros E. rewrite E in HL. unfold length in HL. simpl in HL. lia.
  - replace (maxStart b + maxLength b)
      with (maxStart b + maxLength b - 1 + 1) by lia.
    now apply isPal_palindrome.
  - exact HL.
  - apply occurs_at_substring; lia.
Qed.

Lemma span_of_best_valid s b :
  best_of s b -> validatePalindrome (span_of s b) = true.
Proof.
  intros H. destruct (span_of_best H) as (Hne & Hp & _).
  apply validatePalindrome_iff. split; [exact Hne |].
  now apply canonicalize_palindrome.
Qed.

Lemma best_of_scan s (b : Best) :
  1 <= length s -> scan_inv s (fun x => x < 2 * length s) b -> best_of s b.
Proof.
  intros Hn Hi. apply (scan_final Hi); [| exact Hn].
  intros a c Hp. apply isPal_bounds in Hp. lia.
Qed.

Lemma nonempty_length {A} (s : list A) : s <> [] -> 1 <= length s.
Proof. destruct s; [congruence | unfold length; simpl; lia]. Qed.

Lemma naiveLPS_result p m o c :
  p <> [] ->
  exists b, best_of p b /\ naiveLPS p m o c = (map_back m o b, c).
Proof.
  intros Hne. pose proof (nonempty_length Hne) as Hn.
  pose proof (best_of_scan Hn (naive_scan_inv p)) as Hb.
  exists (naive_scan p). split; [exact Hb |].
  unfold naiveLPS. destruct Hb as (H1 & Hrest).
  destruct (Z.eqb_spec (maxLength (naive_scan p)) 0); [lia |].
  rewrite span_of_best_valid by (split; assumption). reflexivity.
Qed.

Lemma fallback_map_back m o :
  fallback m o = map_back m o {| maxLength := 1; maxStart := 0 |}.
Proof. reflexivity. Qed.

Lemma dpLPS_result p m o c :
  p <> [] ->
  exists b, best_of p b /\ dpLPS p m o c = (map_back m o b, c).
Proof.
  intros Hne. pose proof (nonempty_length Hne) as Hn.
  unfold dpLPS. destruct (Z.eqb_spec (length p) 0); [lia |].
  destruct (Z.eqb_spec (length p) 1) as [E1 | N1].
  - exists {| maxLength := 1; maxStart := 0 |}.
    split; [now apply best_of_single | now rewrite fallback_map_back].
  - pose proof (best_of_scan Hn (@dp_scan_inv p Hn)) as Hb.
    exists (dp_scan p). split; [exact Hb |].
    now rewrite span_of_best_valid.
Qed.

Lemma manacherLPS_result p m o c :
  p <> [] ->
  exists b, best_of p b /\ manacherLPS p m o c = (map_back m o b, c).
Proof.
  intros Hne. pose proof (nonempty_length Hne) as Hn.
  unfold manacherLPS. destruct p as [| x p']; [congruence |].
  set (p := x :: p') in *.
  destruct (Z.eqb_spec (length p) 1) as [E1 | N1].
  - exists {| maxLength := 1; maxStart := 0 |}.
    split; [now apply best_of_single | now rewrite fallback_map_back].
  - pose proof (best_of_scan Hn (@manacher_scan_inv p Hn)) as Hb.
    exists (manacher_scan p). split; [exact Hb |].
    now rewrite span_of_best_valid.
Qed.

Lemma alg_of_result t p m o c :
  p <> [] ->
  exists b, best_of p b /\ alg_of t p m o c = (map_back m o b, c).
Proof.
  destruct t; [apply naiveLPS_result | apply dpLPS_result
              | apply manacherLPS_result].
Qed.

Lemma alg_of_empty t m o c : alg_of t [] m o c = ([], c).
Proof. destruct t; reflexivity. Qed.

(** No algorithm writes to the console, and its value does not depend on
    the console it starts from. *)
Lemma alg_of_value t p m o c : alg_of t p m o c = (lps_value t p m o, c).
Proof.
  unfold lps_value. destruct p as [| x p'].
  - now rewrite !alg_of_empty.
  - destruct (@alg_of_result t (x :: p') m o c ltac:(discriminate))
      as (b & Hb & ->).
    destruct (@alg_of_result t (x :: p') m o [] ltac:(discriminate))
      as (b' & Hb' & ->).
    now rewrite (best_of_unique Hb Hb').
Qed.

(** ** preprocessString *)

Lemma array_store_end arr v : array_store arr (length arr) v = arr ++ [v].
Proof.
  unfold array_store. destruct (Z.ltb_spec (length arr) (length arr));
    [lia | reflexivity].
Qed.

Lemma get_app_head {A} (pre : list A) x rest :
  get (pre ++ x :: rest) (length pre) = Some x.
Proof.
  pose proof (@get_app_mid A pre [x] rest 0) as H.
  rewrite Z.add_0_r in H. apply H. unfold length. simpl. lia.
Qed.

(** The mapping loop stores, in order, the offsets of the alphanumeric code
    units, and keeps [processedIdx] equal to the length of the mapping. *)
Lemma mapping_loop_processedIdx : forall rest pre acc,
  for_range (List.length rest) (length pre) (mapping_body (pre ++ rest))
    (acc, length acc)
  = (acc ++ positions rest (length pre),
     length (acc ++ positions rest (length pre))).
Proof.
  induction rest as [| x rest IH]; intros pre acc.
  - simpl. now rewrite app_nil_r.
  - cbn [List.length for_range positions].
    unfold mapping_body at 2. rewrite get_app_head.
    replace (pre ++ x :: rest) with ((pre ++ [x]) ++ rest)
      by (now rewrite <- app_assoc).
    replace (length pre + 1) with (length (pre ++ [x]))
      by (rewrite length_app; reflexivity).
    destruct (is_alnum x).
    + rewrite array_store_end.
      replace (length acc + 1) with (length (acc ++ [length pre]))
        by (rewrite length_app; reflexivity).
      rewrite IH. now rewrite <- app_assoc.
    + apply IH.
Qed.

Lemma length_positions s : forall off,
  length (positions s off) = length (strip_non_alnum s).
Proof.
  unfold length, strip_non_alnum. intros off. f_equal. revert off.
  induction s as [| x s IH]; intros off; [reflexivity |].
  cbn [positions filter]. destruct (is_alnum x); cbn [List.length];
    now rewrite IH.
Qed.

Lemma length_canonicalize s : length (canonicalize s) = length (positions s 0).
Proof.
  unfold canonicalize, toLowerCase. rewrite length_positions.
  unfold length. now rewrite List.length_map.
Qed.

Lemma preprocessString_spec s :
  processedStr (preprocessString s) = canonicalize s /\
  indexMapping (preprocessString s) = positions s 0.
Proof.
  destruct s as [| x s']; [split; reflexivity |].
  set (s := x :: s').
  change (preprocessString s) with
    (if length (canonicalize s) =? 0
     then {| processedStr := canonicalize s; indexMapping := [];
             originalStr := None |}
     else
       let '(indexMapping, _) :=
         for_range (Z.to_nat (length s)) 0 (mapping_body s) ([], 0) in
       {| processedStr := canonicalize s; indexMapping := indexMapping;
          originalStr := Some s |}).
  destruct (Z.eqb_spec (length (canonicalize s)) 0) as [E | N].
  - cbn [processedStr indexMapping]. split; [reflexivity |]. symmetry.
    apply length_nil_inv. now rewrite <- length_canonicalize.
  - pose proof (mapping_loop_processedIdx s [] []) as H.
    change (length []) with 0 in H. rewrite !app_nil_l in H.
    replace (Z.to_nat (length s)) with (List.length s)
      by (unfold length; lia).
    rewrite H. split; reflexivity.
Qed.

(** Entry [k] of the mapping is the offset of an alphanumeric code unit,
    whose lower-case form is code unit [k] of the canonical string. *)
Lemma positions_get s : forall off k i,
  nth_error (positions s off) k = Some i ->
  off <= i < off + length s /\
  exists c, nth_error s (Z.to_nat (i - off)) = Some c /\
            is_alnum c = true /\
            nth_error (canonicalize s) k = Some (lower c).
Proof.
  unfold length, canonicalize, toLowerCase, strip_non_alnum.
  induction s as [| x s IH]; intros off k i H;
    [destruct k; discriminate |].
  cbn [positions] in H. cbn [filter]. destruct (is_alnum x) eqn:Ex.
  - destruct k as [| k].
    + injection H as <-. split; [simpl; lia |].
      exists x. rewrite Z.sub_diag. auto.
    + simpl in H. destruct (IH _ _ _ H) as (Hr & c & Hc & Hal & Hk).
      split; [simpl List.length; lia |]. exists c.
      replace (Z.to_nat (i - off)) with (S (Z.to_nat (i - (off + 1))))
        by lia.
      auto.
  - destruct (IH _ _ _ H) as (Hr & c & Hc & Hal & Hk).
    split; [simpl List.length; lia |]. exists c.
    replace (Z.to_nat (i - off)) with (S (Z.to_nat (i - (off + 1)))) by lia.
    auto.
Qed.

Lemma positions_lower_bound s : forall off,
  Forall (fun i => off <= i) (positions s off).
Proof.
  induction s as [| x s IH]; intros off; [constructor |].
  assert (Forall (fun i => off <= i) (positions s (off + 1))) as H.
  { eapply Forall_impl; [| apply IH]. simpl. intros. lia. }
  simpl. destruct (is_alnum x); [constructor; [lia | exact H] | exact H].
Qed.

Lemma positions_increasing s : forall off,
  StronglySorted Z.lt (positions s off).
Proof.
  induction s as [| x s IH]; intros off; [constructor |].
  simpl. destruct (is_alnum x); [| apply IH].
  constructor; [apply IH |].
  eapply Forall_impl; [| apply positions_lower_bound]. simpl. intros. lia.
Qed.

(** Every alphanumeric code unit has its offset in the mapping. *)
Lemma positions_complete s : forall off j c,
  nth_error s j = Some c -> is_alnum c = true ->
  In (off + Z.of_nat j) (positions s off).
Proof.
  induction s as [| x s IH]; intros off j c Hj Hc; [destruct j; discriminate |].
  destruct j as [| j].
  - injection Hj as ->. simpl. rewrite Hc. left. lia.
  - simpl in Hj. specialize (IH (off + 1) j c Hj Hc).
    replace (off + Z.of_nat (S j)) with (off + 1 + Z.of_nat j) by lia.
    simpl. destruct (is_alnum x); [right |]; exact IH.
Qed.

Lemma filter_firstn_positions s : forall off k i,
  nth_error (positions s off) k = Some i ->
  filter is_alnum (firstn (Z.to_nat (i + 1 - off)) s)
  = firstn (S k) (filter is_alnum s).
Proof.
  induction s as [| x s IH]; intros off k i H;
    [destruct k; discriminate |].
  pose proof (positions_get _ _ _ H) as [Hr _].
  replace (Z.to_nat (i + 1 - off)) with (S (Z.to_nat (i - off))) by lia.
  rewrite firstn_cons. cbn [positions] in H. cbn [filter].
  destruct (is_alnum x) eqn:Ex.
  - rewrite firstn_cons. f_equal. destruct k as [| k].
    + injection H as <-. rewrite Z.sub_diag. reflexivity.
    + simpl in H. rewrite <- (IH _ _ _ H). do 2 f_equal. lia.
  - rewrite <- (IH _ _ _ H). do 2 f_equal.
    pose proof (positions_get _ _ _ H) as [Hr' _]. lia.
Qed.

Lemma filter_skipn_positions s : forall off k i,
  nth_error (positions s off) k = Some i ->
  filter is_alnum (skipn (Z.to_nat (i - off)) s)
  = skipn k (filter is_alnum s) /\
  positions (skipn (Z.to_nat (i - off)) s) i = skipn k (positions s off).
Proof.
  induction s as [| x s IH]; intros off k i H;
    [destruct k; discriminate |].
  cbn [positions] in H. destruct (is_alnum x) eqn:Ex.
  - destruct k as [| k].
    + injection H as <-. rewrite Z.sub_diag. simpl. rewrite Ex. auto.
    + simpl in H. pose proof (positions_get _ _ _ H) as [Hr _].
      replace (Z.to_nat (i - off)) with (S (Z.to_nat (i - (off + 1))))
        by lia.
      simpl. rewrite Ex. simpl. apply (IH _ _ _ H).
  - pose proof (positions_get _ _ _ H) as [Hr _].
    replace (Z.to_nat (i - off)) with (S (Z.to_nat (i - (off + 1)))) by lia.
    simpl. rewrite Ex. apply (IH _ _ _ H).
Qed.

(** Mapping a span of the canonical string back to the raw text and
    canonicalizing the slice gives the span again. *)
Lemma map_back_positions raw b :
  0 <= maxStart b -> 1 <= maxLength b ->
  maxStart b + maxLength b <= length (canonicalize raw) ->
  exists ia ic,
    get (positions raw 0) (maxStart b) = Some ia /\
    get (positions raw 0) (maxStart b + maxLength b - 1) = Some ic /\
    0 <= ia <= ic /\ ic < length raw /\
    map_back (positions raw 0) raw b
    = substring raw (Some ia) (Some (ic + 1)) /\
    canonicalize (map_back (positions raw 0) raw b)
    = span_of (canonicalize raw) b.
Proof.
  intros H0 H1 H2. destruct b as [L ms]. cbn [maxLength maxStart] in *.
  rewrite length_canonicalize in H2.
  destruct (@get_in_range _ (positions raw 0) ms ltac:(lia)) as [ia Ea].
  destruct (@get_in_range _ (positions raw 0) (ms + L - 1) ltac:(lia))
    as [ic Ec].
  pose proof Ea as Na. pose proof Ec as Nc.
  rewrite get_nth in Na, Nc by lia.
  destruct (positions_get _ _ _ Na) as [Ra _].
  destruct (filter_skipn_positions _ _ _ Na) as [Fs Ps].
  rewrite Z.sub_0_r in Fs, Ps.
  assert (nth_error (positions (skipn (Z.to_nat ia) raw) ia)
            (Z.to_nat (L - 1)) = Some ic) as Nc'.
  { rewrite Ps, nth_error_skipn, <- Nc. f_equal. lia. }
  destruct (positions_get _ _ _ Nc') as [Rc _].
  pose proof (filter_firstn_positions _ _ _ Nc') as Ff.
  assert (length (skipn (Z.to_nat ia) raw) = length raw - ia) as Ls.
  { unfold length in *. rewrite List.length_skipn. lia. }
  exists ia, ic. repeat split; try assumption; try lia.
  - unfold map_back. cbn [maxLength maxStart]. now rewrite Ea, Ec.
  - unfold map_back, span_of. cbn [maxLength maxStart].
    rewrite Ea, Ec. cbn [add1 option_map].
    rewrite !substring_in_range by (rewrite ?length_canonicalize; lia).
    unfold canonicalize, toLowerCase, strip_non_alnum.
    rewrite Ff, Fs.
    rewrite <- firstn_map, <- skipn_map. f_equal. lia.
Qed.

(** ** The algorithms on a raw text *)

Lemma run_on_raw_cases t raw :
  (canonicalize raw = [] /\ run_on_raw (alg_of t) raw = []) \/
  (exists b, best_of (canonicalize raw) b /\
     run_on_raw (alg_of t) raw = map_back (positions raw 0) raw b).
Proof.
  unfold run_on_raw. destruct (preprocessString_spec raw) as [-> ->].
  destruct (canonicalize raw) as [| x p'] eqn:E.
  - left. now rewrite alg_of_empty.
  - right. rewrite <- E.
    destruct (@alg_of_result t (canonicalize raw) (positions raw 0) raw [])
      as (b & Hb & ->); [rewrite E; discriminate |].
    now exists b.
Qed.

Lemma best_of_bounds s b :
  best_of s b ->
  0 <= maxStart b /\ 1 <= maxLength b /\ maxStart b + maxLength b <= length s.
Proof. intros (H1 & Hp & _). apply isPal_bounds in Hp. lia. Qed.

Lemma canonical_run t raw :
  (canonicalize raw = [] /\ run_on_raw (alg_of t) raw = []) \/
  (exists b, best_of (canonicalize raw) b /\
     canonicalize (run_on_raw (alg_of t) raw) = span_of (canonicalize raw) b).
Proof.
  destruct (run_on_raw_cases t raw) as [H | (b & Hb & E)]; [now left |].
  right. exists b. split; [exact Hb |]. rewrite E.
  destruct (best_of_bounds Hb) as (H0 & H1 & H2).
  destruct (map_back_positions raw b H0 H1 H2) as (_ & _ & _ & _ & _ & _ & _ & C).
  exact C.
Qed.

Lemma occurs_at_nil_inv sub at_ : occurs_at [] sub at_ -> sub = [] /\ at_ = 0.
Proof.
  intros (pre & post & E & <-). symmetry in E.
  apply app_eq_nil in E. destruct E as [-> E].
  apply app_eq_nil in E. destruct E as [-> _]. auto.
Qed.

Lemma leftmost_longest_of_best s b :
  best_of s b -> leftmost_longest s (span_of s b).
Proof.
  intros Hb. destruct (span_of_best Hb) as (Hne & Hp & HL & Ho).
  destruct Hb as (H1 & Hpal & Hm).
  exists (maxStart b). split; [exact Ho |]. split; [exact Hp |].
  intros sub' at' Ho' Hp'. rewrite HL.
  destruct sub' as [| x sub0].
  - change (length []) with 0. split; lia.
  - set (sub' := x :: sub0) in *.
    assert (sub' <> []) as Hne' by discriminate.
    pose proof (occurs_palindrome_isPal Ho' Hp' Hne') as Hi.
    destruct (Hm _ _ Hi) as [Hle Htie]. split; [lia |].
    intros E. apply Htie. lia.
Qed.

Lemma leftmost_longest_nil : leftmost_longest [] [].
Proof.
  exists 0. split; [exists [], []; auto |]. split; [reflexivity |].
  intros sub' at' Ho _. apply occurs_at_nil_inv in Ho. destruct Ho as [-> ->].
  split; lia.
Qed.

Lemma leftmost_longest_run t raw :
  leftmost_longest (canonicalize raw)
    (canonicalize (run_on_raw (alg_of t) raw)).
Proof.
  destruct (canonical_run t raw) as [[E ->] | (b & Hb & ->)].
  - rewrite E. apply leftmost_longest_nil.
  - now apply leftmost_longest_of_best.
Qed.

Lemma leftmost_longest_lps_length s sub :
  leftmost_longest s sub -> lps_length s (length sub).
Proof.
  intros (at_ & Ho & Hp & Hm). split.
  - exists sub, at_. auto.
  - intros sub' at' Ho' Hp'. now apply (Hm sub' at').
Qed.

Lemma lps_length_unique s L L' : lps_length s L -> lps_length s L' -> L = L'.
Proof.
  intros [(sub & a & Ho & Hp & HL) Hm] [(sub' & a' & Ho' & Hp' & HL') Hm'].
  specialize (Hm _ _ Ho' Hp'). specialize (Hm' _ _ Ho Hp). lia.
Qed.

(** ** Numbers *)

Lemma binary_round_aux_signed s mx ex lx :
  signed s (binary_round_aux Num.prec Num.emax s mx ex lx).
Proof.
  unfold binary_round_aux.
  destruct (shr_fexp _ _ _ _ _) as [mrs' e'].
  destruct (shr_fexp _ _ _ _ _) as [mrs'' e''].
  destruct (shr_m mrs''); [reflexivity | | exact I].
  destruct (Z.leb _ _); reflexivity.
Qed.

Lemma binary_round_signed s m e :
  signed s (binary_round Num.prec Num.emax s m e).
Proof.
  unfold binary_round. destruct (shl_align _ _ _) as [mz ez].
  apply binary_round_aux_signed.
Qed.

Lemma binary_normalize_signed z e :
  signed (z <? 0) (binary_normalize Num.prec Num.emax z e false).
Proof.
  destruct z; [reflexivity | |]; apply binary_round_signed.
Qed.

Lemma of_Z_signed z : 0 <= z -> signed false (Num.of_Z z).
Proof.
  intros H. unfold Num.of_Z.
  replace false with (z <? 0) at 1 by (apply Z.ltb_ge; exact H).
  apply binary_normalize_signed.
Qed.

Lemma add_signed x y :
  signed false x -> signed false y -> signed false (Num.add x y).
Proof.
  destruct x as [sx | sx | | sx mx ex], y as [sy | sy | | sy my ey];
    cbn [signed]; intros Hx Hy; subst; try exact I; try reflexivity.
  unfold Num.add, SFadd. cbn [cond_Zopp].
  rewrite <- Pos2Z.inj_add. apply binary_round_signed.
Qed.

Lemma div_signed x y :
  signed false x -> signed false y -> signed false (Num.div x y).
Proof.
  destruct x as [sx | sx | | sx mx ex], y as [sy | sy | | sy my ey];
    cbn [signed]; intros Hx Hy; subst; try exact I; try reflexivity.
  unfold Num.div, SFdiv.
  destruct (SFdiv_core_binary _ _ _ _ _ _) as [[mz ez] lz].
  apply binary_round_aux_signed.
Qed.

Lemma sum_signed l : forall a,
  signed false a -> Forall (signed false) l ->
  signed false (fold_left Num.add l a).
Proof.
  induction l as [| x l IH]; intros a Ha H; [exact Ha |].
  inversion H as [| ? ? Hx Hl]; subst. cbn [fold_left].
  apply IH; [now apply add_signed | exact Hl].
Qed.

Lemma average_signed l :
  l <> [] -> Forall (signed false) l -> signed false (average l).
Proof.
  intros Hne H. unfold average. apply div_signed.
  - apply sum_signed; [reflexivity | exact H].
  - apply of_Z_signed, length_nonneg.
Qed.

Lemma toFixed2_signed x : signed false x -> signed false (toFixed2 x).
Proof.
  destruct x as [s | s | | s m e]; cbn [signed toFixed2]; intros H;
    try exact H; try reflexivity.
  subst s. destruct (at_least_1e21 m e); [reflexivity |].
  destruct (hundredths m e) as [| n | n]; try reflexivity.
  apply div_signed; [reflexivity |]. now apply of_Z_signed.
Qed.

Lemma signed_not_negative x : signed false x -> not_negative x.
Proof.
  destruct x as [s | s | | s m e]; cbn [signed]; intros H; subst;
    reflexivity.
Qed.

Lemma lt_zero_signed_true x : signed true x -> Num.lt Num.zero x = false.
Proof.
  destruct x as [s | s | | s m e]; cbn [signed]; intros H; subst;
    reflexivity.
Qed.

Lemma lt_zero_signed x : Num.lt Num.zero x = true -> signed false x.
Proof.
  destruct x as [[] | [] | | [] m e]; cbn; congruence.
Qed.

(** [Math.max(0, x)] is [x] when [x] is above zero, [NaN] when [x] is,
    and [+0] in all other cases. *)
Lemma Math_max0_cases x :
  signed false (Math_max0 x) /\
  (Num.lt Num.zero x = true -> Math_max0 x = x) /\
  (Num.lt Num.zero x = false -> x <> S754_nan -> Math_max0 x = Num.zero).
Proof.
  split; [| split].
  - destruct x as [s | s | | s m e]; cbn [Math_max0]; try exact I;
      (destruct (Num.lt Num.zero _) eqn:E;
       [now apply lt_zero_signed | reflexivity]).
  - intros H. destruct x; cbn [Math_max0]; try now rewrite H.
    discriminate H.
  - intros H Hn. destruct x; cbn [Math_max0]; try now rewrite H.
    congruence.
Qed.

Lemma le_zero_cases x :
  Num.le x Num.zero = true -> Num.lt Num.zero x = false /\ x <> S754_nan.
Proof.
  destruct x as [[] | [] | | [] m e]; cbn; intros H; try discriminate;
    split; (reflexivity || discriminate).
Qed.

(** The comparator of [sort] never asks for [a] behind [b] and for [b]
    behind [a] at once. *)
Lemma comparator_antisym x y :
  Num.lt Num.zero (Num.sub x y) = true -> in_order y x.
Proof.
  unfold in_order.
  destruct x as [sx | sx | | sx mx ex], y as [sy | sy | | sy my ey];
    try (destruct sx; destruct sy; cbn; congruence);
    try (destruct sx; cbn; congruence);
    try (destruct sy; cbn; congruence);
    try (cbn; congruence).
  unfold Num.sub, SFsub. rewrite (Z.min_comm ey ex).
  set (ez := Z.min ex ey).
  set (X := cond_Zopp sx (Z.pos (fst (shl_align mx ex ez)))).
  set (Y := cond_Zopp sy (Z.pos (fst (shl_align my ey ez)))).
  replace (Y - X) with (- (X - Y)) by lia.
  destruct (X - Y) as [| d | d]; cbn [Z.opp binary_normalize].
  - discriminate.
  - intros _. apply lt_zero_signed_true, binary_round_signed.
  - intros H. rewrite lt_zero_signed_true in H by apply binary_round_signed.
    discriminate.
Qed.

(** Numbers in canonical form. *)

Lemma digits2_pos_bounds (p : positive) :
  2 ^ (Zpos (digits2_pos p) - 1) <= Zpos p < 2 ^ Zpos (digits2_pos p).
Proof.
  induction p as [p IH | p IH |]; cbn [digits2_pos].
  - rewrite Pos2Z.inj_succ, Z.pow_succ_r by lia.
    replace (Z.succ (Zpos (digits2_pos p)) - 1)
      with (Z.succ (Zpos (digits2_pos p) - 1)) by lia.
    rewrite Z.pow_succ_r by lia. lia.
  - rewrite Pos2Z.inj_succ, Z.pow_succ_r by lia.
    replace (Z.succ (Zpos (digits2_pos p)) - 1)
      with (Z.succ (Zpos (digits2_pos p) - 1)) by lia.
    rewrite Z.pow_succ_r by lia. lia.
  - cbn. lia.
Qed.

Lemma shr_1_div mrs : 0 <= shr_m mrs -> shr_m (shr_1 mrs) = shr_m mrs / 2.
Proof.
  destruct mrs as [m r s]. cbn [shr_m]. intros H.
  destruct m as [| [p | p |] | p]; cbn [shr_1 shr_m]; try lia;
    try reflexivity.
  - apply Z.div_unique with 1; lia.
  - apply Z.div_unique with 0; lia.
Qed.

Lemma iter_pos_shr p : forall mrs,
  0 <= shr_m mrs ->
  shr_m (iter_pos shr_1 p mrs) = shr_m mrs / 2 ^ Zpos p.
Proof.
  induction p as [p IH | p IH |]; intros mrs H; cbn [iter_pos].
  - assert (0 <= shr_m (shr_1 mrs)) as H1
      by (rewrite shr_1_div by exact H; apply Z.div_pos; lia).
    assert (0 < 2 ^ Zpos p) as Hp by (apply Z.pow_pos_nonneg; lia).
    assert (0 <= shr_m (iter_pos shr_1 p (shr_1 mrs))) as H2
      by (rewrite IH by exact H1; apply Z.div_pos; lia).
    rewrite IH by exact H2. rewrite IH by exact H1.
    rewrite shr_1_div by exact H.
    rewrite !Z.div_div by lia. f_equal.
    rewrite Pos2Z.inj_xI, Z.pow_add_r, Z.pow_mul_r by lia.
    change (2 ^ 2) with 4. change (2 ^ 1) with 2.
    replace (4 ^ Zpos p) with (2 ^ Zpos p * 2 ^ Zpos p); [lia |].
    rewrite <- Z.pow_add_r by lia. replace (Zpos p + Zpos p) with (2 * Zpos p) by lia.
    rewrite Z.pow_mul_r by lia. reflexivity.
  - assert (0 < 2 ^ Zpos p) as Hp by (apply Z.pow_pos_nonneg; lia).
    assert (0 <= shr_m (iter_pos shr_1 p mrs)) as H2
      by (rewrite IH by exact H; apply Z.div_pos; lia).
    rewrite IH by exact H2. rewrite IH by exact H.
    rewrite Z.div_div by lia. f_equal.
    rewrite <- Z.pow_add_r by lia. f_equal. lia.
  - rewrite shr_1_div by exact H. reflexivity.
Qed.

Lemma shr_fexp_pos m e l :
  0 < m -> Num.emin <= e ->
  0 < shr_m (fst (shr_fexp Num.prec Num.emax m e l)) /\
  Num.emin <= snd (shr_fexp Num.prec Num.emax m e l).
Proof.
  intros Hm He. unfold shr_fexp, shr.
  assert (shr_m (shr_record_of_loc m l) = m) as Em
    by (destruct l as [| []]; reflexivity).
  destruct m as [| p | p]; try lia. cbn [Zdigits2].
  pose proof (digits2_pos_bounds p) as Hd.
  set (d := Zpos (digits2_pos p)) in *.
  unfold fexp. fold (SpecFloat.emin Num.prec Num.emax). fold Num.emin.
  destruct (Z.max (d + e - Num.prec) Num.emin - e) as [| n | n] eqn:En;
    cbn [fst snd]; try (rewrite Em; lia).
  rewrite iter_pos_shr by (rewrite Em; lia). rewrite Em.
  assert (Zpos n = d - Num.prec) as -> by lia.
  unfold Num.prec in *. split; [| lia].
  apply Z.div_str_pos. split; [apply Z.pow_pos_nonneg; lia |].
  apply Z.le_trans with (2 ^ (d - 1)); [| lia].
  apply Z.pow_le_mono_r; lia.
Qed.

Lemma round_nearest_even_pos m l : 0 < m -> 0 < round_nearest_even m l.
Proof.
  intros H. destruct l as [| []]; cbn [round_nearest_even]; try lia.
  destruct (Z.even m); lia.
Qed.

Lemma binary_round_aux_pos s m e l :
  0 < m -> Num.emin <= e ->
  nonzero_signed s (binary_round_aux Num.prec Num.emax s m e l).
Proof.
  intros Hm He. unfold binary_round_aux.
  destruct (@shr_fexp_pos m e l Hm He) as [H1 H2].
  destruct (shr_fexp Num.prec Num.emax m e l) as [mrs' e'].
  cbn [fst snd] in H1, H2.
  pose proof (@round_nearest_even_pos _ (loc_of_shr_record mrs') H1) as H3.
  destruct (@shr_fexp_pos _ _ loc_Exact H3 H2) as [H4 _].
  destruct (shr_fexp Num.prec Num.emax _ e' loc_Exact) as [mrs'' e''].
  cbn [fst] in H4.
  destruct (shr_m mrs''); try lia.
  destruct (Z.leb _ _); reflexivity.
Qed.

Lemma binary_round_pos s m e :
  Num.emin <= e -> nonzero_signed s (binary_round Num.prec Num.emax s m e).
Proof.
  intros He. unfold binary_round, shl_align.
  set (f := fexp Num.prec Num.emax (Zpos (digits2_pos m) + e)).
  assert (Num.emin <= f) as Hf by (unfold f, fexp; fold (SpecFloat.emin Num.prec Num.emax); fold Num.emin; lia).
  destruct (f - e) as [| d | d] eqn:Ed;
    apply binary_round_aux_pos; lia.
Qed.

Lemma canonical_bounds m e :
  canonical_mantissa Num.prec Num.emax m e = true ->
  Zpos m < 2 ^ Num.prec /\ Num.emin <= e /\
  (Num.emin < e -> 2 ^ (Num.prec - 1) <= Zpos m).
Proof.
  unfold canonical_mantissa, fexp. fold (SpecFloat.emin Num.prec Num.emax). fold Num.emin. intros H.
  apply Z.eqb_eq in H.
  pose proof (digits2_pos_bounds m) as Hd.
  set (d := Zpos (digits2_pos m)) in *.
  assert (d <= Num.prec) as Hle by lia.
  split; [| split; [lia |]].
  - apply Z.lt_le_trans with (2 ^ d); [lia |].
    apply Z.pow_le_mono_r; lia.
  - intros He. assert (d = Num.prec) as <- by lia. lia.
Qed.

Lemma iter_xO_value d : forall m,
  Zpos (Pos.iter xO m d) = Zpos m * 2 ^ Zpos d.
Proof.
  induction d as [| d IH] using Pos.peano_ind; intros m.
  - cbn. lia.
  - rewrite Pos.iter_succ, Pos2Z.inj_xO, IH, Pos2Z.inj_succ,
      Z.pow_succ_r by lia. lia.
Qed.

Lemma shl_align_value m e e' :
  e' <= e -> Zpos (fst (shl_align m e e')) = Zpos m * 2 ^ (e - e').
Proof.
  intros H. unfold shl_align.
  destruct (e' - e) as [| d | d] eqn:Ed; cbn [fst]; try lia.
  - replace (e - e') with 0 by lia. lia.
  - rewrite iter_xO_value. f_equal. f_equal. lia.
Qed.

(** The mantissas of two numbers in canonical form, brought to the smaller
    of the two exponents, compare as the exponents do and, for equal
    exponents, as the mantissas do. *)
Lemma aligned_compare mx ex my ey :
  canonical_mantissa Num.prec Num.emax mx ex = true ->
  canonical_mantissa Num.prec Num.emax my ey = true ->
  let ez := Z.min ex ey in
  Z.compare (Zpos (fst (shl_align mx ex ez))) (Zpos (fst (shl_align my ey ez)))
  = match Z.compare ex ey with
    | Lt => Lt
    | Gt => Gt
    | Eq => Pos.compare mx my
    end.
Proof.
  intros Hx Hy ez.
  destruct (@canonical_bounds mx ex Hx) as (Hx1 & Hx2 & Hx3).
  destruct (@canonical_bounds my ey Hy) as (Hy1 & Hy2 & Hy3).
  rewrite !shl_align_value by (unfold ez; lia).
  assert (2 ^ Num.prec = 2 * 2 ^ (Num.prec - 1)) as E2 by reflexivity.
  destruct (Z.compare_spec ex ey) as [E | L | G].
  - subst ey. replace (ex - ez) with 0 by (unfold ez; lia).
    rewrite Z.pow_0_r, !Z.mul_1_r. reflexivity.
  - replace (ex - ez) with 0 by (unfold ez; lia).
    replace (ey - ez) with (Z.succ (ey - ex - 1)) by (unfold ez; lia).
    rewrite Z.pow_succ_r, Z.pow_0_r by lia. apply Z.compare_lt_iff.
    assert (0 < 2 ^ (ey - ex - 1)) by (apply Z.pow_pos_nonneg; lia).
    specialize (Hy3 ltac:(lia)). nia.
  - replace (ey - ez) with 0 by (unfold ez; lia).
    replace (ex - ez) with (Z.succ (ex - ey - 1)) by (unfold ez; lia).
    rewrite Z.pow_succ_r, Z.pow_0_r by lia. apply Z.compare_gt_iff.
    assert (0 < 2 ^ (ex - ey - 1)) by (apply Z.pow_pos_nonneg; lia).
    specialize (Hx3 ltac:(lia)). nia.
Qed.

Lemma lt_zero_nonzero_signed x :
  nonzero_signed false x -> Num.lt Num.zero x = true.
Proof.
  destruct x as [s | s | | s m e]; cbn [nonzero_signed]; intros H;
    try contradiction; subst; reflexivity.
Qed.

Lemma finite_compare sx mx ex sy my ey :
  canonical_mantissa Num.prec Num.emax mx ex = true ->
  canonical_mantissa Num.prec Num.emax my ey = true ->
  let ez := Z.min ex ey in
  SFcompare (S754_finite sx mx ex) (S754_finite sy my ey)
  = Some (Z.compare (cond_Zopp sx (Zpos (fst (shl_align mx ex ez))))
            (cond_Zopp sy (Zpos (fst (shl_align my ey ez))))).
Proof.
  intros Hx Hy ez. pose proof (@aligned_compare mx ex my ey Hx Hy) as H.
  cbv zeta in H. fold ez in H.
  destruct sx, sy; cbn [SFcompare cond_Zopp]; f_equal.
  - rewrite Z.compare_opp.
    rewrite (Z.compare_antisym (Zpos (fst (shl_align mx ex ez)))
               (Zpos (fst (shl_align my ey ez)))), H.
    destruct (Z.compare ex ey); reflexivity.
  - rewrite H. destruct (Z.compare ex ey); reflexivity.
Qed.

(** On numbers the comparator of [sort] asks for [a] behind [b] exactly
    when [a <= b] is false. *)
Lemma comparator_le a b :
  is_number a -> is_number b ->
  Num.lt Num.zero (Num.sub a b) = negb (Num.le a b).
Proof.
  intros [Na Va] [Nb Vb].
  destruct a as [sa | sa | | sa ma ea], b as [sb | sb | | sb mb eb];
    try congruence;
    try (destruct sa; destruct sb; reflexivity);
    try (destruct sa; reflexivity);
    try (destruct sb; reflexivity).
  cbn [valid_binary] in Va, Vb. unfold bounded in Va, Vb.
  apply andb_true_iff in Va, Vb. destruct Va as [Ca _], Vb as [Cb _].
  unfold Num.le, SFleb. rewrite (@finite_compare sa ma ea sb mb eb Ca Cb). cbv zeta.
  unfold Num.sub, SFsub.
  destruct (@canonical_bounds ma ea Ca) as (_ & Ha & _).
  destruct (@canonical_bounds mb eb Cb) as (_ & Hb & _).
  set (ez := Z.min ea eb).
  set (X := cond_Zopp sa (Z.pos (fst (shl_align ma ea ez)))).
  set (Y := cond_Zopp sb (Z.pos (fst (shl_align mb eb ez)))).
  destruct (Z.compare_spec X Y) as [E | L | G].
  - replace (X - Y) with 0 by lia. reflexivity.
  - destruct (X - Y) as [| d | d] eqn:Ed; try lia.
    cbn [binary_normalize negb].
    apply lt_zero_signed_true, binary_round_signed.
  - destruct (X - Y) as [| d | d] eqn:Ed; try lia.
    cbn [binary_normalize negb].
    apply lt_zero_nonzero_signed, binary_round_pos. unfold ez. lia.
Qed.

Lemma in_order_le a b :
  is_number a -> is_number b -> (in_order a b <-> Num.le a b = true).
Proof.
  intros Ha Hb. unfold in_order. rewrite (@comparator_le a b Ha Hb).
  destruct (Num.le a b); cbn; split; congruence.
Qed.

Lemma le_trans a b c :
  Num.le a b = true -> Num.le b c = true -> Num.le a c = true.
Proof.
  unfold Num.le, SFleb.
  destruct a as [sa | sa | | sa ma ea], b as [sb | sb | | sb mb eb],
    c as [sc | sc | | sc mc ec];
    try (destruct sa; destruct sb; destruct sc; cbn; congruence);
    try (destruct sa; destruct sb; cbn; congruence);
    try (destruct sa; destruct sc; cbn; congruence);
    try (destruct sb; destruct sc; cbn; congruence);
    try (destruct sa; cbn; congruence);
    try (destruct sb; cbn; congruence);
    try (destruct sc; cbn; congruence);
    try (cbn; congruence).
  destruct sa, sb, sc; cbn [SFcompare]; try congruence;
    change (Pos.compare_cont Eq) with Pos.compare;
    destruct (Z.compare_spec ea eb), (Z.compare_spec eb ec),
      (Z.compare_spec ea ec); try lia; try congruence; subst;
    destruct (Pos.compare_spec ma mb), (Pos.compare_spec mb mc),
      (Pos.compare_spec ma mc); cbn; try lia; try congruence.
Qed.

Lemma sorted_ascending l :
  Forall is_number l -> Sorted in_order l -> ascending l.
Proof.
  intros Hn Hs.
  assert (Sorted (fun a b => Num.le a b = true) l) as H.
  { induction Hs as [| x l Hs IH Hhd]; [constructor |].
    inversion Hn as [| ? ? Hx Hl]; subst.
    constructor; [now apply IH |].
    destruct Hhd as [| y l' Hxy]; constructor.
    inversion Hl; subst. now apply in_order_le. }
  apply Sorted_StronglySorted; [| exact H].
  intros a b c. apply le_trans.
Qed.

(** Rounding never produces [NaN]. *)
Lemma shr_fexp_nonneg m e l :
  0 <= m -> 0 <= shr_m (fst (shr_fexp Num.prec Num.emax m e l)).
Proof.
  intros Hm. unfold shr_fexp, shr.
  assert (shr_m (shr_record_of_loc m l) = m) as Em
    by (destruct l as [| []]; reflexivity).
  destruct (fexp Num.prec Num.emax (Zdigits2 m + e) - e) as [| n | n];
    cbn [fst]; try (rewrite Em; exact Hm).
  rewrite iter_pos_shr by (rewrite Em; exact Hm). rewrite Em.
  apply Z.div_pos; [exact Hm | apply Z.pow_pos_nonneg; lia].
Qed.

Lemma binary_round_aux_not_nan s m e l :
  0 <= m -> binary_round_aux Num.prec Num.emax s m e l <> S754_nan.
Proof.
  intros Hm. unfold binary_round_aux.
  pose proof (@shr_fexp_nonneg m e l Hm) as H1.
  destruct (shr_fexp Num.prec Num.emax m e l) as [mrs' e'].
  cbn [fst] in H1.
  assert (0 <= round_nearest_even (shr_m mrs') (loc_of_shr_record mrs'))
    as H2.
  { destruct (loc_of_shr_record mrs') as [| []];
      cbn [round_nearest_even]; try lia.
    destruct (Z.even _); lia. }
  pose proof (@shr_fexp_nonneg _ e' loc_Exact H2) as H3.
  destruct (shr_fexp Num.prec Num.emax _ e' loc_Exact) as [mrs'' e''].
  cbn [fst] in H3.
  destruct (shr_m mrs''); try lia; try discriminate.
  destruct (Z.leb _ _); discriminate.
Qed.

Lemma binary_normalize_not_nan z e :
  binary_normalize Num.prec Num.emax z e false <> S754_nan.
Proof.
  destruct z as [| p | p]; cbn [binary_normalize]; try discriminate;
    unfold binary_round; destruct (shl_align _ _ _) as [mz ez];
    apply binary_round_aux_not_nan; lia.
Qed.

Lemma positive_or_zero_iff x :
  positive_or_zero x <-> signed false x /\ x <> S754_nan.
Proof.
  destruct x; cbn; intuition congruence.
Qed.

Lemma sub_finite_not_nan x y :
  finite x -> finite y -> Num.sub x y <> S754_nan.
Proof.
  destruct x as [sx | sx | | sx mx ex], y as [sy | sy | | sy my ey];
    cbn [finite]; intros Hx Hy; try contradiction;
    try (destruct sx; destruct sy; discriminate);
    try discriminate.
  apply binary_normalize_not_nan.
Qed.

Lemma div_not_nan x y :
  x <> S754_nan -> finite y -> y <> S754_zero false -> y <> S754_zero true ->
  Num.div x y <> S754_nan.
Proof.
  destruct x as [sx | sx | | sx mx ex], y as [[] | sy | | sy my ey];
    cbn [finite]; intros Hx Hy H1 H2; try contradiction; try congruence;
    try discriminate.
  unfold Num.div, SFdiv.
  destruct (SFdiv_core_binary _ _ _ _ _ _) as [[mz ez] lz] eqn:E.
  apply binary_round_aux_not_nan.
  unfold SFdiv_core_binary in E.
  match type of E with
  | context [Z.div_eucl ?a ?b] =>
      assert (0 <= a) as Ha;
      [| pose proof (Z.div_pos a b Ha ltac:(lia)) as Hq;
         unfold Z.div in Hq; destruct (Z.div_eucl a b) as [q r] ]
  end.
  { destruct (_ - _ - _) as [| k | k]; try lia.
    apply Z.shiftl_nonneg. lia. }
  injection E as <- _ _. exact Hq.
Qed.

(** Numbers that are zero or above. *)

Lemma positive_or_zero_le x :
  positive_or_zero x -> Num.le Num.zero x = true.
Proof.
  destruct x as [s | s | | s m e]; cbn [positive_or_zero]; intros H;
    try contradiction; subst; reflexivity.
Qed.

Lemma Math_max0_positive x :
  x <> S754_nan -> positive_or_zero (Math_max0 x).
Proof.
  intros H. apply positive_or_zero_iff. split; [apply Math_max0_cases |].
  destruct x; cbn [Math_max0]; try congruence;
    destruct (Num.lt Num.zero _); discriminate.
Qed.

Lemma add_positive x y :
  positive_or_zero x -> positive_or_zero y -> positive_or_zero (Num.add x y).
Proof.
  intros Hx Hy. apply positive_or_zero_iff in Hx, Hy.
  destruct Hx as [Sx Nx], Hy as [Sy Ny].
  apply positive_or_zero_iff. split; [now apply add_signed |].
  destruct x as [sx | sx | | sx mx ex], y as [sy | sy | | sy my ey];
    cbn [signed] in Sx, Sy; subst; try congruence; try discriminate.
  apply binary_normalize_not_nan.
Qed.

Lemma sum_positive l : forall a,
  positive_or_zero a -> Forall positive_or_zero l ->
  positive_or_zero (fold_left Num.add l a).
Proof.
  induction l as [| x l IH]; intros a Ha H; [exact Ha |].
  inversion H as [| ? ? Hx Hl]; subst. cbn [fold_left].
  apply IH; [now apply add_positive | exact Hl].
Qed.

Lemma digits2_iter_xO k : forall p,
  Zpos (digits2_pos (Pos.iter xO p k)) = Zpos (digits2_pos p) + Zpos k.
Proof.
  induction k as [| k IH] using Pos.peano_ind; intros p.
  - cbn. lia.
  - rewrite Pos.iter_succ. cbn [digits2_pos].
    rewrite Pos2Z.inj_succ, IH, Pos2Z.inj_succ. lia.
Qed.

(** An integer below 2^53 converts to itself, a finite number above or
    below zero unless it is zero. *)
Lemma of_Z_finite z : Z.abs z < 2 ^ 53 -> finite (Num.of_Z z).
Proof.
  intros Hz. unfold Num.of_Z.
  assert (forall s p, Zpos p < 2 ^ 53 ->
            finite (binary_round Num.prec Num.emax s p 0)) as H.
  { intros s p Hp. pose proof (digits2_pos_bounds p) as Hd.
    set (d := Zpos (digits2_pos p)) in *.
    assert (d <= 53) as Hle.
    { destruct (Z.le_gt_cases d 53) as [L | G]; [exact L |].
      assert (2 ^ 53 <= 2 ^ (d - 1)) by (apply Z.pow_le_mono_r; lia). lia. }
    assert (forall mz ez, Zpos (digits2_pos mz) = 53 -> ez = d - 53 ->
              finite (binary_round_aux Num.prec Num.emax s (Zpos mz) ez
                        loc_Exact)) as Haux.
    { intros mz ez Hm ->. unfold binary_round_aux, shr_fexp, shr.
      cbn [Zdigits2 shr_record_of_loc]. rewrite Hm.
      replace (fexp Num.prec Num.emax (53 + (d - 53)) - (d - 53)) with 0
        by (unfold fexp, SpecFloat.emin, Num.prec, Num.emax; lia).
      cbn [shr_m loc_of_shr_record round_nearest_even Zdigits2
             shr_record_of_loc]. rewrite Hm.
      replace (fexp Num.prec Num.emax (53 + (d - 53)) - (d - 53)) with 0
        by (unfold fexp, SpecFloat.emin, Num.prec, Num.emax; lia).
      cbn [shr_m].
      destruct (Z.leb_spec (d - 53) (Num.emax - Num.prec)) as [_ | C];
        [exact I | unfold Num.emax, Num.prec in C; lia]. }
    unfold binary_round, shl_align. fold d.
    replace (fexp Num.prec Num.emax (d + 0)) with (d - 53)
      by (unfold fexp, SpecFloat.emin, Num.prec, Num.emax; lia).
    destruct (d - 53 - 0) as [| k | k] eqn:Ek; try lia.
    - apply Haux; [fold d |]; lia.
    - apply Haux; [| reflexivity]. rewrite digits2_iter_xO. fold d. lia. }
  destruct z as [| p | p]; [exact I | |]; cbn [binary_normalize];
    apply H; lia.
Qed.

Lemma of_Z_nonzero z : 0 < z -> nonzero_signed false (Num.of_Z z).
Proof.
  intros H. destruct z as [| p | p]; try lia.
  apply binary_round_pos. unfold Num.emin, SpecFloat.emin, Num.prec, Num.emax.
  lia.
Qed.

Lemma average_positive l :
  l <> [] -> length l < 2 ^ 53 -> Forall positive_or_zero l ->
  positive_or_zero (average l).
Proof.
  intros Hne Hlen H. pose proof (nonempty_length Hne) as Hn.
  pose proof (@sum_positive l Num.zero eq_refl H) as Hs.
  pose proof (@of_Z_finite (length l) ltac:(lia)) as Hf.
  pose proof (@of_Z_nonzero (length l) ltac:(lia)) as Hz.
  apply positive_or_zero_iff. split.
  - apply average_signed; [exact Hne |].
    eapply Forall_impl; [| exact H].
    intros x Hx. now apply positive_or_zero_iff in Hx.
  - unfold average. apply div_not_nan.
    + now apply positive_or_zero_iff in Hs.
    + exact Hf.
    + intros C. rewrite C in Hz. exact Hz.
    + intros C. rewrite C in Hz. exact Hz.
Qed.

Lemma toFixed2_positive x : positive_or_zero x -> positive_or_zero (toFixed2 x).
Proof.
  intros H. pose proof H as H'. apply positive_or_zero_iff in H'.
  destruct H' as [Hs Hn].
  apply positive_or_zero_iff. split; [now apply toFixed2_signed |].
  destruct x as [s | s | | s m e]; cbn [toFixed2]; try discriminate;
    try congruence.
  destruct (at_least_1e21 m e); [discriminate |].
  destruct (hundredths m e) as [| n | n]; try discriminate.
  apply div_not_nan; try discriminate. exact I.
Qed.

(** ** The measurement harness *)

Lemma call_alg t p m o w :
  call (as_fn (alg_of t)) p m o w
  = (Normal (lps_value t p m o),
     {| console := console w;
        invocations := invocations w ++ [Normal (lps_value t p m o)] |}).
Proof. unfold call, as_fn. now rewrite alg_of_value. Qed.

Lemma timed_body_run t name p m o env iters i st w :
  exists w',
    timed_body (as_fn (alg_of t)) name p m o env iters false i st w
    = (Normal
         ({| firstResult :=
               if i =? 0 then Some (lps_value t p m o) else firstResult st;
             executionTimes := executionTimes st ++ [duration_of env i];
             memoryUsages := memoryUsages st ++ [recorded_kb env i] |},
          false), w')
    /\ invocations w' = invocations w ++ [Normal (lps_value t p m o)].
Proof.
  unfold timed_body, bind. rewrite call_alg.
  destruct (i =? 0).
  - destruct (length _ >? 1); [destruct (negb _) |];
      cbn; eexists; split; reflexivity.
  - cbn. eexists; split; reflexivity.
Qed.

Lemma timed_loop t name p m o env iters : forall count i st w,
  0 <= i ->
  exists w',
    for_break count i
      (timed_body (as_fn (alg_of t)) name p m o env iters false) st w
    = (Normal
         {| firstResult :=
              match count with
              | O => firstResult st
              | S _ => if i =? 0 then Some (lps_value t p m o)
                       else firstResult st
              end;
            executionTimes :=
              executionTimes st
              ++ List.map (duration_of env) (range i count);
            memoryUsages :=
              memoryUsages st
              ++ List.map (recorded_kb env) (range i count) |}, w')
    /\ invocations w'
       = invocations w ++ repeat (Normal (lps_value t p m o)) count.
Proof.
  induction count as [| c IH]; intros i st w Hi.
  - exists w. cbn. rewrite !app_nil_r. destruct st. auto.
  - cbn [for_break]. unfold bind at 1.
    destruct (timed_body_run t name p m o env iters i st w) as (w1 & -> & I1).
    cbn [fst snd].
    destruct (IH (i + 1)
      {| firstResult :=
           if i =? 0 then Some (lps_value t p m o) else firstResult st;
         executionTimes := executionTimes st ++ [duration_of env i];
         memoryUsages := memoryUsages st ++ [recorded_kb env i] |}
      w1 ltac:(lia)) as (w2 & E2 & I2).
    exists w2. rewrite E2.
    cbn [firstResult executionTimes memoryUsages range List.map repeat].
    rewrite <- !app_assoc. cbn [app]. split.
    + do 2 f_equal. f_equal.
      destruct c; [reflexivity |].
      destruct (Z.eqb_spec (i + 1) 0); [lia | reflexivity].
    + rewrite I2, I1, <- app_assoc. reflexivity.
Qed.

(** The same for any function that only touches the console: each round
    makes one call, and the value stored is the one the first round's call
    returned. *)
Lemma timed_body_any alg name p m o env iters i st w :
  exists r w',
    timed_body (as_fn alg) name p m o env iters false i st w
    = (Normal
         ({| firstResult := if i =? 0 then Some r else firstResult st;
             executionTimes := executionTimes st ++ [duration_of env i];
             memoryUsages := memoryUsages st ++ [recorded_kb env i] |},
          false), w')
    /\ invocations w' = invocations w ++ [Normal r].
Proof.
  unfold timed_body, bind, call, as_fn.
  destruct (alg p m o (console w)) as [r c]. exists r.
  destruct (i =? 0).
  - destruct (length _ >? 1); [destruct (negb _) |];
      cbn; eexists; split; reflexivity.
  - cbn. eexists; split; reflexivity.
Qed.

Lemma timed_loop_any alg name p m o env iters : forall count i st w,
  0 <= i ->
  exists st' w' vals,
    for_break count i (timed_body (as_fn alg) name p m o env iters false)
      st w = (Normal st', w')
    /\ invocations w' = invocations w ++ List.map Normal vals
    /\ List.length vals = count
    /\ firstResult st'
       = match vals with
         | r :: _ => if i =? 0 then Some r else firstResult st
         | [] => firstResult st
         end.
Proof.
  induction count as [| c IH]; intros i st w Hi.
  - exists st, w, []. cbn. now rewrite app_nil_r.
  - cbn [for_break]. unfold bind at 1.
    destruct (timed_body_any alg name p m o env iters i st w)
      as (r & w1 & -> & I1).
    cbn [fst snd].
    destruct (IH (i + 1)
      {| firstResult := if i =? 0 then Some r else firstResult st;
         executionTimes := executionTimes st ++ [duration_of env i];
         memoryUsages := memoryUsages st ++ [recorded_kb env i] |}
      w1 ltac:(lia)) as (st' & w2 & vals & E2 & I2 & L2 & F2).
    exists st', w2, (r :: vals). rewrite E2.
    split; [reflexivity |]. split; [| split].
    + rewrite I2, I1, <- app_assoc. reflexivity.
    + cbn [List.length]. now rewrite L2.
    + rewrite F2. cbn [firstResult].
      destruct (Z.eqb_spec (i + 1) 0) as [C | _]; [lia |].
      destruct vals; reflexivity.
Qed.

(** Sorting and trimming the samples. *)

Lemma StronglySorted_app_r {A} (R : A -> A -> Prop) (l l' : list A) :
  StronglySorted R (l ++ l') -> StronglySorted R l'.
Proof.
  induction l as [| x l IH]; cbn [app]; intros H; [exact H |].
  apply IH. now inversion H.
Qed.

Lemma StronglySorted_app_l {A} (R : A -> A -> Prop) (l l' : list A) :
  StronglySorted R (l ++ l') -> StronglySorted R l.
Proof.
  induction l as [| x l IH]; cbn [app]; intros H; [constructor |].
  inversion H as [| ? ? Hs Hall]; subst. constructor; [now apply IH |].
  apply Forall_app in Hall. tauto.
Qed.

Lemma sort_insert_perm x l : Permutation (sort_insert x l) (x :: l).
Proof.
  induction l as [| y l IH]; [reflexivity |].
  simpl. destruct (Num.lt Num.zero (Num.sub x y)); [| reflexivity].
  rewrite IH. apply perm_swap.
Qed.

Lemma sort_perm l : Permutation (sort l) l.
Proof.
  induction l as [| x l IH]; [reflexivity |].
  simpl. rewrite sort_insert_perm. now constructor.
Qed.

Lemma length_sort l : length (sort l) = length l.
Proof. unfold length. now rewrite (Permutation_length (sort_perm l)). Qed.

Lemma sort_insert_head x y l :
  in_order y x -> HdRel in_order y l -> HdRel in_order y (sort_insert x l).
Proof.
  intros Hyx H. destruct l as [| z l]; [now constructor |].
  cbn [sort_insert]. destruct (Num.lt Num.zero (Num.sub x z)).
  - constructor. now inversion H.
  - now constructor.
Qed.

Lemma sort_insert_sorted x l :
  Sorted in_order l -> Sorted in_order (sort_insert x l).
Proof.
  induction 1 as [| y l Hs IH Hhd]; [repeat constructor |].
  cbn [sort_insert]. destruct (Num.lt Num.zero (Num.sub x y)) eqn:E.
  - constructor; [exact IH |].
    apply sort_insert_head; [now apply comparator_antisym | exact Hhd].
  - constructor; [now constructor |]. constructor. exact E.
Qed.

Lemma sort_sorted l : Sorted in_order (sort l).
Proof.
  induction l as [| x l IH]; [constructor |]. now apply sort_insert_sorted.
Qed.

(** Sorted samples that are all numbers ascend. *)
Lemma sort_ascending l : Forall is_number l -> ascending (sort l).
Proof.
  intros H. apply sorted_ascending; [| apply sort_sorted].
  apply (Permutation_Forall (Permutation_sym (sort_perm l))). exact H.
Qed.

Lemma slice_split {A} (l : list A) a b :
  0 <= a <= b -> b <= length l ->
  l = firstn (Z.to_nat a) l ++ slice l a b ++ skipn (Z.to_nat b) l.
Proof.
  intros H1 H2. unfold slice. replace (Z.min b (length l)) with b by lia.
  rewrite <- (firstn_skipn (Z.to_nat a) l) at 1. f_equal.
  rewrite <- (firstn_skipn (Z.to_nat b - Z.to_nat a)
                (skipn (Z.to_nat a) l)) at 1.
  f_equal. rewrite skipn_skipn. f_equal. lia.
Qed.

(** [Math.floor(n * 0.2)] is a fifth of [n], rounded down, for the numbers
    of samples that are trimmed. *)
Lemma cutoff_fifth n :
  n = 7 \/ n = 5 -> Math_floor (Num.mul (Num.of_Z n) fifth) = n / 5.
Proof. intros [-> | ->]; reflexivity. Qed.

(** The samples kept are the sorted samples without the first and the
    last fifth (rounded down), provided there are five or more. *)
Lemma kept_samples_trimmed xs :
  sample_count (length xs) ->
  trimmed xs (kept_samples xs) (dropped_each_end (length xs)).
Proof.
  intros Hc. unfold kept_samples, dropped_each_end, trimmed.
  rewrite length_sort.
  destruct (Z.geb_spec (length xs) 5) as [H5 | H5].
  - rewrite cutoff_fifth by (unfold sample_count in Hc; lia).
    assert (0 <= length xs / 5 <= length xs - length xs / 5 /\
            length xs - length xs / 5 <= length xs) as [Ha Hb]
      by (Z.to_euclidean_division_equations; lia).
    exists (firstn (Z.to_nat (length xs / 5)) (sort xs)),
           (skipn (Z.to_nat (length xs - length xs / 5)) (sort xs)).
    rewrite <- slice_split by (rewrite ?length_sort; lia).
    split; [apply sort_perm |]. split; [apply sort_sorted |].
    split; [apply sort_ascending |]. split.
    + apply length_firstn_le. rewrite length_sort. lia.
    + unfold length in *. rewrite List.length_skipn.
      rewrite (Permutation_length (sort_perm xs)). lia.
  - exists [], []. rewrite app_nil_r. cbn [app].
    split; [apply sort_perm |]. split; [apply sort_sorted |].
    split; [apply sort_ascending |]. split; reflexivity.
Qed.

Lemma length_kept_samples xs :
  sample_count (length xs) ->
  length (kept_samples xs) = length xs - 2 * dropped_each_end (length xs).
Proof.
  intros Hc.
  destruct (kept_samples_trimmed xs Hc) as (lo & hi & P & _ & _ & Hlo & Hhi).
  apply Permutation_length in P. unfold length in *.
  rewrite !List.length_app in P. lia.
Qed.

Lemma choose_iterations_cases len :
  let n := choose_iterations len in
  (n = 7 \/ n = 5 \/ n = 3 \/ n = 1) /\
  (len < 1000 -> n = 7) /\ (1000 <= len < 5000 -> n = 5) /\
  (5000 <= len < 20000 -> n = 3) /\ (20000 <= len -> n = 1).
Proof.
  unfold choose_iterations.
  destruct (Z.ltb_spec len 1000); [lia |].
  destruct (Z.ltb_spec len 5000); [lia |].
  destruct (Z.ltb_spec len 20000); lia.
Qed.

Lemma length_map_range {B} (f : Z -> B) : forall count i,
  length (List.map f (range i count)) = Z.of_nat count.
Proof.
  unfold length. induction count as [| c IH]; intros i; [reflexivity |].
  cbn [range List.map List.length]. rewrite Nat2Z.inj_succ.
  specialize (IH (i + 1)). lia.
Qed.

Lemma rounds_cases (p : jsstring) :
  let N := Z.to_nat (choose_iterations (length p)) in
  Z.of_nat N = choose_iterations (length p) /\ sample_count (Z.of_nat N).
Proof.
  cbv zeta. destruct (choose_iterations_cases (length p)) as [H _].
  fold (choose_iterations (length p)) in H. unfold sample_count. lia.
Qed.

(** What a measurement of one of the three algorithms returns, and the
    calls it makes. *)
Lemma measure_run t name p m o env w :
  p <> [] ->
  let N := Z.to_nat (choose_iterations (length p)) in
  let v := lps_value t p m o in
  exists w',
    measurePerformance (as_fn (alg_of t)) name p m o env w
    = (normal_result v env N, w')
    /\ invocations w' = invocations w ++ repeat (Normal v) (2 + N).
Proof.
  intros Hne N v. destruct p as [| x p']; [congruence |].
  set (p := x :: p') in *.
  unfold measurePerformance.
  change (measure_body (as_fn (alg_of t)) name p m o env)
    with (_ <- log (WarmingUp name) ;;
          _ <- for_break 2 0
                 (fun _ (u : unit) =>
                    _ <- call (as_fn (alg_of t)) p m o ;; ret (u, false)) tt ;;
          _ <- log (StartingMeasurements name (choose_iterations (length p))) ;;
          st <- for_break N 0
                  (timed_body (as_fn (alg_of t)) name p m o env
                     (choose_iterations (length p)) false)
                  {| firstResult := None; executionTimes := [];
                     memoryUsages := [] |} ;;
          let times := sort (executionTimes st) in
          let mems := sort (memoryUsages st) in
          let cutoff :=
            Math_floor (Num.mul (Num.of_Z (length times)) fifth) in
          let trim := length times >=? 5 in
          let times :=
            if trim then slice times cutoff (length times - cutoff)
            else times in
          let mems :=
            if trim then slice mems cutoff (length mems - cutoff)
            else mems in
          _ <- log (Complete name (average times) (length times)
                      (average mems)) ;;
          ret {| result := match firstResult st with
                           | Some r => r
                           | None => []
                           end;
                 executionTime := toFixed2 (average times);
                 memoryUsage := toFixed2 (average mems);
                 timedOut := None;
                 memoryMeasurementIssue :=
                   Some (Num.le (average mems) Num.zero);
                 iterations := Some (length times);
                 allTimes := Some times; error := None |}).
  unfold bind at 1. cbn [log].
  unfold bind at 1. cbn [for_break]. unfold bind at 1. unfold bind at 1.
  rewrite call_alg. cbn [ret snd fst]. unfold bind at 1. unfold bind at 1.
  rewrite call_alg. cbn [ret snd fst]. unfold bind at 1. cbn [log].
  unfold bind at 1.
  match goal with
  | |- context [for_break N 0 _ ?st ?w0] =>
      destruct (@timed_loop t name p m o env (choose_iterations (length p))
                  N 0 st w0 ltac:(lia)) as (w2 & -> & I2)
  end.
  assert (exists k, N = S k) as [k Ek].
  { destruct (choose_iterations_cases (length p)) as [H _].
    fold (choose_iterations (length p)) in H. unfold N.
    exists (Nat.pred (Z.to_nat (choose_iterations (length p)))). lia. }
  fold v in I2 |- *.
  clearbody N. subst N. cbv beta iota.
  cbn [firstResult executionTimes memoryUsages app].
  change (0 =? 0) with true. cbv beta iota.
  unfold bind, log, ret. eexists. split.
  - f_equal. unfold normal_result, kept_samples.
    rewrite !length_sort, !length_map_range. reflexivity.
  - cbn [invocations]. rewrite I2. cbn [invocations].
    rewrite <- !app_assoc. reflexivity.
Qed.

Lemma measure_empty fn name m o env w :
  measurePerformance fn name [] m o env w = (empty_result, w).
Proof. reflexivity. Qed.

(** A measurement of any function that only touches the console: the
    calls it records, and the result it reports. *)
Lemma measure_any alg name p m o env w :
  p <> [] ->
  let N := Z.to_nat (choose_iterations (length p)) in
  let run := measurePerformance (as_fn alg) name p m o env w in
  exists vals,
    invocations (snd run) = invocations w ++ List.map Normal vals /\
    List.length vals = (2 + N)%nat /\
    nth_error vals 2 = Some (result (fst run)).
Proof.
  intros Hne N. cbv zeta. destruct p as [| x p']; [congruence |].
  remember (measurePerformance (as_fn alg) name (x :: p') m o env w)
    as run eqn:Erun.
  unfold measurePerformance, measure_body in Erun.
  set (p := x :: p') in *. cbv zeta in Erun.
  unfold bind at 1 in Erun. cbn [log] in Erun.
  unfold bind at 1 in Erun. cbn [for_break] in Erun.
  unfold bind at 1 in Erun. unfold bind at 1 in Erun.
  unfold call at 1, as_fn at 1 in Erun. cbn [console invocations] in Erun.
  match type of Erun with
  | context [alg p m o ?c] => destruct (alg p m o c) as [r1 c1]
  end.
  cbn [ret snd fst] in Erun.
  unfold bind at 1 in Erun. unfold bind at 1 in Erun.
  unfold call at 1, as_fn at 1 in Erun. cbn [console invocations] in Erun.
  match type of Erun with
  | context [alg p m o ?c] => destruct (alg p m o c) as [r2 c2]
  end.
  cbn [ret snd fst] in Erun.
  unfold bind at 1 in Erun. cbn [log] in Erun. unfold bind at 1 in Erun.
  cbn [console invocations] in Erun.
  match type of Erun with
  | context [for_break _ 0 _ ?st ?w0] =>
      destruct (@timed_loop_any alg name p m o env
                  (choose_iterations (length p)) N 0 st w0 ltac:(lia))
        as (st' & w2 & vals & E & I2 & L2 & F2)
  end.
  fold N in Erun. rewrite E in Erun. unfold bind, log, ret in Erun.
  subst run. cbn [fst snd invocations result].
  cbn [invocations firstResult] in I2, F2.
  exists (r1 :: r2 :: vals).
  split; [| split].
  - rewrite I2. cbn [List.map]. rewrite <- !app_assoc. reflexivity.
  - cbn [List.length]. now rewrite L2.
  - cbn [nth_error]. rewrite F2.
    destruct vals as [| r vals']; [| reflexivity].
    assert (N <> O) as HN.
    { destruct (rounds_cases p) as [_ Hc]. fold N in Hc.
      unfold sample_count in Hc. lia. }
    cbn [List.length] in L2. congruence.
Qed.

(** The record a measurement returns does not depend on the world it
    starts in. *)
Lemma measure_fst_indep t name p m o env w w0 :
  fst (measurePerformance (as_fn (alg_of t)) name p m o env w)
  = fst (measurePerformance (as_fn (alg_of t)) name p m o env w0).
Proof.
  destruct p as [| x p']; [reflexivity |].
  destruct (@measure_run t name (x :: p') m o env w ltac:(discriminate))
    as (w' & -> & _).
  destruct (@measure_run t name (x :: p') m o env w0 ltac:(discriminate))
    as (w0' & -> & _).
  reflexivity.
Qed.

Lemma algorithmExecutionOrder_cases random :
  let naive := {| name := "naive"; fn := as_fn naiveLPS |} in
  let dp := {| name := "dp"; fn := as_fn dpLPS |} in
  let manacher := {| name := "manacher"; fn := as_fn manacherLPS |} in
  algorithmExecutionOrder random
  = if Qfloor (random * 2) =? 0 then [manacher; dp; naive]
    else [manacher; naive; dp].
Proof.
  unfold algorithmExecutionOrder, algorithms, shuffle.
  cbn [find filter name String.eqb Ascii.eqb Bool.eqb negb].
  destruct (Qfloor (random * 2) =? 0); reflexivity.
Qed.

Lemma measure_isolated t name raw env w :
  entry_of
    (fst (measurePerformance (as_fn (alg_of t)) name
            (processedStr (preprocessString raw))
            (indexMapping (preprocessString raw)) raw env w))
  = isolated t name raw env.
Proof. unfold isolated. now rewrite (measure_fst_indep _ _ _ _ _ _ w empty_world). Qed.

(** The samples of a measurement. *)

Lemma map_range_constant {B} (f : Z -> B) (a : B) : forall count i,
  (forall j, i <= j < i + Z.of_nat count -> f j = a) ->
  List.map f (range i count) = repeat a count.
Proof.
  induction count as [| c IH]; intros i H; [reflexivity |].
  cbn [range List.map repeat]. rewrite H by lia. f_equal.
  apply IH. intros j Hj. apply H. lia.
Qed.

Lemma recorded_kb_signed env : forall count i,
  Forall (signed false) (List.map (recorded_kb env) (range i count)).
Proof.
  induction count as [| c IH]; intros i; [constructor |].
  cbn [range List.map]. constructor; [| apply IH].
  apply Math_max0_cases.
Qed.

Lemma trimmed_subset xs kept k x :
  trimmed xs kept k -> In x kept -> In x xs.
Proof.
  intros (lo & hi & P & _) Hin. apply (Permutation_in _ P).
  apply in_or_app. right. apply in_or_app. now left.
Qed.

Lemma kept_samples_nonempty xs :
  sample_count (length xs) -> kept_samples xs <> [].
Proof.
  intros H C. pose proof (length_kept_samples xs H) as HL.
  rewrite C in HL. change (length (@nil Num.t)) with 0 in HL.
  unfold dropped_each_end in HL.
  destruct H as [H | [H | [H | H]]]; rewrite H in HL; vm_compute in HL; lia.
Qed.

Lemma Forall_map_range {B} (f : Z -> B) (P : B -> Prop) : forall count i,
  (forall j, i <= j < i + Z.of_nat count -> P (f j)) ->
  Forall P (List.map f (range i count)).
Proof.
  induction count as [| c IH]; intros i H; [constructor |].
  cbn [range List.map]. constructor; [apply H; lia |].
  apply IH. intros j Hj. apply H. lia.
Qed.

(** With heap sizes below 2^53 bytes a memory sample is zero or above. *)
Lemma recorded_kb_positive env i :
  Z.abs (baselineMemory (env i)) < 2 ^ 53 ->
  Z.abs (finalMemory (env i)) < 2 ^ 53 ->
  positive_or_zero (recorded_kb env i).
Proof.
  intros Hb Hf. apply Math_max0_positive. unfold raw_delta_kb.
  apply div_not_nan; try discriminate; [| exact I].
  apply sub_finite_not_nan; now apply of_Z_finite.
Qed.

Lemma kept_memory_positive env N :
  sample_count (Z.of_nat N) ->
  (forall i, 0 <= i < Z.of_nat N ->
     Z.abs (baselineMemory (env i)) < 2 ^ 53 /\
     Z.abs (finalMemory (env i)) < 2 ^ 53) ->
  positive_or_zero
    (average (kept_samples (List.map (recorded_kb env) (range 0 N)))).
Proof.
  intros Hc Hb. set (xs := List.map (recorded_kb env) (range 0 N)).
  assert (sample_count (length xs)) as Hc'
    by (unfold xs; now rewrite length_map_range).
  pose proof (length_kept_samples xs Hc') as HL.
  assert (length xs <= 7) as H7 by (unfold sample_count in Hc'; lia).
  assert (0 <= dropped_each_end (length xs)) as Hd.
  { unfold dropped_each_end. destruct (length xs >=? 5); [| lia].
    apply Z.div_pos; [apply length_nonneg | lia]. }
  apply average_positive.
  - now apply kept_samples_nonempty.
  - rewrite HL. lia.
  - apply Forall_forall. intros y Hy.
    pose proof (@trimmed_subset _ _ _ y (kept_samples_trimmed _ Hc') Hy) as Hin.
    assert (Forall positive_or_zero xs) as Hall.
    { apply Forall_map_range. intros j Hj.
      destruct (Hb j ltac:(lia)). now apply recorded_kb_positive. }
    rewrite Forall_forall in Hall. now apply Hall.
Qed.

(** The memory samples a measurement averages are not negative, and
    neither is their average. *)
Lemma kept_memory_signed env N :
  sample_count (Z.of_nat N) ->
  let mems := kept_samples (List.map (recorded_kb env) (range 0 N)) in
  mems <> [] /\ Forall (signed false) mems /\ signed false (average mems).
Proof.
  intros Hc mems.
  assert (sample_count (length (List.map (recorded_kb env) (range 0 N))))
    as Hc' by now rewrite length_map_range.
  assert (mems <> []) as Hk by now apply kept_samples_nonempty.
  assert (Forall (signed false) mems) as Hall.
  { apply Forall_forall. intros y Hy.
    pose proof (@trimmed_subset _ _ _ y (kept_samples_trimmed _ Hc') Hy) as Hin.
    pose proof (recorded_kb_signed env N 0) as H.
    rewrite Forall_forall in H. now apply H. }
  split; [exact Hk |]. split; [exact Hall |]. now apply average_signed.
Qed.

(** ** Boundary cases *)

Lemma all_identical_best s b :
  s <> [] -> all_identical s -> best_of s b ->
  b = {| maxLength := length s; maxStart := 0 |}.
Proof.
  intros Hne [c Hc] Hb. pose proof (nonempty_length Hne) as Hn.
  assert (isPal s 0 (length s - 1)) as Hp.
  { repeat split; try lia. intros k Hk.
    destruct (@get_in_range _ s k ltac:(lia)) as [x Ex].
    destruct (@get_in_range _ s (0 + (length s - 1) - k) ltac:(lia))
      as [y Ey].
    rewrite Ex, Ey. f_equal.
    rewrite (Hc x (get_In _ _ Ex)), (Hc y (get_In _ _ Ey)). reflexivity. }
  destruct (best_of_bounds Hb) as (H0 & H1 & H2).
  destruct Hb as (_ & _ & Hm). destruct (Hm _ _ Hp) as [Hle Htie].
  destruct b as [L ms]. cbn [maxLength maxStart] in *.
  assert (L = length s) by lia. subst L. f_equal. lia.
Qed.

Lemma span_of_whole (s : jsstring) :
  span_of s {| maxLength := length s; maxStart := 0 |} = s.
Proof.
  unfold span_of. cbn [maxLength maxStart].
  pose proof (length_nonneg s).
  rewrite substring_in_range by lia.
  change (Z.to_nat 0) with O. cbn [skipn].
  apply firstn_all2. unfold length. lia.
Qed.

Lemma substring_single {A} (s : list A) i x :
  get s i = Some x -> substring s (Some i) (Some (i + 1)) = [x].
Proof.
  intros E. pose proof (get_Some_range _ _ E) as Hr.
  apply list_ext_get.
  - rewrite length_substring by lia. unfold length. simpl. lia.
  - rewrite length_substring by lia. intros k Hk.
    rewrite get_substring by lia.
    assert (k = 0) as -> by lia. rewrite Z.add_0_r. exact E.
Qed.

Lemma get_range : forall count i k,
  0 <= k < Z.of_nat count -> get (range i count) k = Some (i + k).
Proof.
  induction count as [| c IH]; intros i k Hk; [lia |].
  rewrite get_nth by lia. cbn [range].
  destruct (Z.eq_dec k 0) as [-> | Hne].
  - simpl. f_equal. lia.
  - replace (Z.to_nat k) with (S (Z.to_nat (k - 1))) by lia.
    cbn [nth_error]. rewrite <- get_nth by lia.
    rewrite IH by lia. f_equal. lia.
Qed.

Lemma positions_all s :
  Forall (fun c => is_alnum c = true) s ->
  forall off, positions s off = range off (List.length s).
Proof.
  induction 1 as [| x s Hx Hs IH]; intros off; [reflexivity |].
  cbn [positions List.length range]. now rewrite Hx, IH.
Qed.

Lemma canonicalize_all s :
  Forall (fun c => is_alnum c = true) s -> canonicalize s = List.map lower s.
Proof.
  intros H. unfold canonicalize, toLowerCase, strip_non_alnum.
  f_equal. induction H as [| x s Hx Hs IH]; [reflexivity |].
  simpl. now rewrite Hx, IH.
Qed.

(** A raw text made of one alphanumeric code unit repeated comes back
    whole. *)
Lemma run_on_repeat t c n :
  is_alnum c = true -> (1 <= n)%nat ->
  run_on_raw (alg_of t) (repeat c n) = repeat c n.
Proof.
  intros Hc Hn. set (raw := repeat c n).
  assert (Forall (fun x => is_alnum x = true) raw) as Hall.
  { apply Forall_forall. intros x Hx. apply repeat_spec in Hx. now subst. }
  assert (length raw = Z.of_nat n) as Hlen
    by (unfold length, raw; now rewrite repeat_length).
  assert (length (canonicalize raw) = Z.of_nat n) as Hlc.
  { rewrite canonicalize_all by exact Hall. unfold length in *.
    now rewrite List.length_map. }
  destruct (run_on_raw_cases t raw) as [[E _] | (b & Hb & ->)].
  { rewrite E in Hlc. change (length []) with 0 in Hlc. lia. }
  assert (canonicalize raw <> []) as Hne.
  { intros E. rewrite E in Hlc. change (length []) with 0 in Hlc. lia. }
  assert (all_identical (canonicalize raw)) as Hid.
  { exists (lower c). intros x Hx.
    rewrite canonicalize_all in Hx by exact Hall.
    apply in_map_iff in Hx. destruct Hx as (y & <- & Hy).
    apply repeat_spec in Hy. now subst. }
  rewrite (all_identical_best Hne Hid Hb).
  unfold map_back. cbn [maxLength maxStart].
  rewrite positions_all by exact Hall.
  replace (List.length raw) with n by (unfold length in Hlen; lia).
  rewrite !get_range by lia. cbn [add1 option_map].
  rewrite substring_in_range by lia.
  change (Z.to_nat 0) with O. cbn [skipn].
  apply firstn_all2. unfold length in *. lia.
Qed.

Lemma expand_while_monotone s n : forall fuel left right b,
  let b' := expand_while fuel s n left right b in
  b' = b \/ maxLength b < maxLength b'.
Proof.
  induction fuel as [| f IH]; intros l r b; [left; reflexivity |].
  cbn [expand_while].
  destruct ((l >=? 0) && (r <? n) && strict_eq (get s l) (get s r));
    [| left; reflexivity].
  destruct (Z.gtb_spec (r - l + 1) (maxLength b)) as [Hgt | Hle].
  - right.
    destruct (IH (l - 1) (r + 1) {| maxLength := r - l + 1; maxStart := l |})
      as [-> | Hlt]; cbn [maxLength] in *; lia.
  - apply IH.
Qed.

(** ** The closing statements of the algorithms *)






(** * The properties of the specification *)

(** C1. For every raw input string, the substring returned by each of the
    three algorithms ([naiveLPS], [dpLPS], [manacherLPS]), once
    canonicalized (non-alphanumeric code units removed, the rest
    lower-cased), equals its own reverse. *)
Theorem results_are_palindromes (raw : jsstring) :
  palindrome (canonicalize (run_on_raw naiveLPS raw)) /\
  palindrome (canonicalize (run_on_raw dpLPS raw)) /\
  palindrome (canonicalize (run_on_raw manacherLPS raw)).
Proof.
  assert (forall t, palindrome (canonicalize (run_on_raw (alg_of t) raw)))
    as H.
  { intros t. destruct (leftmost_longest_run t raw) as (_ & _ & Hp & _).
    exact Hp. }
  exact (conj (H Naive) (conj (H DP) (H Manacher))).
Qed.

(** C2. For every raw input string the three algorithms return substrings
    of equal canonical length, and that length is the length of a longest
    palindromic substring of the canonical string. *)
Theorem algorithms_agree_on_optimal_length (raw : jsstring) :
  let len alg := length (canonicalize (run_on_raw alg raw)) in
  lps_length (canonicalize raw) (len naiveLPS) /\
  len dpLPS = len naiveLPS /\ len manacherLPS = len naiveLPS.
Proof.
  cbv zeta.
  assert (forall t, lps_length (canonicalize raw)
                      (length (canonicalize (run_on_raw (alg_of t) raw))))
    as H.
  { intros t. apply leftmost_longest_lps_length, leftmost_longest_run. }
  split; [exact (H Naive) |]. split.
  - exact (lps_length_unique (H DP) (H Naive)).
  - exact (lps_length_unique (H Manacher) (H Naive)).
Qed.




(** C4, as stated, fails: the code unit 233 (LATIN SMALL LETTER E WITH
    ACUTE), a Unicode letter, is dropped, alone or between ASCII letters. *)
Lemma unicode_letter_dropped :
  spec_alphanumeric_latin1 233 = true /\
  processedStr (preprocessString [233]) = [] /\
  indexMapping (preprocessString [233]) = [] /\
  processedStr (preprocessString (lit "a" ++ [233] ++ lit "B")) = lit "ab" /\
  indexMapping (preprocessString (lit "a" ++ [233] ++ lit "B")) = [0; 2].
Proof. repeat split. Qed.

(** C4, amended. For every string [s], [preprocessString s] keeps a code
    unit iff it is in the ASCII class [[a-zA-Z0-9]], lower-cases the kept
    ones and drops all others; [indexMapping] has one entry per kept code
    unit, entry [k] is the offset in [s] of the code unit that became
    [processedStr[k]], the entries are strictly increasing, and the offsets
    present are exactly those of the alphanumeric code units of [s]. *)
Theorem preprocessString_ascii_rule (s : jsstring) :
  let d := preprocessString s in
  processedStr d = List.map lower (filter is_alnum s) /\
  length (indexMapping d) = length (processedStr d) /\
  (forall k i, get (indexMapping d) k = Some i ->
     exists c, get s i = Some c /\ is_alnum c = true /\
               get (processedStr d) k = Some (lower c)) /\
  StronglySorted Z.lt (indexMapping d) /\
  (forall i c, get s i = Some c ->
     (is_alnum c = true <-> In i (indexMapping d))).
Proof.
  cbv zeta. destruct (preprocessString_spec s) as [-> ->].
  split; [reflexivity |]. split; [now rewrite length_canonicalize |].
  split; [| split; [apply positions_increasing |]].
  - intros k i H. pose proof (get_Some_range _ _ H) as Hk.
    rewrite get_nth in H by lia.
    destruct (positions_get _ _ _ H) as (Hr & c & Hc & Hal & Hp).
    rewrite Z.sub_0_r in Hc. exists c.
    rewrite !get_nth by lia. auto.
  - intros i c Hg. pose proof (get_Some_range _ _ Hg) as Hr.
    rewrite get_nth in Hg by lia. split.
    + intros Hal. pose proof (positions_complete s 0 _ Hg Hal) as Hin.
      now rewrite Z.add_0_l, Z2Nat.id in Hin by lia.
    + intros Hin. apply In_nth_error in Hin. destruct Hin as [k Hk].
      destruct (positions_get _ _ _ Hk) as (_ & c' & Hc' & Hal & _).
      rewrite Z.sub_0_r in Hc'. congruence.
Qed.

(** C8. The expansion loop replaces the best span only by a strictly longer
    one, so each algorithm returns the leftmost of the longest palindromic
    substrings of the canonical string; on "babad" all three return "bab"
    (canonical length 3), on "cbbd" they return "bb" (length 2). *)
Theorem first_found_wins :
  (forall fuel s n left right b,
     let b' := expand_while fuel s n left right b in
     b' = b \/ maxLength b < maxLength b') /\
  (forall t raw,
     leftmost_longest (canonicalize raw)
       (canonicalize (run_on_raw (alg_of t) raw))) /\
  (forall t,
     run_on_raw (alg_of t) (lit "babad") = lit "bab" /\
     length (canonicalize (run_on_raw (alg_of t) (lit "babad"))) = 3 /\
     run_on_raw (alg_of t) (lit "cbbd") = lit "bb" /\
     length (canonicalize (run_on_raw (alg_of t) (lit "cbbd"))) = 2).
Proof.
  split; [intros; apply expand_while_monotone |].
  split; [apply leftmost_longest_run |].
  intros t. destruct t; repeat split.
Qed.

(** C9. Boundary behaviour of the three algorithms on a raw text: an empty
    canonical string gives the empty result; a canonical string of one
    code unit gives the raw code unit the mapping points to; a canonical
    string of identical code units is covered whole by the result, and a
    raw text that is one alphanumeric code unit repeated is returned as it
    is. *)
Theorem boundary_behaviour (t : AlgTag) (raw : jsstring) :
  (canonicalize raw = [] -> run_on_raw (alg_of t) raw = []) /\
  (forall c, canonicalize raw = [c] ->
     exists i x,
       get (indexMapping (preprocessString raw)) 0 = Some i /\
       get raw i = Some x /\ lower x = c /\
       run_on_raw (alg_of t) raw = [x]) /\
  (all_identical (canonicalize raw) ->
     canonicalize (run_on_raw (alg_of t) raw) = canonicalize raw) /\
  (forall c n, is_alnum c = true -> (1 <= n)%nat -> raw = repeat c n ->
     run_on_raw (alg_of t) raw = raw).
Proof.
  split; [| split; [| split]].
  - intros E. destruct (run_on_raw_cases t raw) as [[_ H] | (b & Hb & _)];
      [exact H |].
    rewrite E in Hb. destruct (best_of_bounds Hb) as (? & ? & H2).
    change (length []) with 0 in H2. lia.
  - intros c E.
    destruct (run_on_raw_cases t raw) as [[E' _] | (b & Hb & ->)];
      [congruence |].
    destruct (preprocessString_spec raw) as [_ ->].
    assert (b = {| maxLength := 1; maxStart := 0 |}) as ->.
    { apply (best_of_unique Hb). apply best_of_single. now rewrite E. }
    destruct (@map_back_positions raw {| maxLength := 1; maxStart := 0 |})
      as (ia & ic & Ea & Ec & Hr & Hlt & Em & _);
      cbn [maxLength maxStart]; try lia.
    { rewrite E. unfold length. simpl. lia. }
    cbn [maxLength maxStart] in Ea, Ec.
    replace (0 + 1 - 1) with 0 in Ec by lia.
    assert (ic = ia) as -> by congruence.
    pose proof Ea as Na. rewrite get_nth in Na by lia.
    destruct (positions_get _ _ _ Na) as (_ & x & Hx & _ & Hk).
    rewrite Z.sub_0_r in Hx. rewrite E in Hk. simpl in Hk.
    exists ia, x. split; [exact Ea |].
    assert (get raw ia = Some x) as Gx by (rewrite get_nth by lia; exact Hx).
    split; [exact Gx |]. split; [congruence |].
    rewrite Em. now apply substring_single.
  - intros Hid.
    destruct (canonical_run t raw) as [[E ->] | (b & Hb & ->)];
      [now rewrite E |].
    assert (canonicalize raw <> []) as Hne.
    { intros E. rewrite E in Hb. destruct (best_of_bounds Hb) as (? & ? & H2).
      change (length []) with 0 in H2. lia. }
    rewrite (all_identical_best Hne Hid Hb). apply span_of_whole.
  - intros c n Hc Hn ->. now apply run_on_repeat.
Qed.

(** The boundary cases on sample texts: no alphanumeric code unit, one
    of them, the same letter in both cases, and "aaaa". *)
Lemma boundary_behaviour_witness :
  run_on_raw (alg_of Naive) (lit "?!") = [] /\
  (exists i x,
     get (indexMapping (preprocessString (lit "-A-"))) 0 = Some i /\
     get (lit "-A-") i = Some x /\ lower x = 97 /\
     run_on_raw (alg_of DP) (lit "-A-") = [x]) /\
  canonicalize (run_on_raw (alg_of DP) (lit "a-A a"))
  = canonicalize (lit "a-A a") /\
  run_on_raw (alg_of Manacher) (lit "aaaa") = lit "aaaa".
Proof.
  split; [| split; [| split]].
  - apply (proj1 (boundary_behaviour Naive (lit "?!"))). reflexivity.
  - apply (proj1 (proj2 (boundary_behaviour DP (lit "-A-"))) 97).
    reflexivity.
  - apply (proj1 (proj2 (proj2 (boundary_behaviour DP (lit "a-A a"))))).
    exists 97. vm_compute. intros x H.
    repeat (destruct H as [H | H]; [now symmetry |]). destruct H.
  - apply (proj2 (proj2 (proj2 (boundary_behaviour Manacher (lit "aaaa"))))
             97 4%nat); [reflexivity | lia | reflexivity].
Defined.

(** C10. Each algorithm neither reads nor writes the one global it
    touches, the console: from any console it returns the same value and
    leaves the console as it was.  For the three algorithms every one of
    the 2 + N calls of a measurement (none for an empty canonical string)
    returns the algorithm's value, and that value is the result reported.
    The result is taken from the first timed call alone: a measurement of
    any function that returns strings and only uses the console, whatever
    its calls return, reports the value of its third call. *)
Theorem algorithms_deterministic (t : AlgTag) (p : jsstring) (m : list Z)
  (o : jsstring) :
  (forall c, alg_of t p m o c = (lps_value t p m o, c)) /\
  (forall name env w,
     let N := Z.to_nat (choose_iterations (length p)) in
     let run := measurePerformance (as_fn (alg_of t)) name p m o env w in
     result (fst run) = lps_value t p m o /\
     invocations (snd run)
     = invocations w
       ++ repeat (Normal (lps_value t p m o))
            (match p with [] => 0 | _ => 2 + N end)) /\
  (forall alg name env w,
     let N := Z.to_nat (choose_iterations (length p)) in
     let run := measurePerformance (as_fn alg) name p m o env w in
     match p with
     | [] => invocations (snd run) = invocations w
     | _ =>
         exists vals,
           invocations (snd run) = invocations w ++ List.map Normal vals /\
           List.length vals = (2 + N)%nat /\
           nth_error vals 2 = Some (result (fst run))
     end).
Proof.
  split; [intros; apply alg_of_value |]. split.
  - intros name env w. cbv zeta. destruct p as [| x p'].
    + rewrite measure_empty. cbn [fst snd repeat]. split.
      * unfold lps_value. now rewrite alg_of_empty.
      * now rewrite app_nil_r.
    + destruct (@measure_run t name (x :: p') m o env w ltac:(discriminate))
        as (w' & -> & Hi).
      cbn [fst snd]. split; [reflexivity | exact Hi].
  - intros alg name env w. cbv zeta. destruct p as [| x p'].
    + now rewrite measure_empty.
    + apply measure_any. discriminate.
Qed.

(** C5, as stated, fails: when every round ends with a kilobyte less on
    the heap than it began, the heap growth computed for each round is -1
    but the sample recorded and printed is 0, and the reported memory
    usage is 0. *)
Lemma memory_samples_clamped :
  let run := measurePerformance (as_fn naiveLPS) "naive" (lit "a") [0]
               (lit "a") shrinking_heap_env empty_world in
  raw_delta_kb shrinking_heap_env 0 = Num.of_Z (- 1) /\
  recorded_kb shrinking_heap_env 0 = Num.zero /\
  In (IterationReport "naive" 1 7 (Num.of_Z 1) Num.zero)
    (console (snd run)) /\
  memoryUsage (fst run) = Num.zero /\
  memoryMeasurementIssue (fst run) = Some true.
Proof.
  vm_compute. repeat split. right. right. left. reflexivity.
Qed.

(** C5, amended.  In a measurement of a non-empty canonical string every
    memory sample is the heap growth of its round in kilobytes passed
    through [Math.max(0, .)]: the growth itself when it is above zero and
    zero when it is zero or below, never a negative number.  The samples
    are sorted and trimmed; their average is not negative either, it is
    reported rounded to two decimals, and [memoryMeasurementIssue] is the
    test that this average is at most zero.  When no round's heap growth
    is above zero the flag is set and the memory usage reported is 0.
    With heap sizes below 2^53 bytes every sample and the memory usage
    reported are numbers, zero or above. *)
Theorem memory_flag_after_clamping (t : AlgTag) (name : string)
  (p : jsstring) (m : list Z) (o : jsstring) (env : Z -> Reading)
  (w : World) :
  p <> [] ->
  let N := Z.to_nat (choose_iterations (length p)) in
  let r := fst (measurePerformance (as_fn (alg_of t)) name p m o env w) in
  (forall i,
     not_negative (recorded_kb env i) /\
     (Num.lt Num.zero (raw_delta_kb env i) = true ->
      recorded_kb env i = raw_delta_kb env i) /\
     (Num.le (raw_delta_kb env i) Num.zero = true ->
      recorded_kb env i = Num.zero)) /\
  (exists mems,
     trimmed (List.map (recorded_kb env) (range 0 N)) mems
       (dropped_each_end (Z.of_nat N)) /\
     Forall not_negative mems /\
     not_negative (average mems) /\
     memoryUsage r = toFixed2 (average mems) /\
     not_negative (memoryUsage r) /\
     memoryMeasurementIssue r = Some (Num.le (average mems) Num.zero)) /\
  ((forall i, 0 <= i < Z.of_nat N ->
      Num.le (raw_delta_kb env i) Num.zero = true) ->
   memoryMeasurementIssue r = Some true /\ memoryUsage r = Num.zero) /\
  ((forall i, 0 <= i < Z.of_nat N ->
      Z.abs (baselineMemory (env i)) < 2 ^ 53 /\
      Z.abs (finalMemory (env i)) < 2 ^ 53) ->
   (forall i, 0 <= i < Z.of_nat N ->
      Num.le Num.zero (recorded_kb env i) = true) /\
   Num.le Num.zero (memoryUsage r) = true).
Proof.
  intros Hne N r.
  destruct (@measure_run t name p m o env w Hne) as (w' & E & _).
  fold N in E. unfold r. rewrite E. cbn [fst]. clear E r.
  destruct (rounds_cases p) as [_ Hc]. fold N in Hc.
  split; [| split; [| split]].
  4: { intros Hb. split.
       - intros i Hi. destruct (Hb i Hi).
         now apply positive_or_zero_le, recorded_kb_positive.
       - cbn [normal_result memoryUsage].
         apply positive_or_zero_le, toFixed2_positive.
         now apply kept_memory_positive. }
  - intros i. destruct (Math_max0_cases (raw_delta_kb env i))
      as (Hs & Hpos & Hzero).
    split; [now apply signed_not_negative |]. split; [exact Hpos |].
    intros Hle. destruct (le_zero_cases _ Hle) as [Hlt Hnan].
    now apply Hzero.
  - destruct (kept_memory_signed env N Hc) as (Hk & Hall & Havg).
    eexists. split.
    { pose proof (kept_samples_trimmed
                    (List.map (recorded_kb env) (range 0 N))) as Htr.
      rewrite length_map_range in Htr. exact (Htr Hc). }
    split.
    { eapply Forall_impl; [| exact Hall].
      intros x. apply signed_not_negative. }
    split; [now apply signed_not_negative |].
    split; [reflexivity |].
    split; [| reflexivity].
    cbn [normal_result memoryUsage].
    now apply signed_not_negative, toFixed2_signed.
  - intros Hle.
    assert (List.map (recorded_kb env) (range 0 N)
            = repeat Num.zero N) as Ez.
    { apply map_range_constant. intros j Hj.
      destruct (Math_max0_cases (raw_delta_kb env j)) as (_ & _ & Hzero).
      destruct (le_zero_cases _ (Hle j ltac:(lia))) as [Hlt Hnan].
      now apply Hzero. }
    cbn [normal_result memoryMeasurementIssue memoryUsage]. rewrite Ez.
    unfold sample_count in Hc.
    assert (N = 7 \/ N = 5 \/ N = 3 \/ N = 1)%nat as HN by lia.
    destruct HN as [-> | [-> | [-> | ->]]]; split; reflexivity.
Qed.

(** The amended C5 on a one-letter text whose heap shrinks by a kilobyte
    in every round. *)
Lemma memory_flag_after_clamping_witness :
  lit "a" <> [] /\
  (forall i, 0 <= i < 7 ->
     Num.le (raw_delta_kb shrinking_heap_env i) Num.zero = true) /\
  memoryMeasurementIssue
    (fst (measurePerformance (as_fn (alg_of Naive)) "naive" (lit "a") [0]
            (lit "a") shrinking_heap_env empty_world))
  = Some true /\
  exists mems,
    trimmed (List.map (recorded_kb shrinking_heap_env) (range 0 7)) mems 1 /\
    not_negative (average mems).
Proof.
  assert (lit "a" <> []) as H1 by (vm_compute; discriminate).
  assert (forall i, 0 <= i < 7 ->
            Num.le (raw_delta_kb shrinking_heap_env i) Num.zero = true)
    as H2 by (intros i _; reflexivity).
  split; [exact H1 |]. split; [exact H2 |].
  destruct (@memory_flag_after_clamping Naive "naive" (lit "a") [0]
              (lit "a") shrinking_heap_env empty_world H1)
    as (_ & (mems & Htr & _ & Havg & _) & Hflag & _).
  split; [exact (proj1 (Hflag H2)) |].
  exists mems. split; [exact Htr | exact Havg].
Defined.

(** C6: the code does not do what the claim, and its own comments ("Set
    up timeout protection", "Break early if timed out"), say.  The timer
    callback that would set [timedOut] cannot run while the synchronous
    loop does, so whatever the clock readings a measurement of one of the
    three algorithms makes all its calls and returns a record without the
    [timedOut] flag, which the routes report as [timedOut: false].  On the
    one-letter text with rounds of 130 seconds each, every round is over
    the budget of 120000 ms, yet all nine calls are made and the record
    carries the result "a", no flag, and an execution time of 130000. *)
Theorem timeout_is_never_signalled :
  (forall t name p m o env w,
     let N := Z.to_nat (choose_iterations (length p)) in
     let run := measurePerformance (as_fn (alg_of t)) name p m o env w in
     timedOut (fst run) = None /\
     entry_timedOut (entry_of (fst run)) = false /\
     result (fst run) = lps_value t p m o /\
     invocations (snd run)
     = invocations w
       ++ repeat (Normal (lps_value t p m o))
            (match p with [] => 0 | _ => 2 + N end)) /\
  (let run := measurePerformance (as_fn naiveLPS) "naive" (lit "a") [0]
                (lit "a") slow_env empty_world in
   (forall i,
      Num.lt (Num.of_Z MAX_EXECUTION_TIME) (duration_of slow_env i) = true) /\
   invocations (snd run) = repeat (Normal (lit "a")) 9 /\
   timedOut (fst run) = None /\
   result (fst run) = lit "a" /\
   executionTime (fst run) = Num.of_Z 130000).
Proof.
  split.
  - intros t name p m o env w. cbv zeta. destruct p as [| x p'].
    + rewrite measure_empty. cbn [fst snd repeat].
      split; [reflexivity |]. split; [reflexivity |]. split.
      * unfold lps_value. now rewrite alg_of_empty.
      * now rewrite app_nil_r.
    + destruct (@measure_run t name (x :: p') m o env w ltac:(discriminate))
        as (w' & -> & Hi).
      cbn [fst snd]. repeat split. exact Hi.
  - cbv zeta. split; [intros i; reflexivity |]. vm_compute. repeat split.
Qed.

(** C7, as stated, fails: for an empty canonical string, whose length is
    under 1,000, the algorithm is never called, neither for warm-up nor
    for a timed round, and no iteration count is reported. *)
Lemma empty_input_not_measured :
  let run := measurePerformance (as_fn naiveLPS) "naive" [] [] (lit "?!")
               steady_env empty_world in
  choose_iterations (length (@nil Z)) = 7 /\
  invocations (snd run) = [] /\
  iterations (fst run) = None /\
  fst run = empty_result.
Proof. repeat split. Qed.

(** C7, amended.  A measurement of a non-empty canonical string calls the
    algorithm 2 + N times: twice for warm-up and N times timed, N being 7,
    5, 3 or 1 as the canonical length is under 1,000, under 5,000, under
    20,000 or not.  The N durations and the N memory samples are each
    sorted on their own with the comparator [(a, b) => a - b] and, when N
    is at least 5, the first and the last fifth (rounded down) of each
    sorted series are dropped; what is reported is the average of the
    samples kept, computed in double precision from left to right and
    rounded to two decimals, with the samples kept in [allTimes] and their
    number in [iterations]. *)
Theorem sampling_procedure (t : AlgTag) (name : string) (p : jsstring)
  (m : list Z) (o : jsstring) (env : Z -> Reading) (w : World) :
  p <> [] ->
  let N := Z.to_nat (choose_iterations (length p)) in
  let run := measurePerformance (as_fn (alg_of t)) name p m o env w in
  invocations (snd run)
  = invocations w ++ repeat (Normal (lps_value t p m o)) (2 + N) /\
  ((length p < 1000 -> N = 7%nat) /\
   (1000 <= length p < 5000 -> N = 5%nat) /\
   (5000 <= length p < 20000 -> N = 3%nat) /\
   (20000 <= length p -> N = 1%nat)) /\
  exists times mems,
    trimmed (List.map (duration_of env) (range 0 N)) times
      (dropped_each_end (Z.of_nat N)) /\
    trimmed (List.map (recorded_kb env) (range 0 N)) mems
      (dropped_each_end (Z.of_nat N)) /\
    length times = Z.of_nat N - 2 * dropped_each_end (Z.of_nat N) /\
    length mems = length times /\
    allTimes (fst run) = Some times /\
    iterations (fst run) = Some (length times) /\
    executionTime (fst run)
    = toFixed2 (Num.div (fold_left Num.add times Num.zero)
                  (Num.of_Z (length times))) /\
    memoryUsage (fst run)
    = toFixed2 (Num.div (fold_left Num.add mems Num.zero)
                  (Num.of_Z (length mems))).
Proof.
  intros Hne N run.
  destruct (@measure_run t name p m o env w Hne) as (w' & E & Hi).
  fold N in E, Hi. unfold run. rewrite E. cbn [fst snd].
  destruct (rounds_cases p) as [_ Hc]. fold N in Hc.
  split; [exact Hi |]. split.
  - destruct (choose_iterations_cases (length p)) as (_ & H7 & H5 & H3 & H1).
    fold (choose_iterations (length p)) in H7, H5, H3, H1. unfold N.
    repeat split; intros H; [rewrite H7 | rewrite H5 | rewrite H3
                             | rewrite H1]; auto.
  - pose proof (kept_samples_trimmed
                  (List.map (duration_of env) (range 0 N))) as Ht1.
    pose proof (kept_samples_trimmed
                  (List.map (recorded_kb env) (range 0 N))) as Ht2.
    pose proof (length_kept_samples
                  (List.map (duration_of env) (range 0 N))) as HL1.
    pose proof (length_kept_samples
                  (List.map (recorded_kb env) (range 0 N))) as HL2.
    rewrite length_map_range in Ht1, Ht2, HL1, HL2.
    eexists _, _. split; [exact (Ht1 Hc) |]. split; [exact (Ht2 Hc) |].
    split; [exact (HL1 Hc) |].
    split; [now rewrite (HL1 Hc), (HL2 Hc) |].
    cbn [normal_result allTimes iterations executionTime memoryUsage].
    repeat split.
Qed.

(** The amended C7 on a one-letter text whose seven rounds take 5, 3, 9,
    1, 7, 2 and 8 ms and grow the heap by 0, 76, 77, 77, 77, 77 and 5000
    bytes: nine calls; the durations kept are 2, 3, 5, 7 and 8, in
    ascending order, and their average 5 is reported; the memory usage
    reported is 0.07, the double nearest to the average of 76/1024 and
    four times 77/1024 being just below 0.075. *)
Lemma sampling_procedure_witness :
  let run := measurePerformance (as_fn (alg_of Manacher)) "manacher"
               (lit "a") [0] (lit "a") uneven_env empty_world in
  lit "a" <> [] /\
  invocations (snd run) = repeat (Normal (lit "a")) 9 /\
  (exists times,
     trimmed (List.map (duration_of uneven_env) (range 0 7)) times 1 /\
     ascending times /\
     allTimes (fst run) = Some times) /\
  allTimes (fst run)
  = Some (List.map Num.of_Z [2; 3; 5; 7; 8]) /\
  executionTime (fst run) = Num.of_Z 5 /\
  memoryUsage (fst run) = Num.ratio 7 100.
Proof.
  cbv zeta.
  assert (lit "a" <> []) as H1 by (vm_compute; discriminate).
  split; [exact H1 |].
  destruct (@sampling_procedure Manacher "manacher" (lit "a") [0] (lit "a")
              uneven_env empty_world H1)
    as (Hi & _ & times & mems & Ht & _ & _ & _ & Ha & _).
  split; [exact Hi |]. split; [| repeat split].
  exists times. split; [exact Ht |]. split; [| exact Ha].
  destruct Ht as (lo & hi & _ & _ & Hasc & _).
  assert (Forall is_number (List.map (duration_of uneven_env) (range 0 7)))
    as Hn by (repeat constructor; discriminate).
  specialize (Hasc Hn). unfold ascending in *.
  apply StronglySorted_app_r in Hasc.
  now apply StronglySorted_app_l in Hasc.
Defined.

(** * Further properties of the module *)

(** ** Helpers *)

Lemma is_alnum_iff c :
  is_alnum c = true <->
  48 <= c <= 57 \/ 65 <= c <= 90 \/ 97 <= c <= 122.
Proof.
  unfold is_alnum. rewrite !orb_true_iff, !andb_true_iff, !Z.leb_le. tauto.
Qed.

Lemma lower_alnum c :
  is_alnum c = true -> is_alnum (lower c) = true /\ lower (lower c) = lower c.
Proof.
  intros H. apply is_alnum_iff in H. unfold lower.
  destruct ((65 <=? c) && (c <=? 90)) eqn:E.
  - apply andb_prop in E. destruct E as [E1 E2].
    apply Z.leb_le in E1, E2. split; [apply is_alnum_iff; lia |].
    destruct (Z.leb_spec (c + 32) 90); [lia |].
    now rewrite andb_false_r.
  - rewrite E. split; [apply is_alnum_iff; exact H | reflexivity].
Qed.

Lemma canonicalize_alnum s :
  Forall (fun c => is_alnum c = true) (canonicalize s).
Proof.
  unfold canonicalize, toLowerCase, strip_non_alnum.
  apply Forall_forall. intros x Hx. apply in_map_iff in Hx.
  destruct Hx as (c & <- & Hc). apply filter_In in Hc.
  now apply lower_alnum.
Qed.

Lemma canonicalize_idempotent s :
  canonicalize (canonicalize s) = canonicalize s.
Proof.
  rewrite canonicalize_all by apply canonicalize_alnum.
  unfold canonicalize, toLowerCase, strip_non_alnum.
  rewrite List.map_map. apply map_ext_in. intros c Hc.
  apply filter_In in Hc. now apply lower_alnum.
Qed.

Lemma canonicalize_app a b :
  canonicalize (a ++ b) = canonicalize a ++ canonicalize b.
Proof.
  unfold canonicalize, toLowerCase, strip_non_alnum.
  now rewrite filter_app, List.map_app.
Qed.

Lemma positions_app a : forall b off,
  positions (a ++ b) off = positions a off ++ positions b (off + length a).
Proof.
  induction a as [| x a IH]; intros b off.
  - simpl. now rewrite Z.add_0_r.
  - cbn [app positions]. rewrite IH.
    replace (off + 1 + length a) with (off + length (x :: a))
      by (unfold length; cbn [List.length]; lia).
    destruct (is_alnum x); reflexivity.
Qed.

Lemma positions_shift s : forall off d,
  positions s (off + d) = List.map (fun i => i + d) (positions s off).
Proof.
  induction s as [| x s IH]; intros off d; [reflexivity |].
  cbn [positions].
  replace (off + d + 1) with (off + 1 + d) by lia. rewrite IH.
  destruct (is_alnum x); reflexivity.
Qed.

Lemma length_filter_le {A} (f : A -> bool) (l : list A) :
  length (filter f l) <= length l.
Proof. unfold length. pose proof (filter_length_le f l). lia. Qed.

Lemma run_on_raw_value t raw :
  run_on_raw (alg_of t) raw
  = lps_value t (processedStr (preprocessString raw))
      (indexMapping (preprocessString raw)) raw.
Proof. reflexivity. Qed.

(** The three algorithms compute the same value on every triple. *)
Lemma lps_value_same t t' p m o : lps_value t p m o = lps_value t' p m o.
Proof.
  unfold lps_value. destruct p as [| x p'].
  - now rewrite !alg_of_empty.
  - destruct (@alg_of_result t (x :: p') m o [] ltac:(discriminate))
      as (b & Hb & ->).
    destruct (@alg_of_result t' (x :: p') m o [] ltac:(discriminate))
      as (b' & Hb' & ->).
    now rewrite (best_of_unique Hb Hb').
Qed.

(** A non-empty canonical string: the span, its two ends in the raw text,
    and the result as the slice between them. *)
Lemma run_on_raw_slice t raw :
  canonicalize raw <> [] ->
  exists b ia ic x y,
    best_of (canonicalize raw) b /\
    0 <= ia <= ic /\ ic < length raw /\
    get raw ia = Some x /\ is_alnum x = true /\
    get raw ic = Some y /\ is_alnum y = true /\
    run_on_raw (alg_of t) raw = substring raw (Some ia) (Some (ic + 1)) /\
    canonicalize (run_on_raw (alg_of t) raw) = span_of (canonicalize raw) b.
Proof.
  intros Hne.
  destruct (run_on_raw_cases t raw) as [[E _] | (b & Hb & ->)];
    [congruence |].
  destruct (best_of_bounds Hb) as (H0 & H1 & H2).
  destruct (map_back_positions raw b H0 H1 H2)
    as (ia & ic & Ea & Ec & Hr & Hlt & Em & Ecan).
  pose proof Ea as Na. pose proof Ec as Nc.
  rewrite length_canonicalize in H2.
  rewrite get_nth in Na, Nc by lia.
  destruct (positions_get _ _ _ Na) as (_ & x & Hx & Hax & _).
  destruct (positions_get _ _ _ Nc) as (_ & y & Hy & Hay & _).
  rewrite Z.sub_0_r in Hx, Hy.
  assert (get raw ia = Some x) as Gx by (rewrite get_nth by lia; exact Hx).
  assert (get raw ic = Some y) as Gy by (rewrite get_nth by lia; exact Hy).
  exists b, ia, ic, x, y.
  split; [exact Hb |]. split; [exact Hr |]. split; [exact Hlt |].
  repeat split; assumption.
Qed.

Lemma whole_palindrome_best s b :
  s <> [] -> palindrome s -> best_of s b ->
  b = {| maxLength := length s; maxStart := 0 |}.
Proof.
  intros Hne Hp Hb. pose proof (nonempty_length Hne) as Hn.
  assert (isPal s 0 (length s - 1)) as Hi.
  { repeat split; try lia. intros k Hk.
    rewrite (proj1 (palindrome_iff s) Hp k) by lia. f_equal; lia. }
  destruct (best_of_bounds Hb) as (H0 & H1 & H2).
  destruct Hb as (_ & _ & Hm). destruct (Hm _ _ Hi) as [Hle Htie].
  destruct b as [L ms]. cbn [maxLength maxStart] in *.
  assert (L = length s) by lia. subst L. f_equal. lia.
Qed.

(** When the best span is the first code unit alone, the result is the
    first alphanumeric code unit of the raw text. *)
Lemma run_single_span t raw :
  best_of (canonicalize raw) {| maxLength := 1; maxStart := 0 |} ->
  exists i x,
    get (indexMapping (preprocessString raw)) 0 = Some i /\
    get raw i = Some x /\ is_alnum x = true /\
    run_on_raw (alg_of t) raw = [x].
Proof.
  intros Hb1.
  assert (canonicalize raw <> []) as Hne.
  { intros E. rewrite E in Hb1. destruct (best_of_bounds Hb1) as (_ & _ & H).
    cbn in H. lia. }
  destruct (run_on_raw_cases t raw) as [[E _] | (b & Hb & ->)];
    [congruence |].
  rewrite (best_of_unique Hb Hb1).
  destruct (preprocessString_spec raw) as [_ ->].
  destruct (best_of_bounds Hb1) as (H0 & H1 & H2).
  destruct (map_back_positions raw _ H0 H1 H2)
    as (ia & ic & Ea & Ec & Hr & Hlt & Em & _).
  cbn [maxLength maxStart] in Ea, Ec.
  replace (0 + 1 - 1) with 0 in Ec by lia.
  assert (ic = ia) as -> by congruence.
  pose proof Ea as Na. rewrite get_nth in Na by lia.
  destruct (positions_get _ _ _ Na) as (_ & x & Hx & Hal & _).
  rewrite Z.sub_0_r in Hx.
  assert (get raw ia = Some x) as Gx by (rewrite get_nth by lia; exact Hx).
  exists ia, x. repeat split; try assumption.
  rewrite Em. now apply substring_single.
Qed.

(** ** preprocessString and validatePalindrome *)

(** X1. [validatePalindrome] accepts exactly the non-empty strings whose
    canonical form reads the same both ways: the empty string is rejected,
    a non-empty string without alphanumeric code units is accepted. *)
Theorem validator_accepts_exactly_palindromes (str : jsstring) :
  validatePalindrome str = true <->
  str <> [] /\ palindrome (canonicalize str).
Proof. apply validatePalindrome_iff. Qed.

(** X2. On non-empty strings the verdict of [validatePalindrome] depends
    only on the canonical form: case and non-alphanumeric code units do
    not matter. *)
Theorem validation_depends_on_canonical_form (str str' : jsstring) :
  str <> [] -> str' <> [] -> canonicalize str = canonicalize str' ->
  validatePalindrome str = validatePalindrome str'.
Proof.
  intros H H' E.
  destruct (validatePalindrome str) eqn:V, (validatePalindrome str') eqn:V';
    try reflexivity.
  - apply validatePalindrome_iff in V. destruct V as [_ Hp].
    rewrite E in Hp.
    rewrite (proj2 (validatePalindrome_iff str') (conj H' Hp)) in V'.
    discriminate.
  - apply validatePalindrome_iff in V'. destruct V' as [_ Hp].
    rewrite <- E in Hp.
    rewrite (proj2 (validatePalindrome_iff str) (conj H Hp)) in V.
    discriminate.
Qed.

Lemma validation_depends_on_canonical_form_witness :
  lit "No 'x' in Nixon" <> [] /\ lit "noxinnixon" <> [] /\
  canonicalize (lit "No 'x' in Nixon") = canonicalize (lit "noxinnixon") /\
  validatePalindrome (lit "No 'x' in Nixon")
  = validatePalindrome (lit "noxinnixon").
Proof.
  assert (lit "No 'x' in Nixon" <> []) as H1 by (vm_compute; discriminate).
  assert (lit "noxinnixon" <> []) as H2 by (vm_compute; discriminate).
  assert (canonicalize (lit "No 'x' in Nixon")
          = canonicalize (lit "noxinnixon")) as H3 by reflexivity.
  split; [exact H1 |]. split; [exact H2 |]. split; [exact H3 |].
  exact (@validation_depends_on_canonical_form _ _ H1 H2 H3).
Defined.

(** X3. Preprocessing a canonical string changes nothing: the processed
    string of [processedStr] is [processedStr] itself and its mapping is
    the identity [0, 1, ..., n-1]. *)
Theorem preprocess_of_canonical_is_identity (s : jsstring) :
  let d := preprocessString s in
  let d' := preprocessString (processedStr d) in
  processedStr d' = processedStr d /\
  indexMapping d' = range 0 (List.length (processedStr d)).
Proof.
  cbv zeta. destruct (preprocessString_spec s) as [-> _].
  destruct (preprocessString_spec (canonicalize s)) as [-> ->].
  split; [apply canonicalize_idempotent |].
  apply positions_all, canonicalize_alnum.
Qed.

(** X4. The shape of what [preprocessString] returns: the processed string
    is no longer than the input, every entry of the mapping is an offset
    into the input, and [originalStr] is present, and is the input,
    exactly when the input has an alphanumeric code unit. *)
Theorem preprocess_shape (s : jsstring) :
  let d := preprocessString s in
  length (processedStr d) <= length s /\
  (forall i, In i (indexMapping d) -> 0 <= i < length s) /\
  originalStr d = match canonicalize s with [] => None | _ => Some s end.
Proof.
  cbv zeta. split; [| split].
  - destruct (preprocessString_spec s) as [-> _].
    unfold canonicalize, toLowerCase, strip_non_alnum.
    replace (length (List.map lower (filter is_alnum s)))
      with (length (filter is_alnum s))
      by (unfold length; now rewrite List.length_map).
    apply length_filter_le.
  - destruct (preprocessString_spec s) as [_ ->].
    intros i Hin. apply In_nth_error in Hin. destruct Hin as [k Hk].
    destruct (positions_get _ _ _ Hk) as [Hr _]. lia.
  - destruct s as [| x s']; [reflexivity |].
    set (s := x :: s').
    change (preprocessString s) with
      (if length (canonicalize s) =? 0
       then {| processedStr := canonicalize s; indexMapping := [];
               originalStr := None |}
       else
         let '(indexMapping, _) :=
           for_range (Z.to_nat (length s)) 0 (mapping_body s) ([], 0) in
         {| processedStr := canonicalize s; indexMapping := indexMapping;
            originalStr := Some s |}).
    destruct (canonicalize s) as [| y p'] eqn:E; [reflexivity |].
    destruct (Z.eqb_spec (length (y :: p')) 0) as [C | _].
    + unfold length in C. simpl in C. lia.
    + destruct (for_range _ _ _ _). reflexivity.
Qed.

(** X5. Preprocessing distributes over concatenation: the processed string
    of [a ++ b] is the two processed strings put together, and its mapping
    is the mapping of [a] followed by the mapping of [b] shifted by the
    length of [a]. *)
Theorem preprocess_concat (a b : jsstring) :
  processedStr (preprocessString (a ++ b))
  = processedStr (preprocessString a) ++ processedStr (preprocessString b)
  /\
  indexMapping (preprocessString (a ++ b))
  = indexMapping (preprocessString a)
    ++ List.map (fun i => i + length a) (indexMapping (preprocessString b)).
Proof.
  destruct (preprocessString_spec (a ++ b)) as [-> ->].
  destruct (preprocessString_spec a) as [-> ->].
  destruct (preprocessString_spec b) as [-> ->].
  split; [apply canonicalize_app |].
  rewrite positions_app, positions_shift. reflexivity.
Qed.

(** ** The algorithms *)

(** X6. The expansion loop started at [left], [right] has exited after
    [left + 1] rounds: running it any number of rounds more gives the
    same best span. *)
Theorem expansion_loop_exits (s : jsstring) (n left right : Z) (b : Best)
  (extra : nat) :
  expand_while (Z.to_nat (left + 1) + extra) s n left right b
  = expandAroundCenter s n left right b.
Proof. unfold expandAroundCenter. apply expand_while_fuel. lia. Qed.

(** X7. On every triple, well-formed or not, the three algorithms return
    the same string. *)
Theorem algorithms_return_the_same_string (p : jsstring) (m : list Z)
  (o : jsstring) (c1 c2 c3 : Console) :
  fst (naiveLPS p m o c1) = fst (dpLPS p m o c2) /\
  fst (dpLPS p m o c2) = fst (manacherLPS p m o c3).
Proof.
  change naiveLPS with (alg_of Naive). change dpLPS with (alg_of DP).
  change manacherLPS with (alg_of Manacher).
  rewrite !alg_of_value. cbn [fst].
  split; apply lps_value_same.
Qed.

(** X8. When the raw text has an alphanumeric code unit, the result of an
    algorithm is a non-empty slice of the raw text that begins and ends
    with an alphanumeric code unit, covering at least as many code units
    as its canonical form has. *)
Theorem result_is_trimmed_slice (t : AlgTag) (raw : jsstring) :
  canonicalize raw <> [] ->
  let r := run_on_raw (alg_of t) raw in
  exists at_ x y,
    occurs_at raw r at_ /\
    get r 0 = Some x /\ is_alnum x = true /\
    get r (length r - 1) = Some y /\ is_alnum y = true /\
    1 <= length (canonicalize r) <= length r.
Proof.
  intros Hne r.
  destruct (@run_on_raw_slice t raw Hne)
    as (b & ia & ic & x & y & Hb & Hr & Hlt & Gx & Hax & Gy & Hay & E & Ec).
  fold r in E, Ec.
  assert (length r = ic + 1 - ia) as HL
    by (rewrite E; apply length_substring; lia).
  exists ia, x, y. split; [rewrite E; apply occurs_at_substring; lia |].
  split; [rewrite E, get_substring by lia; now rewrite Z.add_0_r |].
  split; [exact Hax |]. split.
  - rewrite HL, E, get_substring by lia. rewrite <- Gy. f_equal. lia.
  - split; [exact Hay |]. split.
    + rewrite Ec. destruct (span_of_best Hb) as (_ & _ & -> & _).
      apply Hb.
    + unfold canonicalize, toLowerCase, strip_non_alnum.
      replace (length (List.map lower (filter is_alnum r)))
        with (length (filter is_alnum r))
        by (unfold length; now rewrite List.length_map).
      apply length_filter_le.
Qed.

Lemma result_is_trimmed_slice_witness :
  canonicalize (lit "x, cb-Bd!") <> [] /\
  exists at_ x y,
    occurs_at (lit "x, cb-Bd!")
      (run_on_raw (alg_of Manacher) (lit "x, cb-Bd!")) at_ /\
    get (run_on_raw (alg_of Manacher) (lit "x, cb-Bd!")) 0 = Some x /\
    is_alnum x = true /\
    get (run_on_raw (alg_of Manacher) (lit "x, cb-Bd!"))
      (length (run_on_raw (alg_of Manacher) (lit "x, cb-Bd!")) - 1)
    = Some y /\
    is_alnum y = true.
Proof.
  assert (canonicalize (lit "x, cb-Bd!") <> []) as H
    by (vm_compute; discriminate).
  split; [exact H |].
  destruct (@result_is_trimmed_slice Manacher (lit "x, cb-Bd!") H)
    as (at_ & x & y & Ho & Gx & Hx & Gy & Hy & _).
  exists at_, x, y. repeat split; assumption.
Defined.

(** X9. When the canonical form of the whole raw text is a palindrome,
    the result covers all of it: its canonical form is the canonical form
    of the text. *)
Theorem whole_palindrome_is_returned (t : AlgTag) (raw : jsstring) :
  palindrome (canonicalize raw) ->
  canonicalize (run_on_raw (alg_of t) raw) = canonicalize raw.
Proof.
  intros Hp.
  destruct (canonical_run t raw) as [[E ->] | (b & Hb & ->)];
    [now rewrite E |].
  assert (canonicalize raw <> []) as Hne.
  { intros E. rewrite E in Hb. destruct (best_of_bounds Hb) as (? & ? & H2).
    change (length []) with 0 in H2. lia. }
  rewrite (whole_palindrome_best Hne Hp Hb). apply span_of_whole.
Qed.

Lemma whole_palindrome_is_returned_witness :
  palindrome (canonicalize (lit "A man a plan a canal Panama")) /\
  canonicalize (run_on_raw (alg_of DP) (lit "A man a plan a canal Panama"))
  = canonicalize (lit "A man a plan a canal Panama").
Proof.
  assert (palindrome (canonicalize (lit "A man a plan a canal Panama")))
    as H by reflexivity.
  split; [exact H |]. exact (@whole_palindrome_is_returned DP _ H).
Defined.

(** X10. When no code unit of the canonical string is repeated next to
    itself or one place further, there is no palindrome of two or more
    code units, and the result is the first alphanumeric code unit of the
    raw text. *)
Theorem no_repetition_gives_first_character (t : AlgTag) (raw : jsstring) :
  canonicalize raw <> [] ->
  (forall i x, get (canonicalize raw) i = Some x ->
     get (canonicalize raw) (i + 1) <> Some x /\
     get (canonicalize raw) (i + 2) <> Some x) ->
  exists i x,
    get (indexMapping (preprocessString raw)) 0 = Some i /\
    get raw i = Some x /\ is_alnum x = true /\
    run_on_raw (alg_of t) raw = [x].
Proof.
  intros Hne Hno. apply run_single_span.
  pose proof (nonempty_length Hne) as Hn.
  split; [simpl; lia |]. split; [apply isPal_single; simpl; lia |].
  intros a c Hp. pose proof (isPal_bounds Hp) as Hb.
  cbn [maxLength maxStart].
  destruct (Z.eq_dec a c) as [-> | Hac]; [lia |]. exfalso.
  assert (exists k d, (d = 1 \/ d = 2) /\ a <= k /\ k + d <= c /\
                      a + c - k = k + d) as (k & d & Hd & Hk1 & Hk2 & Hm).
  { destruct (Z.eq_dec ((a + c) mod 2) 0) as [Ev | Od].
    - exists ((a + c) / 2 - 1), 2.
      Z.to_euclidean_division_equations. lia.
    - exists ((a + c) / 2), 1.
      Z.to_euclidean_division_equations. lia. }
  pose proof (isPal_mirror Hp (k := k) ltac:(lia)) as Hmir.
  rewrite Hm in Hmir.
  destruct (@get_in_range _ (canonicalize raw) k ltac:(lia)) as [x Ex].
  destruct (Hno k x Ex) as [N1 N2]. rewrite Ex in Hmir.
  destruct Hd as [-> | ->]; congruence.
Qed.

Lemma no_repetition_gives_first_character_witness :
  canonicalize (lit "-b, A; c") <> [] /\
  (forall i x, get (canonicalize (lit "-b, A; c")) i = Some x ->
     get (canonicalize (lit "-b, A; c")) (i + 1) <> Some x /\
     get (canonicalize (lit "-b, A; c")) (i + 2) <> Some x) /\
  exists i x,
    get (indexMapping (preprocessString (lit "-b, A; c"))) 0 = Some i /\
    get (lit "-b, A; c") i = Some x /\ is_alnum x = true /\
    run_on_raw (alg_of Naive) (lit "-b, A; c") = [x].
Proof.
  assert (canonicalize (lit "-b, A; c") <> []) as H1
    by (vm_compute; discriminate).
  assert (forall i x, get (canonicalize (lit "-b, A; c")) i = Some x ->
            get (canonicalize (lit "-b, A; c")) (i + 1) <> Some x /\
            get (canonicalize (lit "-b, A; c")) (i + 2) <> Some x) as H2.
  { intros i x H. pose proof (get_Some_range _ _ H) as Hr.
    change (length (canonicalize (lit "-b, A; c"))) with 3 in Hr.
    assert (i = 0 \/ i = 1 \/ i = 2) as [-> | [-> | ->]] by lia;
      vm_compute in H; injection H as <-; vm_compute;
      split; discriminate. }
  split; [exact H1 |]. split; [exact H2 |].
  exact (@no_repetition_gives_first_character Naive _ H1 H2).
Defined.

(** X11. The string an algorithm returns for a raw text passes
    [validatePalindrome] exactly when the text has an alphanumeric code
    unit; otherwise the result is empty, which the validator rejects. *)
Theorem results_pass_the_validator (t : AlgTag) (raw : jsstring) :
  validatePalindrome (run_on_raw (alg_of t) raw) = true <->
  canonicalize raw <> [].
Proof.
  split.
  - intros V E. apply validatePalindrome_iff in V. destruct V as [Hne _].
    destruct (run_on_raw_cases t raw) as [[_ H] | (b & Hb & _)];
      [congruence |].
    rewrite E in Hb. destruct (best_of_bounds Hb) as (? & ? & H2).
    change (length []) with 0 in H2. lia.
  - intros Hne. apply validatePalindrome_iff.
    destruct (@run_on_raw_slice t raw Hne)
      as (b & ia & ic & x & y & Hb & Hr & Hlt & _ & _ & _ & _ & E & Ec).
    split.
    + intros C. rewrite E in C.
      pose proof (@length_substring _ raw ia (ic + 1) ltac:(lia) ltac:(lia))
        as HL.
      rewrite C in HL. change (length []) with 0 in HL. lia.
    + rewrite Ec. apply (span_of_best Hb).
Qed.

(** ** The execution order *)

Lemma Qfloor_unit (x : Q) :
  (Qfloor x = 0 <-> (0 <= x < 1)%Q) /\ ((1 <= x < 2)%Q -> Qfloor x = 1).
Proof.
  pose proof (Qfloor_le x) as H1. pose proof (Qlt_floor x) as H2.
  rewrite inject_Z_plus in H2. change (inject_Z 1) with 1%Q in H2.
  split; [split |].
  - intros E. rewrite E in H1, H2. change (inject_Z 0) with 0%Q in *.
    split; lra.
  - intros [Ha Hb].
    assert (inject_Z (Qfloor x) < inject_Z 1)%Q as L1
      by (change (inject_Z 1) with 1%Q; lra).
    assert (inject_Z (-1) < inject_Z (Qfloor x))%Q as L2
      by (change (inject_Z (-1)) with (-1 # 1)%Q; lra).
    rewrite <- Zlt_Qlt in L1, L2. lia.
  - intros [Ha Hb].
    assert (inject_Z (Qfloor x) < inject_Z 2)%Q as L1
      by (change (inject_Z 2) with 2%Q; lra).
    assert (inject_Z 0 < inject_Z (Qfloor x))%Q as L2
      by (change (inject_Z 0) with 0%Q; lra).
    rewrite <- Zlt_Qlt in L1, L2. lia.
Qed.

(** X12. Whatever [Math.random()] returns, the execution order starts with
    manacher and is a permutation of the three algorithms. *)
Theorem manacher_is_measured_first (random : Q) :
  exists second third,
    algorithmExecutionOrder random
    = {| name := "manacher"; fn := as_fn manacherLPS |} :: [second; third]
    /\ Permutation (algorithmExecutionOrder random) algorithms.
Proof.
  rewrite algorithmExecutionOrder_cases. cbv zeta. unfold algorithms.
  destruct (Qfloor (random * 2) =? 0); eexists _, _; split;
    try reflexivity.
  - apply Permutation_sym.
    exact (Permutation_rev
             [ {| name := "naive"; fn := as_fn naiveLPS |};
               {| name := "dp"; fn := as_fn dpLPS |};
               {| name := "manacher"; fn := as_fn manacherLPS |} ]).
  - exact (Permutation_cons_append
             [ {| name := "naive"; fn := as_fn naiveLPS |};
               {| name := "dp"; fn := as_fn dpLPS |} ]
             {| name := "manacher"; fn := as_fn manacherLPS |}).
Qed.

(** X13. The shuffle of the other two algorithms: a random number below
    one half puts dp before naive, one from one half on keeps naive before
    dp. *)
Theorem shuffle_threshold (random : Q) :
  ((0 <= random < 1 # 2)%Q ->
   List.map name (algorithmExecutionOrder random)
   = ["manacher"; "dp"; "naive"]%string) /\
  ((1 # 2 <= random < 1)%Q ->
   List.map name (algorithmExecutionOrder random)
   = ["manacher"; "naive"; "dp"]%string).
Proof.
  rewrite algorithmExecutionOrder_cases. cbv zeta.
  destruct (Qfloor_unit (random * 2)) as [H0 H1]. split; intros Hr.
  - rewrite (proj2 H0) by (split; lra). reflexivity.
  - rewrite H1 by (split; lra). reflexivity.
Qed.

Lemma shuffle_threshold_witness :
  ((0 <= 1 # 4 < 1 # 2)%Q /\
   List.map name (algorithmExecutionOrder (1 # 4))
   = ["manacher"; "dp"; "naive"]%string) /\
  ((1 # 2 <= 3 # 4 < 1)%Q /\
   List.map name (algorithmExecutionOrder (3 # 4))
   = ["manacher"; "naive"; "dp"]%string).
Proof.
  assert (0 <= 1 # 4 < 1 # 2)%Q as H1 by (split; lra).
  assert (1 # 2 <= 3 # 4 < 1)%Q as H2 by (split; lra).
  split.
  - split; [exact H1 |]. exact (proj1 (shuffle_threshold (1 # 4)) H1).
  - split; [exact H2 |]. exact (proj2 (shuffle_threshold (3 # 4)) H2).
Defined.

(** ** The measurement harness *)

(** X14. The [iterations] a measurement reports is the number of samples
    left after trimming, not the number of timed rounds: 5 for a canonical
    string under 1,000 code units, 3 under 20,000 and 1 from there on;
    [allTimes] has that many entries. *)
Theorem reported_iterations (t : AlgTag) (name : string) (p : jsstring)
  (m : list Z) (o : jsstring) (env : Z -> Reading) (w : World) :
  p <> [] ->
  let r := fst (measurePerformance (as_fn (alg_of t)) name p m o env w) in
  let kept := if length p <? 1000 then 5
              else if length p <? 20000 then 3 else 1 in
  iterations r = Some kept /\
  exists times, allTimes r = Some times /\ length times = kept.
Proof.
  intros Hne r.
  destruct (@measure_run t name p m o env w Hne) as (w' & E & _).
  unfold r. rewrite E. cbn [fst].
  cbn [normal_result iterations allTimes].
  set (N := Z.to_nat (choose_iterations (length p))).
  pose proof (length_kept_samples
                (List.map (duration_of env) (range 0 N))) as HL.
  rewrite length_map_range in HL.
  destruct (rounds_cases p) as [EN Hc]. fold N in EN, Hc.
  specialize (HL Hc). rewrite EN in HL.
  assert (length (kept_samples (List.map (duration_of env) (range 0 N)))
          = if length p <? 1000 then 5
            else if length p <? 20000 then 3 else 1) as Hk.
  { rewrite HL. unfold choose_iterations, dropped_each_end.
    destruct (Z.ltb_spec (length p) 1000); [reflexivity |].
    destruct (Z.ltb_spec (length p) 5000).
    - destruct (Z.ltb_spec (length p) 20000); [reflexivity | lia].
    - destruct (Z.ltb_spec (length p) 20000); reflexivity. }
  split; [now rewrite Hk |]. eexists. split; [reflexivity | exact Hk].
Qed.

Lemma reported_iterations_witness :
  lit "racecar" <> [] /\
  iterations
    (fst (measurePerformance (as_fn (alg_of Naive)) "naive" (lit "racecar")
            [0; 1; 2; 3; 4; 5; 6] (lit "racecar") steady_env empty_world))
  = Some 5.
Proof.
  assert (lit "racecar" <> []) as H1 by (vm_compute; discriminate).
  split; [exact H1 |].
  exact (proj1 (@reported_iterations Naive "naive" (lit "racecar")
                  [0; 1; 2; 3; 4; 5; 6] (lit "racecar") steady_env
                  empty_world H1)).
Defined.

(** X15. A measurement of one of the three algorithms calls it between 3
    and 9 times on a non-empty canonical string (two warm-up calls and one
    to seven timed ones) and not at all on an empty one; every call
    returns the same value. *)
Theorem calls_per_measurement (t : AlgTag) (name : string) (p : jsstring)
  (m : list Z) (o : jsstring) (env : Z -> Reading) (w : World) :
  exists n,
    invocations
      (snd (measurePerformance (as_fn (alg_of t)) name p m o env w))
    = invocations w ++ repeat (Normal (lps_value t p m o)) n /\
    match p with
    | [] => n = O
    | _ => (3 <= n <= 9)%nat
    end.
Proof.
  destruct p as [| x p'].
  - exists O. rewrite measure_empty. cbn [snd repeat].
    now rewrite app_nil_r.
  - destruct (@measure_run t name (x :: p') m o env w ltac:(discriminate))
      as (w' & -> & Hi).
    cbn [snd]. eexists. split; [exact Hi |].
    destruct (rounds_cases (x :: p')) as [_ HN].
    unfold sample_count in HN. lia.
Qed.

(** X16. The memory usage a measurement of one of the three algorithms
    reports is never negative, whatever the heap readings: it is not below
    zero, and it is not the negative zero either.  With heap sizes below
    2^53 bytes it is a number, hence zero or above. *)
Theorem reported_memory_is_never_negative (t : AlgTag) (name : string)
  (p : jsstring) (m : list Z) (o : jsstring) (env : Z -> Reading)
  (w : World) :
  let N := Z.to_nat (choose_iterations (length p)) in
  let r := fst (measurePerformance (as_fn (alg_of t)) name p m o env w) in
  not_negative (memoryUsage r) /\
  signed false (memoryUsage r) /\
  ((forall i, 0 <= i < Z.of_nat N ->
      Z.abs (baselineMemory (env i)) < 2 ^ 53 /\
      Z.abs (finalMemory (env i)) < 2 ^ 53) ->
   Num.le Num.zero (memoryUsage r) = true).
Proof.
  cbv zeta.
  destruct p as [| x p'].
  { rewrite measure_empty. repeat split. }
  destruct (@measure_run t name (x :: p') m o env w ltac:(discriminate))
    as (w' & -> & _).
  cbn [fst normal_result memoryUsage].
  destruct (rounds_cases (x :: p')) as [_ Hc].
  assert (signed false
            (toFixed2
               (average
                  (kept_samples
                     (List.map (recorded_kb env)
                        (range 0
                           (Z.to_nat
                              (choose_iterations (length (x :: p'))))))))))
    as H by (apply toFixed2_signed; now apply kept_memory_signed).
  split; [now apply signed_not_negative |]. split; [exact H |].
  intros Hb. apply positive_or_zero_le, toFixed2_positive.
  now apply kept_memory_positive.
Qed.

(** X16 on a one-letter text whose heap shrinks in every round. *)
Lemma reported_memory_is_never_negative_witness :
  (forall i, 0 <= i < 7 ->
     Z.abs (baselineMemory (shrinking_heap_env i)) < 2 ^ 53 /\
     Z.abs (finalMemory (shrinking_heap_env i)) < 2 ^ 53) /\
  Num.le Num.zero
    (memoryUsage
       (fst (measurePerformance (as_fn (alg_of DP)) "dp" (lit "a") [0]
               (lit "a") shrinking_heap_env empty_world))) = true.
Proof.
  assert (forall i, 0 <= i < 7 ->
            Z.abs (baselineMemory (shrinking_heap_env i)) < 2 ^ 53 /\
            Z.abs (finalMemory (shrinking_heap_env i)) < 2 ^ 53) as H
    by (intros i _; split; reflexivity).
  split; [exact H |].
  exact (proj2 (proj2 (reported_memory_is_never_negative DP "dp" (lit "a")
                         [0] (lit "a") shrinking_heap_env empty_world)) H).
Defined.

(** ** The two routes *)

(** The sequential run of a route gives each algorithm the entry of its
    own measurement, in execution order. *)
Lemma comparison_entries raw random envs w :
  exists w',
    runSequentially (algorithmExecutionOrder random) 0
      (processedStr (preprocessString raw))
      (indexMapping (preprocessString raw)) raw envs [] w
    = (isolated_entries raw random envs, w').
Proof.
  pose proof (measure_isolated Manacher "manacher" raw) as HM.
  pose proof (measure_isolated Naive "naive" raw) as HN.
  pose proof (measure_isolated DP "dp" raw) as HD.
  cbn [alg_of] in HM, HN, HD.
  rewrite algorithmExecutionOrder_cases. cbv zeta. unfold isolated_entries.
  destruct (Qfloor (random * 2) =? 0); cbn [runSequentially name fn].
  - destruct (measurePerformance (as_fn manacherLPS) _ _ _ _ (envs 0%nat) w)
      as [r1 w1] eqn:E1.
    destruct (measurePerformance (as_fn dpLPS) _ _ _ _ (envs 1%nat) w1)
      as [r2 w2] eqn:E2.
    destruct (measurePerformance (as_fn naiveLPS) _ _ _ _ (envs 2%nat) w2)
      as [r3 w3] eqn:E3.
    exists w3.
    rewrite <- (HM (envs 0%nat) w), <- (HD (envs 1%nat) w1),
      <- (HN (envs 2%nat) w2), E1, E2, E3.
    reflexivity.
  - destruct (measurePerformance (as_fn manacherLPS) _ _ _ _ (envs 0%nat) w)
      as [r1 w1] eqn:E1.
    destruct (measurePerformance (as_fn naiveLPS) _ _ _ _ (envs 1%nat) w1)
      as [r2 w2] eqn:E2.
    destruct (measurePerformance (as_fn dpLPS) _ _ _ _ (envs 2%nat) w2)
      as [r3 w3] eqn:E3.
    exists w3.
    rewrite <- (HM (envs 0%nat) w), <- (HN (envs 1%nat) w1),
      <- (HD (envs 2%nat) w2), E1, E2, E3.
    reflexivity.
Qed.

Lemma post_runAlgorithms_json text random envs w :
  text <> [] ->
  exists w',
    post_runAlgorithms text random envs w
    = (Api.Json (response_body text (algorithmExecutionOrder random)
                   (isolated_entries text random envs)), w').
Proof.
  intros Hne. destruct text as [| x text']; [congruence |].
  destruct (comparison_entries (x :: text') random envs w) as [w' E].
  exists w'. unfold post_runAlgorithms.
  change (runAlgorithms (x :: text') random envs w)
    with (Some (runSequentially (algorithmExecutionOrder random) 0
                  (processedStr (preprocessString (x :: text')))
                  (indexMapping (preprocessString (x :: text')))
                  (x :: text') envs [] w)).
  now rewrite E.
Qed.

Lemma post_upload_json text random envs w :
  length text <= 500000 ->
  exists w',
    post_upload text random envs w
    = (Api.Json (response_body text (algorithmExecutionOrder random)
                   (isolated_entries text random envs)), w').
Proof.
  intros Hle. destruct (comparison_entries text random envs w) as [w' E].
  exists w'. unfold post_upload.
  destruct (Z.gtb_spec (length text) 500000); [lia |].
  cbv zeta. now rewrite E.
Qed.

(** The world is left as it was when the canonical string is empty. *)
Lemma comparison_of_empty order m o envs : forall k results w,
  snd (runSequentially order k [] m o envs results w) = w.
Proof.
  induction order as [| a rest IH]; intros k results w; [reflexivity |].
  cbn [runSequentially]. rewrite measure_empty. apply IH.
Qed.

Lemma isolated_empty t name raw env :
  canonicalize raw = [] -> isolated t name raw env = entry_of empty_result.
Proof.
  intros E. unfold isolated.
  destruct (preprocessString_spec raw) as [-> _]. now rewrite E.
Qed.

Lemma isolated_normal t name raw env :
  canonicalize raw <> [] ->
  lps (isolated t name raw env) = run_on_raw (alg_of t) raw.
Proof.
  intros Hne. unfold isolated. rewrite run_on_raw_value.
  destruct (preprocessString_spec raw) as [Ep _].
  rewrite Ep in *.
  destruct (@measure_run t name (canonicalize raw)
              (indexMapping (preprocessString raw)) raw env empty_world Hne)
    as (w' & -> & _).
  reflexivity.
Qed.

Lemma isolated_entries_names raw random envs :
  List.map fst (isolated_entries raw random envs)
  = List.map name (algorithmExecutionOrder random) /\
  exists second third,
    List.map name (algorithmExecutionOrder random)
    = ["manacher"%string; second; third].
Proof.
  rewrite algorithmExecutionOrder_cases. cbv zeta. unfold isolated_entries.
  destruct (Qfloor (random * 2) =? 0);
    (split; [reflexivity | eexists _, _; reflexivity]).
Qed.

Lemma map_algorithm_finalResult results :
  List.map Api.algorithm (List.map finalResult results)
  = List.map fst results.
Proof.
  rewrite List.map_map. apply map_ext. intros [k e]. reflexivity.
Qed.

Lemma response_body_ordered text random envs :
  let body := response_body text (algorithmExecutionOrder random)
                (isolated_entries text random envs) in
  List.map Api.algorithm (Api.results body) = Api.algorithmOrder body /\
  exists second third,
    Api.algorithmOrder body = ["manacher"%string; second; third].
Proof.
  cbv zeta. cbn [response_body Api.results Api.algorithmOrder].
  rewrite map_algorithm_finalResult. apply isolated_entries_names.
Qed.

(** X18. In the answer of either route the results are listed in the
    order in which the algorithms were measured: the names of [results]
    are [algorithmOrder], three names with manacher first. *)
Theorem results_follow_execution_order (text : jsstring) (random : Q)
  (envs : nat -> Z -> Reading) (w : World) :
  (text <> [] ->
   exists body w',
     post_runAlgorithms text random envs w = (Api.Json body, w') /\
     List.map Api.algorithm (Api.results body) = Api.algorithmOrder body /\
     exists second third,
       Api.algorithmOrder body = ["manacher"%string; second; third]) /\
  (length text <= 500000 ->
   exists body w',
     post_upload text random envs w = (Api.Json body, w') /\
     List.map Api.algorithm (Api.results body) = Api.algorithmOrder body /\
     exists second third,
       Api.algorithmOrder body = ["manacher"%string; second; third]).
Proof.
  split; intros H.
  - destruct (@post_runAlgorithms_json text random envs w H) as [w' E].
    eexists _, w'. split; [exact E |]. apply response_body_ordered.
  - destruct (@post_upload_json text random envs w H) as [w' E].
    eexists _, w'. split; [exact E |]. apply response_body_ordered.
Qed.

Lemma results_follow_execution_order_witness :
  (lit "abba" <> [] /\
   exists body w',
     post_runAlgorithms (lit "abba") (1 # 3) (fun _ => steady_env)
       empty_world = (Api.Json body, w') /\
     List.map Api.algorithm (Api.results body) = Api.algorithmOrder body) /\
  (length (lit "abba") <= 500000 /\
   exists body w',
     post_upload (lit "abba") (1 # 3) (fun _ => steady_env) empty_world
     = (Api.Json body, w') /\
     List.map Api.algorithm (Api.results body) = Api.algorithmOrder body).
Proof.
  assert (lit "abba" <> []) as H1 by (vm_compute; discriminate).
  assert (length (lit "abba") <= 500000) as H2 by (vm_compute; discriminate).
  destruct (results_follow_execution_order (lit "abba") (1 # 3)
              (fun _ => steady_env) empty_world) as [A B].
  split.
  - split; [exact H1 |]. destruct (A H1) as (body & w' & E & Ho & _).
    exists body, w'. split; assumption.
  - split; [exact H2 |]. destruct (B H2) as (body & w' & E & Ho & _).
    exists body, w'. split; assumption.
Defined.

Lemma empty_entry_final k : empty_final (finalResult (k, entry_of empty_result)).
Proof. repeat split. Qed.

Lemma response_body_empty text random envs :
  canonicalize text = [] ->
  let body := response_body text (algorithmExecutionOrder random)
                (isolated_entries text random envs) in
  Forall empty_final (Api.results body) /\
  List.length (Api.results body) = 3%nat /\
  Api.maxPalindromeLength body = 0.
Proof.
  intros E. cbv zeta. unfold response_body, isolated_entries.
  cbn [Api.results Api.maxPalindromeLength].
  assert (forall t n e, isolated t n text e = entry_of empty_result) as Hi
    by (intros; now apply isolated_empty).
  rewrite !Hi.
  destruct (Qfloor (random * 2) =? 0); cbn [List.map];
    (split; [repeat constructor; apply empty_entry_final
            | split; reflexivity]).
Qed.

Lemma post_runAlgorithms_world text random envs w :
  canonicalize text = [] -> snd (post_runAlgorithms text random envs w) = w.
Proof.
  intros E. unfold post_runAlgorithms, runAlgorithms.
  destruct text as [| x text']; [reflexivity |].
  destruct (preprocessString_spec (x :: text')) as [-> _]. rewrite E.
  pose proof (comparison_of_empty (algorithmExecutionOrder random)
                (indexMapping (preprocessString (x :: text'))) (x :: text')
                envs 0 [] w) as Hw.
  destruct (runSequentially _ _ _ _ _ _ _ _) as [res w']. exact Hw.
Qed.

Lemma post_upload_world text random envs w :
  canonicalize text = [] -> snd (post_upload text random envs w) = w.
Proof.
  intros E. unfold post_upload.
  destruct (length text >? 500000); [reflexivity |]. cbv zeta.
  destruct (preprocessString_spec text) as [-> _]. rewrite E.
  pose proof (comparison_of_empty (algorithmExecutionOrder random)
                (indexMapping (preprocessString text)) text envs 0 [] w)
    as Hw.
  destruct (runSequentially _ _ _ _ _ _ _ _) as [res w']. exact Hw.
Qed.

(** X19. A text without alphanumeric code units is not measured: either
    route answers it with three results that are the empty string with
    execution time 0, memory 0 and 1 iteration, and a maximal palindrome
    length of 0, and no algorithm is called.  For an upload this includes
    the empty file. *)
Theorem text_without_alphanumerics (text : jsstring) (random : Q)
  (envs : nat -> Z -> Reading) (w : World) :
  canonicalize text = [] ->
  (text <> [] ->
   exists body,
     post_runAlgorithms text random envs w = (Api.Json body, w) /\
     Forall empty_final (Api.results body) /\
     List.length (Api.results body) = 3%nat /\
     Api.maxPalindromeLength body = 0) /\
  (length text <= 500000 ->
   exists body,
     post_upload text random envs w = (Api.Json body, w) /\
     Forall empty_final (Api.results body) /\
     List.length (Api.results body) = 3%nat /\
     Api.maxPalindromeLength body = 0).
Proof.
  intros E. split; intros H.
  - destruct (@post_runAlgorithms_json text random envs w H) as [w' Ej].
    pose proof (post_runAlgorithms_world text random envs w E) as Hw.
    rewrite Ej in Hw. cbn [snd] in Hw. subst w'.
    eexists. split; [exact Ej |]. now apply response_body_empty.
  - destruct (@post_upload_json text random envs w H) as [w' Ej].
    pose proof (post_upload_world text random envs w E) as Hw.
    rewrite Ej in Hw. cbn [snd] in Hw. subst w'.
    eexists. split; [exact Ej |]. now apply response_body_empty.
Qed.

Lemma text_without_alphanumerics_witness :
  (canonicalize (lit "?!") = [] /\ lit "?!" <> [] /\
   exists body,
     post_runAlgorithms (lit "?!") 0 (fun _ => steady_env) empty_world
     = (Api.Json body, empty_world) /\
     Api.maxPalindromeLength body = 0) /\
  (canonicalize [] = [] /\ length (@nil Z) <= 500000 /\
   exists body,
     post_upload [] 0 (fun _ => steady_env) empty_world
     = (Api.Json body, empty_world) /\
     Forall empty_final (Api.results body)).
Proof.
  assert (canonicalize (lit "?!") = []) as H1 by reflexivity.
  assert (lit "?!" <> []) as H2 by (vm_compute; discriminate).
  assert (canonicalize [] = []) as H3 by reflexivity.
  assert (length (@nil Z) <= 500000) as H4 by (vm_compute; discriminate).
  split.
  - split; [exact H1 |]. split; [exact H2 |].
    destruct (proj1 (@text_without_alphanumerics (lit "?!") 0
                       (fun _ => steady_env) empty_world H1) H2)
      as (body & E & _ & _ & Hm).
    exists body. split; assumption.
  - split; [exact H3 |]. split; [exact H4 |].
    destruct (proj2 (@text_without_alphanumerics [] 0
                       (fun _ => steady_env) empty_world H3) H4)
      as (body & E & Hf & _).
    exists body. split; assumption.
Defined.

Lemma or_empty_id x : or_empty x = x.
Proof. destruct x; reflexivity. Qed.

(** X20. All three results of [POST /runAlgorithms] are the same slice
    of the text, and [maxPalindromeLength] is the length of that slice in
    the raw text, non-alphanumeric code units inside it included: at least
    the length of its canonical form and at most the length of the
    text. *)
Theorem max_palindrome_length (text : jsstring) (random : Q)
  (envs : nat -> Z -> Reading) (w : World) :
  canonicalize text <> [] ->
  let found := run_on_raw naiveLPS text in
  exists body w',
    post_runAlgorithms text random envs w = (Api.Json body, w') /\
    Forall (fun r => Api.result r = found) (Api.results body) /\
    Api.maxPalindromeLength body = length found /\
    length (canonicalize found) <= Api.maxPalindromeLength body /\
    Api.maxPalindromeLength body <= Api.fullLength body.
Proof.
  intros Hne found.
  assert (text <> []) as Hte by (intros C; now rewrite C in Hne).
  destruct (@post_runAlgorithms_json text random envs w Hte) as [w' E].
  eexists _, w'. split; [exact E |].
  assert (forall t n k,
            Api.result (finalResult (n, isolated t n text (envs k)))
            = found) as Hres.
  { intros t n k. cbn [finalResult Api.result]. rewrite or_empty_id.
    rewrite (@isolated_normal t n text (envs k) Hne).
    unfold found. change naiveLPS with (alg_of Naive).
    rewrite !run_on_raw_value. apply lps_value_same. }
  destruct (@run_on_raw_slice Naive text Hne)
    as (b & ia & ic & x & y & _ & Hr & Hlt & _ & _ & _ & _ & Es & _).
  change (run_on_raw (alg_of Naive) text) with found in Es.
  assert (0 <= length found <= length text) as Hlen.
  { rewrite Es, length_substring by lia. lia. }
  assert (length (canonicalize found) <= length found) as Hcan.
  { unfold canonicalize, toLowerCase, strip_non_alnum.
    replace (length (List.map lower (filter is_alnum found)))
      with (length (filter is_alnum found))
      by (unfold length; now rewrite List.length_map).
    apply length_filter_le. }
  unfold response_body, isolated_entries.
  cbn [Api.results Api.maxPalindromeLength Api.fullLength].
  destruct (Qfloor (random * 2) =? 0); cbn [List.map Math_max_and_0
                                              fold_right];
    rewrite !Hres;
    (split; [repeat (constructor; [apply Hres |]); constructor
            | split; [lia | split; lia]]).
Qed.

Lemma max_palindrome_length_witness :
  canonicalize (lit "x, cb-Bd!") <> [] /\
  exists body w',
    post_runAlgorithms (lit "x, cb-Bd!") 0 (fun _ => steady_env) empty_world
    = (Api.Json body, w') /\
    Api.maxPalindromeLength body = 3.
Proof.
  assert (canonicalize (lit "x, cb-Bd!") <> []) as H1
    by (vm_compute; discriminate).
  split; [exact H1 |].
  destruct (@max_palindrome_length (lit "x, cb-Bd!") 0
              (fun _ => steady_env) empty_world H1)
    as (body & w' & E & _ & Hm & _).
  exists body, w'. split; [exact E | exact Hm].
Defined.
